(** * ogtool crawl / classify / extract engine: a shallow embedding

    The development follows [core/scraper/ai_bs_scraper.py] (class
    [AiScraper], dataclasses [KBItem] and [CrawledLink]),
    [core/worker/chunk_kb_item.py], [core/scraper/gdrive_scraper.py] and
    the message handling of [core/worker/main.py] and
    [core/worker/database.py].

    Conventions.
    - Python [str] is the [string] of its UTF-8 bytes; [len] counts its
      characters ([len] below), and [str.strip] removes the white space
      of Unicode.
    - Python [set] of URLs is [gset string]; [list(s)] is [elements s]
      (Python leaves the iteration order of a set unspecified).
    - Python [dict] whose iteration order is observed ([crawled_links])
      is an association list updated in place; a [dict] only read by key
      ([to_dict]) is a [gmap].
    - The OpenAI client, Playwright, urllib, html2text and langchain are
      not code of the repository: they are the fields of [Env], functions
      over an abstract world [W].
    - Exceptions are explicit: a computation yields [Ok], [Raise] or, for
      the two [while] loops, [OutOfFuel]. *)

From Stdlib Require Import ZArith Ascii String DecimalString.
From stdpp Require Import gmap strings list sets.

Open Scope string_scope.
Open Scope list_scope.

(** ** Data model *)

Module Data.

(** [KBItem] (dataclass). *)
Record KBItem := mkKBItem {
  title : string;
  content : string;
  content_type : string;
  source_url : string;
  author : option string
}.

(** [CrawledLink] (dataclass); [extracted_data] is never assigned by the
    scraper and stays [None], it is left out. *)
Record CrawledLink := mkCrawledLink {
  link : string;
  link_type : string;
  matches_what_the_user_wants : bool
}.

(** A JSON object answered by the classifier, read with [.get]: the
    three keys the scraper looks at, and whether the object has any
    other key (which matters for its truthiness only).  [c_link] and
    [c_linkType] are the values when they are strings; a missing
    ["link"] and a falsy one are skipped alike by [if not link_url].
    A ["linkType"] is only ever compared with ["directory"] and
    ["post"], and ["matchesWhatTheUserWants"] only tested for truth:
    [c_matches] is its truthiness. *)
Record classification := mkClassification {
  c_link : option string;
  c_linkType : option string;
  c_matches : option bool;
  c_other_keys : bool
}.

(** An entry of the list answered to a batch: a JSON object, or an entry
    on which the body of the loop raises before it records anything: a
    value that is no object (a string, a number, a list, [null]), on
    which [.get("link")] raises [AttributeError], or an object whose
    ["link"] is a list or an object, which the dictionary refuses as a
    key ([TypeError]).  A JSON object or a string in the place of the
    list is iterated as its keys or characters: entries that are no
    object. *)
Inductive entry := Obj (c : classification) | Malformed.

(** Values stored in the dictionary built by [KBItem.to_dict]. *)
Inductive pyval := PyNone | PyStr (s : string).

Definition opt_pyval (o : option string) : pyval :=
  match o with Some s => PyStr s | None => PyNone end.

(** [dataclasses.asdict]. *)
Definition asdict (k : KBItem) : gmap string pyval :=
  <["author" := opt_pyval (author k)]>
  (<["source_url" := PyStr (source_url k)]>
  (<["content_type" := PyStr (content_type k)]>
  (<["content" := PyStr (content k)]>
  (<["title" := PyStr (title k)]> ∅)))).

(** [KBItem.to_dict]: [d.update({"author": "", "user_id": ""})]. *)
Definition to_dict (k : KBItem) : gmap string pyval :=
  <["user_id" := PyStr ""]> (<["author" := PyStr ""]> (asdict k)).

Definition with_author (a : option string) (k : KBItem) : KBItem :=
  mkKBItem (title k) (content k) (content_type k) (source_url k) a.

End Data.
Export Data.

(** ** Exceptions and outcomes *)

(** Playwright's [TimeoutError] is a subclass of its [Error]; [PWError]
    below stands for an [Error] that is not a timeout, [OtherException]
    for any other [Exception]. *)
Inductive exn := PWTimeout | PWError | OtherException.

(** Result of one call into an external library. *)
Inductive res (A : Type) := Val (a : A) | Exc (e : exn).
Arguments Val {A} a.
Arguments Exc {A} e.

(** Result of a method of the scraper. *)
Inductive outcome (A : Type) := Ok (a : A) | Raise (e : exn) | OutOfFuel.
Arguments Ok {A} a.
Arguments Raise {A} e.
Arguments OutOfFuel {A}.

(** ** Python strings *)

(** A byte that continues a UTF-8 character. *)
Definition is_continuation (a : ascii) : bool :=
  let n := nat_of_ascii a in ((128 <=? n) && (n <? 192))%nat.

(** [len(s)]: the number of characters, that is of bytes that start
    one. *)
Fixpoint len (s : string) : nat :=
  match s with
  | EmptyString => 0
  | String a s' => (if is_continuation a then 0 else 1) + len s'
  end.

Definition bytes (l : list nat) : string :=
  fold_right (fun n s => String (ascii_of_nat n) s) EmptyString l.

Fixpoint string_rev_onto (s acc : string) : string :=
  match s with
  | EmptyString => acc
  | String a s' => string_rev_onto s' (String a acc)
  end.

Definition string_rev (s : string) : string := string_rev_onto s EmptyString.

(** The characters [str.isspace] holds for, in UTF-8: U+0009 to U+000D,
    U+001C to U+0020, U+0085, U+00A0, U+1680, U+2000 to U+200A, U+2028,
    U+2029, U+202F, U+205F and U+3000. *)
Definition white_space : list string :=
  map bytes
    ([[9]; [10]; [11]; [12]; [13]; [28]; [29]; [30]; [31]; [32];
      [194; 133]; [194; 160]; [225; 154; 128]]
     ++ map (fun c => [226; 128; c]) (seq 128 11)
     ++ [[226; 128; 168]; [226; 128; 169]; [226; 128; 175];
         [226; 129; 159]; [227; 128; 128]]).

(** [s] without its first [n] bytes. *)
Definition string_drop (n : nat) (s : string) : string :=
  substring n (String.length s - n) s.

(** [s] without the one of [chars] it starts with, if any. *)
Definition skip_one (chars : list string) (s : string) : option string :=
  match List.find (fun c => String.prefix c s) chars with
  | Some c => Some (string_drop (String.length c) s)
  | None => None
  end.

Fixpoint skip_all (chars : list string) (fuel : nat) (s : string) : string :=
  match fuel with
  | 0 => s
  | S fuel' =>
      match skip_one chars s with
      | Some s' => skip_all chars fuel' s'
      | None => s
      end
  end.

(** [str.lstrip()], [str.rstrip()], [str.strip()]. *)
Definition lstrip (s : string) : string :=
  skip_all white_space (String.length s) s.

Definition rstrip (s : string) : string :=
  string_rev (skip_all (map string_rev white_space) (String.length s)
                       (string_rev s)).

Definition strip (s : string) : string := rstrip (lstrip s).

(** ** Chunking ([core/worker/chunk_kb_item.py]) *)

Module Chunk.

Definition DEFAULT_CHUNK_SIZE : Z := 2000.
Definition DEFAULT_CHUNK_OVERLAP : Z := 200.

(** [str(n)] for a natural number. *)
Definition str_of_nat (n : nat) : string :=
  NilZero.string_of_uint (Nat.to_uint n).

(** [f"{title} (Part {i + 1})"]. *)
Definition part_title (t : string) (i : nat) : string :=
  t ++ " (Part " ++ str_of_nat (i + 1) ++ ")".

Definition chunk_item (kb_item : KBItem) (i : nat) (chunk : string) : KBItem :=
  mkKBItem (part_title (title kb_item) i) chunk
           (content_type kb_item) (source_url kb_item) (author kb_item).

Section WithSplitter.

(** langchain's [RecursiveCharacterTextSplitter(chunk_size,
    chunk_overlap, length_function=len).split_text]: construction and
    call together; either may raise. *)
Variable split_text : Z -> Z -> string -> res (list string).

Definition chunk_kb_item (kb_item : KBItem) (chunk_size chunk_overlap : Z)
  : res (list KBItem) :=
  if (Z.of_nat (len (content kb_item)) <=? chunk_size)%Z
  then Val [kb_item]
  else match split_text chunk_size chunk_overlap (content kb_item) with
       | Exc e => Exc e
       | Val chunks => Val (imap (chunk_item kb_item) chunks)
       end.

End WithSplitter.

(** The claim's wording, for a given splitter: short content gives the
    item itself, longer content gives several items. *)
Definition returns_multiple (split_text : Z -> Z -> string -> res (list string))
    (kb_item : KBItem) : Prop :=
  (Z.of_nat (len (content kb_item)) > DEFAULT_CHUNK_SIZE)%Z ->
  exists items, chunk_kb_item split_text kb_item DEFAULT_CHUNK_SIZE
                  DEFAULT_CHUNK_OVERLAP = Val items /\ 2 <= length items.

(** A splitter that behaves as the library does on the inputs used
    below: chunks are stripped, and a chunk that is empty after
    stripping is not returned, so content made of blanks yields no chunk
    at all. *)
Definition is_blank (a : ascii) : bool :=
  bool_decide (a = " "%char) || bool_decide (a = "010"%char) ||
  bool_decide (a = "009"%char) || bool_decide (a = "013"%char).

Fixpoint all_blank (s : string) : bool :=
  match s with
  | EmptyString => true
  | String a s' => is_blank a && all_blank s'
  end.

Definition blank_dropping_splitter (cs co : Z) (s : string) : res (list string) :=
  if all_blank s then Val [] else Val [s].

Fixpoint replicate_string (n : nat) (a : ascii) : string :=
  match n with
  | 0 => EmptyString
  | S n' => String a (replicate_string n' a)
  end.

Definition blank_item : KBItem :=
  mkKBItem "notes.txt" (replicate_string 2001 " "%char) "book"
           "https://drive.google.com/drive/folders/x" (Some "Unknown").

(** A splitter cutting six characters in two halves, and an item for it. *)
Definition halves (cs co : Z) (s : string) : res (list string) :=
  Val [substring 0 3 s; substring 3 3 s].

Definition six : KBItem := mkKBItem "T" "abcdef" "blog" "https://x.test/p" None.

End Chunk.

(** ** The scraper ([core/scraper/ai_bs_scraper.py]) *)

Module Scraper.

(** What [_extract_post] reads from the parsed page: the [content] of
    the [article:author] meta tag, the text of the first [h1] and of
    [title], and the serialised block elements of the chosen container,
    in document order. *)
Record post_soup := mkPostSoup {
  ps_author : option string;
  ps_h1 : option string;
  ps_title : option string;
  ps_parts : list string
}.

(** Everything the scraper asks of the libraries it drives.  A [soup]
    handed to [_extract_links] is only read through
    [find_all('a', href=True)]: it is the list of those [href] values. *)
Record Env (W : Type) := mkEnv {
  (* urllib.parse *)
  urljoin : string -> string -> string;
  netloc : string -> string;
  (* OpenAI client and json.loads, inside the [try] of the classifiers:
     [None] is any exception.  The API is asked for a JSON object
     ([response_format]): the answer for one URL is that object, the
     answer for a batch the value of its ["classifications"], [[]] when
     missing; a value [len] cannot be taken of raises in the [try] *)
  openai_one : string -> W -> option classification * W;
  openai_batch : list string -> W -> option (list entry) * W;
  (* Playwright, traversal page *)
  page_url : W -> string;
  page_goto : string -> W -> res unit * W;
  page_anchors : W -> res (list string) * W;
  locator_count : nat -> W -> res nat * W;
  locator_tag_name : nat -> W -> res string * W;
  locator_is_visible : nat -> W -> res bool * W;
  locator_cursor : nat -> W -> res string * W;
  (* [expect_page] around [click], then [wait_for_load_state], [url]
     and [close] of the new tab: its URL, or what was raised *)
  click_expect_page : nat -> W -> res string * W;
  wait_for_url_change : string -> W -> res unit * W;
  (* Playwright, fresh page of [_extract_post]: [new_page], [goto],
     [content], parsing, and the [close] of the [finally] *)
  open_post : string -> W -> res post_soup * W;
  (* html2text *)
  md_handle : string -> string
}.
Arguments mkEnv {W}.
Arguments urljoin {W}. Arguments netloc {W}. Arguments openai_one {W}.
Arguments openai_batch {W}. Arguments page_url {W}. Arguments page_goto {W}.
Arguments page_anchors {W}. Arguments locator_count {W}.
Arguments locator_tag_name {W}. Arguments locator_is_visible {W}.
Arguments locator_cursor {W}. Arguments click_expect_page {W}.
Arguments wait_for_url_change {W}. Arguments open_post {W}.
Arguments md_handle {W}.

(** What a run does, newest first: every call into a library, and every
    update of [visited_urls], [crawled_links] and [dirs_to_crawl]. *)
Inductive event :=
| EClassifyOne (url : string) (r : option classification)
| EClassifyMany (urls : list string) (r : option (list entry))
| EVisit (url : string)
| ERecord (url : string) (c : CrawledLink)
| EEnqueue (url : string)
| EGoto (url : string)
| EContent
| ECount (i : nat)
| ETagName (i : nat)
| EIsVisible (i : nat)
| ECursor (i : nat)
| EClick (i : nat)
| EWaitUrl (current_url : string)
| EExtract (url : string).

(** The attributes of [self] that change, the world and the log. *)
Record state (W : Type) := mkState {
  world : W;
  log : list event;
  crawled_links : list (string * CrawledLink);
  visited_urls : gset string
}.
Arguments mkState {W}.
Arguments world {W}. Arguments log {W}.
Arguments crawled_links {W}. Arguments visited_urls {W}.

(** [d[k] = v] on an insertion-ordered dictionary. *)
Fixpoint dict_set {V} (k : string) (v : V) (d : list (string * V))
  : list (string * V) :=
  match d with
  | [] => [(k, v)]
  | (k', v') :: d' =>
      if bool_decide (k' = k) then (k, v) :: d' else (k', v') :: dict_set k v d'
  end.

Fixpoint dict_get {V} (k : string) (d : list (string * V)) : option V :=
  match d with
  | [] => None
  | (k', v') :: d' => if bool_decide (k' = k) then Some v' else dict_get k d'
  end.

Definition dict_values {V} (d : list (string * V)) : list V := map snd d.

(** [s.split('#')[0]]. *)
Fixpoint strip_fragment (s : string) : string :=
  match s with
  | EmptyString => EmptyString
  | String a s' =>
      if bool_decide (a = "#"%char) then EmptyString
      else String a (strip_fragment s')
  end.

(** ["\n".join(parts)]. *)
Fixpoint join_lines (parts : list string) : string :=
  match parts with
  | [] => ""
  | [p] => p
  | p :: rest => p ++ String "010"%char (join_lines rest)
  end.

(** [.get(key, default)] on an optional field. *)
Definition get_default {A} (o : option A) (d : A) : A :=
  match o with Some a => a | None => d end.

(** Truthiness of the answered JSON object: empty is false. *)
Definition dict_truthy (c : classification) : bool :=
  bool_decide (is_Some (c_link c)) || bool_decide (is_Some (c_linkType c))
  || bool_decide (is_Some (c_matches c)) || c_other_keys c.

(** [link_list[i:i+10]]. *)
Definition slice {A} (l : list A) (i j : nat) : list A := take (j - i) (drop i l).

(** [range(0, n, step)]. *)
Definition range_step (n step : nat) : list nat :=
  map (fun k => k * step) (seq 0 ((n + step - 1) / step)).

Section Monad.
Context {W : Type}.

Definition M (A : Type) : Type := state W -> outcome A * state W.

Definition ret {A} (a : A) : M A := fun s => (Ok a, s).

Definition bind {A B} (m : M A) (k : A -> M B) : M B := fun s =>
  match m s with
  | (Ok a, s') => k a s'
  | (Raise e, s') => (Raise e, s')
  | (OutOfFuel, s') => (OutOfFuel, s')
  end.

Definition raise {A} (e : exn) : M A := fun s => (Raise e, s).

Definition out_of_fuel {A} : M A := fun s => (OutOfFuel, s).

(** [try: m  except ...: h e]. *)
Definition try_catch {A} (m : M A) (h : exn -> M A) : M A := fun s =>
  match m s with
  | (Raise e, s') => h e s'
  | r => r
  end.

Definition emit (ev : event) : M unit := fun s =>
  (Ok tt, mkState (world s) (ev :: log s) (crawled_links s) (visited_urls s)).

(** A call into a library that may raise. *)
Definition call {A} (ev : event) (op : W -> res A * W) : M A := fun s =>
  let '(r, w') := op (world s) in
  let s' := mkState w' (ev :: log s) (crawled_links s) (visited_urls s) in
  match r with
  | Val a => (Ok a, s')
  | Exc e => (Raise e, s')
  end.

(** Reading an attribute of the page. *)
Definition read {A} (f : W -> A) : M A := fun s => (Ok (f (world s)), s).

Definition gets {A} (f : state W -> A) : M A := fun s => (Ok (f s), s).

(** [for x in l: acc = body acc x]. *)
Fixpoint for_each {A B} (body : B -> A -> M B) (l : list A) (acc : B) : M B :=
  match l with
  | [] => ret acc
  | x :: l' => bind (body acc x) (for_each body l')
  end.

End Monad.
Arguments M : clear implicits.

Notation "'let*' x ':=' m 'in' k" := (bind m (fun x => k))
  (at level 10, x name, m at level 100, k at level 200).
Notation "m ';;;' k" := (bind m (fun _ => k))
  (at level 100, k at level 200, right associativity).

Section Methods.
Context {W : Type}.
Variable E : Env W.
(** [self.start_url]; [self.base_domain] is its [netloc]. *)
Variable start_url : string.

Definition base_domain : string := netloc E start_url.

(** *** [_fetch_page] *)

(** [except PWError] catches Playwright's errors, timeouts included,
    and nothing else. *)
Definition _fetch_page (url : string) : M W (option (list string)) :=
  try_catch
    (call (EGoto url) (page_goto E url) ;;;
     let* soup := call EContent (page_anchors E) in
     ret (Some soup))
    (fun e => match e with
              | PWTimeout | PWError => ret None
              | OtherException => raise OtherException
              end).

(** *** [_call_openai_classifier], [_batch_call_openai_classifier] *)

Definition _call_openai_classifier (url : string) : M W (option classification) :=
  fun s =>
    let '(r, w') := openai_one E url (world s) in
    (Ok r, mkState w' (EClassifyOne url r :: log s)
                   (crawled_links s) (visited_urls s)).

Definition _batch_call_openai_classifier (urls : list string)
  : M W (option (list entry)) :=
  match urls with
  | [] => ret (Some [])
  | _ => fun s =>
      let '(r, w') := openai_batch E urls (world s) in
      (Ok r, mkState w' (EClassifyMany urls r :: log s)
                     (crawled_links s) (visited_urls s))
  end.

(** *** [_extract_links] *)

(** Phase 1: the anchors of the page, resolved, without fragment, kept
    when on the base domain and starting with [http]. *)
Definition tier1_step (base_url : string) (links : gset string) (href : string)
  : gset string :=
  let full_url := strip_fragment (urljoin E base_url href) in
  if bool_decide (netloc E full_url = base_domain) && String.prefix "http" full_url
  then {[full_url]} ∪ links
  else links.

Definition tier1 (soup : list string) (base_url : string) : gset string :=
  foldl (tier1_step base_url) ∅ soup.

(** What the first [try] of the [while] body decides about element
    [i]: [break], [continue] after [i += 1], or go on to click. *)
Inductive probe_check := PcBreak | PcSkip | PcProbe.

Definition check_element (i : nat) : M W probe_check :=
  try_catch
    (let* n := call (ECount i) (locator_count E i) in
     if (n =? 0)%nat then ret PcBreak
     else
       let* tag := call (ETagName i) (locator_tag_name E i) in
       let* is_visible := call (EIsVisible i) (locator_is_visible E i) in
       let* cursor := call (ECursor i) (locator_cursor E i) in
       let is_anchor := bool_decide (tag = "A") in
       let is_pointer := bool_decide (cursor = "pointer") in
       if is_anchor || negb is_visible || negb is_pointer
       then ret PcSkip else ret PcProbe)
    (fun _ => ret PcBreak).

(** [if self._page.url != base_url: self._page.goto(base_url, ...)],
    outside of any [try]. *)
Definition restore_base (base_url : string) : M W unit :=
  let* u := read (page_url E) in
  if bool_decide (u <> base_url)
  then call (EGoto base_url) (page_goto E base_url)
  else ret tt.

Definition add_same_domain (url : string) (links : gset string) : gset string :=
  if bool_decide (netloc E url = base_domain) then {[url]} ∪ links else links.

(** The [except PWTimeout] handler of the click: an inner [try] whose
    only clause is [except PWTimeout: pass].  [links] is a set mutated
    in place, so an addition made before the [goto] raises survives the
    [pass]: the handler of the [goto] returns the enlarged set. *)
Definition probe_navigation (base_url current_url : string) (links : gset string)
  : M W (gset string) :=
  let* navigated :=
    try_catch
      (call (EWaitUrl current_url) (wait_for_url_change E current_url) ;;;
       ret true)
      (fun e => match e with
                | PWTimeout => ret false
                | _ => raise e
                end) in
  if (navigated : bool) then
    let* u := read (page_url E) in
    let links' := add_same_domain (strip_fragment u) links in
    try_catch
      (call (EGoto base_url) (page_goto E base_url) ;;; ret links')
      (fun e => match e with
                | PWTimeout => ret links'
                | _ => raise e
                end)
  else ret links.

(** The second [try] of the [while] body. *)
Definition probe_element (i : nat) (base_url : string) (links : gset string)
  : M W (gset string) :=
  let* current_url := read (page_url E) in
  try_catch
    (let* u := call (EClick i) (click_expect_page E i) in
     ret (add_same_domain (strip_fragment u) links))
    (fun e => match e with
              | PWTimeout => probe_navigation base_url current_url links
              | _ => ret links
              end).

(** The [while True] over the elements matching the one selector,
    ['button']. *)
Fixpoint probe_loop (fuel : nat) (i : nat) (base_url : string)
    (links : gset string) : M W (gset string) :=
  match fuel with
  | O => out_of_fuel
  | S fuel' =>
      restore_base base_url ;;;
      let* c := check_element i in
      match c with
      | PcBreak => ret links
      | PcSkip => probe_loop fuel' (i + 1) base_url links
      | PcProbe =>
          let* links' := probe_element i base_url links in
          probe_loop fuel' (i + 1) base_url links'
      end
  end.

Definition _extract_links (fuel : nat) (soup : list string) (base_url : string)
  : M W (list string) :=
  let links := tier1 soup base_url in
  if bool_decide (5 < size links) then ret (elements links)
  else
    let* links' := probe_loop fuel 0 base_url links in
    ret (elements links').

(** *** [_run_crawl] *)

Definition mark_visited (url : string) : M W unit := fun s =>
  (Ok tt, mkState (world s) (EVisit url :: log s) (crawled_links s)
                  ({[url]} ∪ visited_urls s)).

Definition record_link (url : string) (c : CrawledLink) : M W unit := fun s =>
  (Ok tt, mkState (world s) (ERecord url c :: log s)
                  (dict_set url c (crawled_links s)) (visited_urls s)).

Definition crawled_link_of (url : string) (c : classification) : CrawledLink :=
  mkCrawledLink url (get_default (c_linkType c) "unknown")
                (get_default (c_matches c) false).

(** [for link in links: if link not in self.visited_urls: ...]. *)
Definition note_link (unclassified_links : gset string) (link : string)
  : M W (gset string) :=
  let* visited := gets visited_urls in
  if bool_decide (link ∈ visited) then ret unclassified_links
  else mark_visited link ;;; ret ({[link]} ∪ unclassified_links).

(** The body of [for url in urls_to_fetch]; a [BeautifulSoup] object is
    always truthy, so [if soup:] only filters [None]. *)
Definition explore_directory (fuel : nat) (unclassified_links : gset string)
    (url : string) : M W (gset string) :=
  let* soup := _fetch_page url in
  match soup with
  | None => ret unclassified_links
  | Some soup =>
      let* links := _extract_links fuel soup url in
      for_each note_link links unclassified_links
  end.

(** The body of [for classification in classifications]; on a
    malformed entry [classification.get], or the store under an
    unhashable link, raises. *)
Definition apply_classification (dirs_to_crawl : list string)
    (classification : entry) : M W (list string) :=
  match classification with
  | Malformed => raise OtherException
  | Obj c =>
      match c_link c with
      | None => ret dirs_to_crawl
      | Some link_url =>
          if bool_decide (link_url = "") then ret dirs_to_crawl
          else
            let crawled_link := crawled_link_of link_url c in
            record_link link_url crawled_link ;;;
            if bool_decide (link_type crawled_link = "directory")
            then emit (EEnqueue link_url) ;;; ret (dirs_to_crawl ++ [link_url])
            else ret dirs_to_crawl
      end
  end.

(** The body of [for i in range(0, len(link_list), 10)]. *)
Definition classify_batch (link_list : list string) (dirs_to_crawl : list string)
    (i : nat) : M W (list string) :=
  let batch := slice link_list i (i + 10) in
  let* classifications := _batch_call_openai_classifier batch in
  match classifications with
  | None => ret dirs_to_crawl
  | Some classifications =>
      for_each apply_classification classifications dirs_to_crawl
  end.

(** The [while dirs_to_crawl] loop; [continue] with the queue cleared
    leaves it. *)
Fixpoint crawl_loop (probe_fuel fuel : nat) (dirs_to_crawl : list string)
  : M W unit :=
  match dirs_to_crawl with
  | [] => ret tt
  | _ =>
      match fuel with
      | O => out_of_fuel
      | S fuel' =>
          let urls_to_fetch := dirs_to_crawl in
          let* unclassified_links :=
            for_each (explore_directory probe_fuel) urls_to_fetch ∅ in
          if bool_decide (unclassified_links = ∅)
          then crawl_loop probe_fuel fuel' []
          else
            let link_list := elements unclassified_links in
            let* dirs :=
              for_each (classify_batch link_list)
                       (range_step (length link_list) 10) [] in
            crawl_loop probe_fuel fuel' dirs
      end
  end.

Definition _run_crawl (probe_fuel fuel : nat) : M W unit :=
  let* initial_classification := _call_openai_classifier start_url in
  match initial_classification with
  | None => ret tt
  | Some c =>
      if negb (dict_truthy c) then ret tt
      else
        let initial_crawled_link := crawled_link_of start_url c in
        record_link start_url initial_crawled_link ;;;
        mark_visited start_url ;;;
        if bool_decide (link_type initial_crawled_link <> "directory")
        then ret tt
        else emit (EEnqueue start_url) ;;;
             crawl_loop probe_fuel fuel [start_url]
  end.

(** *** [_extract_post] *)

Definition post_title (ps : post_soup) : string :=
  match ps_h1 ps with
  | Some t => t
  | None => match ps_title ps with
            | Some t => t
            | None => "Untitled"
            end
  end.

Definition kb_item_of (url : string) (ps : post_soup) : KBItem :=
  mkKBItem (post_title ps) (strip (md_handle E (join_lines (ps_parts ps))))
           "blog" url (ps_author ps).

Definition _extract_post (url : string) : M W (option KBItem) :=
  try_catch
    (let* ps := call (EExtract url) (open_post E url) in
     ret (Some (kb_item_of url ps)))
    (fun e => match e with
              | PWTimeout | PWError => ret None
              | OtherException => raise OtherException
              end).

(** *** [run] *)

Definition is_relevant_post (l : CrawledLink) : bool :=
  bool_decide (link_type l = "post") && matches_what_the_user_wants l.

Definition post_links (d : list (string * CrawledLink)) : list string :=
  map link (filter (fun l => is_relevant_post l = true) (dict_values d)).

(** The body of [for url in post_links]; a [KBItem] is always truthy. *)
Definition extract_into (items : list KBItem) (url : string) : M W (list KBItem) :=
  let* item := _extract_post url in
  match item with
  | Some item => ret (items ++ [item])
  | None => ret items
  end.

Definition run (probe_fuel fuel : nat) : M W (list KBItem) :=
  _run_crawl probe_fuel fuel ;;;
  let* d := gets crawled_links in
  for_each extract_into (post_links d) [].

(** A fresh scraper, as [__init__] leaves it. *)
Definition init (w : W) : state W := mkState w [] [] ∅.

End Methods.

(** *** Reading the log *)

(** URLs added to [visited_urls], newest first. *)
Definition visits (l : list event) : list string :=
  omap (fun e => match e with EVisit u => Some u | _ => None end) l.

(** URLs an oracle call was made for. *)
Definition asked_by (e : event) : list string :=
  match e with
  | EClassifyOne u _ => [u]
  | EClassifyMany us _ => us
  | _ => []
  end.

Definition asked (l : list event) : list string := concat (map asked_by l).

(** URLs handed to [_extract_post]. *)
Definition extracted (l : list event) : list string :=
  omap (fun e => match e with EExtract u => Some u | _ => None end) l.

(** Calls on the traversal page. *)
Definition is_browser (e : event) : bool :=
  match e with
  | EGoto _ | EContent | ECount _ | ETagName _ | EIsVisible _ | ECursor _
  | EClick _ | EWaitUrl _ => true
  | _ => false
  end.

(** *** Reasoning about computations *)

(** [triple P m Q X]: from a state in [P], [m] either returns [a] in a
    state of [Q a], or stops (exception or fuel) in a state of [X]. *)
Definition triple {W A} (P : state W -> Prop) (m : M W A)
    (Q : A -> state W -> Prop) (X : state W -> Prop) : Prop :=
  forall s, P s ->
    match m s with
    | (Ok a, s') => Q a s'
    | (_, s') => X s'
    end.

(** [m] never changes what [view] shows of the state. *)
Definition neutral {W A V} (view : state W -> V) (m : M W A) : Prop :=
  forall s, view (snd (m s)) = view s.

(** [view] sees neither the world nor the calls on the traversal page. *)
Definition browser_blind {W V} (view : state W -> V) : Prop :=
  forall s w' evs, Forall (fun e => is_browser e = true) evs ->
    view (mkState w' (evs ++ log s) (crawled_links s) (visited_urls s)) = view s.

(** What the deduplication of the crawl is about: the URLs marked
    visited, the URLs the oracle was asked about, the visited set. *)
Definition crawl_view {W} (s : state W) : list string * list string * gset string :=
  (visits (log s), asked (log s), visited_urls s).

(** Each URL marked once and asked once; asked or marked URLs are in the
    visited set, which holds nothing else. *)
Definition visit_ok (v : list string * list string * gset string) : Prop :=
  let '(marked, queried, seen) := v in
  NoDup marked /\ NoDup queried /\
  (forall u, u ∈ queried -> u ∈ seen) /\
  (forall u, u ∈ marked <-> u ∈ seen).

(** URLs waiting for their classification: visited, not asked yet. *)
Definition pending (waiting : string -> Prop)
    (v : list string * list string * gset string) : Prop :=
  let '(marked, queried, seen) := v in
  forall u, waiting u -> u ∈ seen /\ u ∉ queried.

(** [crawled_links] is keyed by the [link] of its values, each key once. *)
Definition dict_wf (d : list (string * CrawledLink)) : Prop :=
  NoDup (map fst d) /\ Forall (fun kc => link (snd kc) = fst kc) d.

(** What the extraction phase is about: the records and the URLs
    handed to the extractor. *)
Definition extract_view {W} (s : state W) : list (string * CrawledLink) * list string :=
  (crawled_links s, extracted (log s)).


Definition enqueued (l : list event) : list string :=
  omap (fun e => match e with EEnqueue u => Some u | _ => None end) l.





(** An oracle whose answer to a batch holds no malformed entry. *)
Definition answers_wellformed {W} (E : Env W) : Prop :=
  forall us w cls w', openai_batch E us w = (Some cls, w') -> Malformed ∉ cls.




(** [m] always returns, and leaves the visited set as it was. *)
Definition steady {W A} (m : M W A) : Prop :=
  forall s, exists a s', m s = (Ok a, s') /\ visited_urls s' = visited_urls s.

(** *** More readings of the log *)

(** URLs the traversal page was sent to, newest first. *)
Definition gotos (l : list event) : list string :=
  omap (fun e => match e with EGoto u => Some u | _ => None end) l.

(** The batches submitted to the oracle, newest first. *)
Definition batch_calls (l : list event) : list (list string) :=
  omap (fun e => match e with EClassifyMany us _ => Some us | _ => None end) l.

(** [m] only adds events of [P] to the log and leaves [crawled_links]. *)
Definition emits {W A} (P : event -> Prop) (m : M W A) : Prop :=
  forall s, exists evs,
    log (snd (m s)) = evs ++ log s /\ Forall P evs /\
    crawled_links (snd (m s)) = crawled_links s.

(** A call on the traversal page that navigates nowhere but to [base_url]. *)
Definition page_event (base_url : string) (e : event) : Prop :=
  is_browser e = true /\ forall u, e = EGoto u -> u = base_url.

(** [c in s]. *)
Fixpoint contains_char (c : ascii) (s : string) : bool :=
  match s with
  | EmptyString => false
  | String a s' => bool_decide (a = c) || contains_char c s'
  end.

(** The successive values of [batch] in
    [for i in range(0, len(link_list), 10): batch = link_list[i:i+10]]. *)
Definition batches {A} (link_list : list A) : list (list A) :=
  map (fun i => slice link_list i (i + 10)) (range_step (length link_list) 10).


(** Records written, newest first. *)
Definition written (l : list event) : list (string * CrawledLink) :=
  omap (fun e => match e with ERecord u c => Some (u, c) | _ => None end) l.





(** What the extraction phase returns for the URLs [urls] from the world
    [w]: in order, a document for every URL whose page could be opened,
    built from that page; a URL whose page raises one of Playwright's
    errors gives none. *)
Inductive emitted {W} (E : Env W)
  : list string -> W -> list KBItem -> W -> Prop :=
| emitted_nil w : emitted E [] w [] w
| emitted_doc url urls w ps w1 items w2 :
    open_post E url w = (Val ps, w1) ->
    emitted E urls w1 items w2 ->
    emitted E (url :: urls) w (kb_item_of E url ps :: items) w2
| emitted_skip url urls w e w1 items w2 :
    open_post E url w = (Exc e, w1) -> e <> OtherException ->
    emitted E urls w1 items w2 ->
    emitted E (url :: urls) w items w2.

(** The records an answer gives rise to: one per entry that has a
    non-empty [link], under that link. *)
Definition records_of (cls : list classification) : list (string * CrawledLink) :=
  omap (fun c => match c_link c with
                 | Some l => if bool_decide (l = "") then None
                             else Some (l, crawled_link_of l c)
                 | None => None
                 end) cls.

(** The wording of the positional claim for one batch: what is recorded
    while the batch is classified is recorded for a URL of the batch. *)
Definition records_within_batch {W} (E : Env W) (ll : list string) (i : nat)
    (s : state W) : Prop :=
  forall u c, (u, c) ∈ written (log (snd (classify_batch E ll [] i s))) ->
    (u, c) ∈ written (log s) \/ u ∈ slice ll i (i + 10).

(** Where the traversal page may be sent: only to URLs that were put
    on the frontier, and the frontier only receives the seed and URLs
    recorded as directory. *)
Definition nav_ok {W} (start_url : string) (s : state W) : Prop :=
  (forall u, u ∈ gotos (log s) -> u ∈ enqueued (log s)) /\
  (forall u, u ∈ enqueued (log s) ->
     u = start_url \/
     exists c, (u, c) ∈ written (log s) /\ link_type c = "directory").

(** The wording of the non-empty-body claim for the result of [run]. *)
Definition all_bodies_nonempty (r : outcome (list KBItem)) : Prop :=
  match r with
  | Ok items => Forall (fun item => content item <> "") items
  | _ => True
  end.

End Scraper.

(** ** Small concrete sites

    Worlds on which the methods can be run: a site is given by tables,
    the world is the URL the traversal page currently shows. *)

Module Sites.
Import Scraper.

(** [urlparse(u).netloc] for URLs of the form [scheme://host/...]. *)
Fixpoint after_slashes (s : string) : option string :=
  match s with
  | EmptyString => None
  | String a r =>
      match r with
      | String b r' =>
          if bool_decide (a = "/"%char) && bool_decide (b = "/"%char)
          then Some r' else after_slashes r
      | EmptyString => None
      end
  end.

Fixpoint until_delim (s : string) : string :=
  match s with
  | EmptyString => EmptyString
  | String a r =>
      if bool_decide (a = "/"%char) || bool_decide (a = "?"%char)
         || bool_decide (a = "#"%char)
      then EmptyString else String a (until_delim r)
  end.

Definition host (u : string) : string :=
  match after_slashes u with
  | Some r => until_delim r
  | None => ""
  end.

Record site := mkSite {
  anchors_of : string -> list string;
  classify_one : string -> option classification;
  classify_many : list string -> option (list classification);
  post_of : string -> res post_soup
}.

(** A site without scripted buttons: every [href] is absolute (so
    [urljoin] returns it), navigation always succeeds, no element matches
    the selector. *)
Definition static_env (s : site) : Env string :=
  mkEnv (fun _ href => href) host
        (fun u w => (classify_one s u, w))
        (fun us w => (map Obj <$> classify_many s us, w))
        (fun w => w)
        (fun u _ => (Val tt, u))
        (fun w => (Val (anchors_of s w), w))
        (fun _ w => (Val 0, w))
        (fun _ w => (Val "BUTTON", w))
        (fun _ w => (Val true, w))
        (fun _ w => (Val "pointer", w))
        (fun _ w => (Exc PWTimeout, w))
        (fun _ w => (Exc PWTimeout, w))
        (fun u w => (post_of s u, w))
        (fun html => html).

Definition directory : classification :=
  mkClassification None (Some "directory") (Some true) false.
Definition relevant_post : classification :=
  mkClassification None (Some "post") (Some true) false.
Definition for_link (u : string) (c : classification) : classification :=
  mkClassification (Some u) (c_linkType c) (c_matches c) (c_other_keys c).

Definition seed : string := "https://x.test/blog".

(** *** The scenario of the specification

    The seed is a directory linking to A (relevant post), B (directory)
    and C (post, not relevant); B links to D (relevant post) and back to
    the seed. *)

Definition url_A : string := "https://x.test/blog/a".
Definition url_B : string := "https://x.test/blog/page/2".
Definition url_C : string := "https://x.test/about".
Definition url_D : string := "https://x.test/blog/d".

Definition irrelevant_post : classification :=
  mkClassification None (Some "post") (Some false) false.

Definition scenario_class (u : string) : classification :=
  if bool_decide (u = seed) then directory
  else if bool_decide (u = url_B) then directory
  else if bool_decide (u = url_C) then irrelevant_post
  else relevant_post.

Definition scenario_anchors (u : string) : list string :=
  if bool_decide (u = seed) then [url_A; url_B; (url_C ++ "#team")%string]
  else if bool_decide (u = url_B) then [url_D; seed]
  else [].

Definition page_of (u : string) : res post_soup :=
  Val (mkPostSoup (Some "Ada") (Some ("Post " ++ u)%string) None
                  [("<p>" ++ u ++ "</p>")%string]).

Definition scenario_site : site :=
  mkSite scenario_anchors
         (fun u => Some (scenario_class u))
         (fun us => Some (map (fun u => for_link u (scenario_class u)) us))
         page_of.

(** *** The scenario with a failing batch: the call for D fails *)



(** *** A page with eleven links, and an oracle that fails on batches
    of ten and otherwise answers for every link of the page *)

Definition eleven : list string :=
  map (fun n => ("https://x.test/p/" ++ n)%string)
      ["0"; "1"; "2"; "3"; "4"; "5"; "6"; "7"; "8"; "9"; "10"].

Definition crowded_site : site :=
  mkSite (fun u => if bool_decide (u = seed) then eleven else [])
         (fun _ => Some directory)
         (fun us => if bool_decide (length us = 10) then None
                    else Some (map (fun u => for_link u relevant_post) eleven))
         page_of.

(** *** An oracle that answers twice for A: not relevant, then relevant *)


(** *** An oracle that answers with a trailing slash added to each URL *)

Definition slash_site : site :=
  mkSite scenario_anchors
         (fun u => Some (scenario_class u))
         (fun us => Some (map (fun u => for_link (u ++ "/") (scenario_class u)) us))
         page_of.

(** *** A page whose button navigates, on a site that refuses the way back

    The page has no anchor and one button.  Clicking it opens no new tab
    (the wait for one times out) but takes the page to [next_url]; leaving
    [next_url] fails with a Playwright error that is not a timeout. *)

Definition next_url : string := "https://x.test/blog/next".

Definition one_way_env : Env string :=
  mkEnv (fun _ href => href) host
        (fun _ w => (Some directory, w))
        (fun us w => (Some (map (fun u => Obj (for_link u relevant_post)) us), w))
        (fun w => w)
        (fun u w => if bool_decide (w = next_url) then (Exc PWError, w)
                    else (Val tt, u))
        (fun w => (Val [], w))
        (fun i w => (Val (if (i =? 0)%nat then 1 else 0), w))
        (fun _ w => (Val "BUTTON", w))
        (fun _ w => (Val true, w))
        (fun _ w => (Val "pointer", w))
        (fun _ _ => (Exc PWTimeout, next_url))
        (fun current_url w => if bool_decide (w = current_url)
                              then (Exc PWTimeout, w) else (Val tt, w))
        (fun u w => (page_of u, w))
        (fun html => html).

(** *** A page with one anchor and one button that opens a new tab *)

Definition tab_env : Env string :=
  mkEnv (fun _ href => href) host
        (fun _ w => (Some directory, w))
        (fun us w => (Some (map (fun u => Obj (for_link u relevant_post)) us), w))
        (fun w => w)
        (fun u _ => (Val tt, u))
        (fun w => (Val [(url_A ++ "#intro")%string], w))
        (fun i w => (Val (if (i =? 0)%nat then 1 else 0), w))
        (fun _ w => (Val "BUTTON", w))
        (fun _ w => (Val true, w))
        (fun _ w => (Val "pointer", w))
        (fun _ w => (Val (url_D ++ "#comments")%string, w))
        (fun _ w => (Exc PWTimeout, w))
        (fun u w => (page_of u, w))
        (fun html => html).

(** *** An oracle that answers the seed with an empty object *)

Definition mute_site : site :=
  mkSite (fun _ => [])
         (fun _ => Some (mkClassification None None None false))
         (fun _ => None) page_of.

(** *** An oracle that does not answer for the seed *)

Definition dead_oracle_site : site :=
  mkSite (fun _ => []) (fun _ => None) (fun _ => None) page_of.

(** *** A link-rich page *)

Definition rich_anchors : list string :=
  [url_A; url_B; url_C; url_D; "https://x.test/e"; "https://x.test/f";
   "https://elsewhere.test/"; "mailto:ada@x.test"].

(** *** A relevant post whose page has no block element *)

Definition empty_post_site : site :=
  mkSite (fun _ => [])
         (fun _ => Some relevant_post)
         (fun _ => None)
         (fun _ => Val (mkPostSoup None (Some "Hello") None [])).

(** *** A seed directory whose page does not load *)

Definition offline_env : Env string :=
  mkEnv (fun _ href => href) host
        (fun u w => (Some directory, w))
        (fun us w => (None, w))
        (fun w => w)
        (fun u w => (Exc PWTimeout, w))
        (fun w => (Val [], w))
        (fun _ w => (Val 0, w))
        (fun _ w => (Val "BUTTON", w))
        (fun _ w => (Val true, w))
        (fun _ w => (Val "pointer", w))
        (fun _ w => (Exc PWTimeout, w))
        (fun _ w => (Exc PWTimeout, w))
        (fun u w => (Exc PWTimeout, w))
        (fun html => html).

End Sites.

(** ** Effects of the Drive reader and of the queue worker

    [core/scraper/gdrive_scraper.py] and [core/worker/main.py] tell
    [RuntimeError] from the other exceptions and raise [ValueError]
    themselves; their computations run over a world and a trace of the
    calls made into the libraries, newest first. *)

Module Effects.

(** [RuntimeError] stands for the class and its subclasses, [Wrapped e]
    for an exception named by the scraper. *)
Inductive error := ValueError | RuntimeError | Wrapped (e : exn).

(** Result of one call into a library. *)
Inductive lib (A : Type) := Returns (a : A) | Throws (e : error).
Arguments Returns {A} a.
Arguments Throws {A} e.

(** Result of a function of the repository. *)
Inductive out (A : Type) := Done (a : A) | Failed (e : error) | Stuck.
Arguments Done {A} a.
Arguments Failed {A} e.
Arguments Stuck {A}.

Record st (W Ev : Type) := mkSt {
  st_world : W;
  st_trace : list Ev
}.
Arguments mkSt {W Ev}.
Arguments st_world {W Ev}.
Arguments st_trace {W Ev}.

Section Monad.
Context {W Ev : Type}.

Definition T (A : Type) : Type := st W Ev -> out A * st W Ev.

Definition ret {A} (a : A) : T A := fun s => (Done a, s).

Definition bind {A B} (m : T A) (k : A -> T B) : T B := fun s =>
  match m s with
  | (Done a, s') => k a s'
  | (Failed e, s') => (Failed e, s')
  | (Stuck, s') => (Stuck, s')
  end.

Definition raise {A} (e : error) : T A := fun s => (Failed e, s).

Definition stuck {A} : T A := fun s => (Stuck, s).

(** [try: m  except Exception as e: h e]. *)
Definition try_catch {A} (m : T A) (h : error -> T A) : T A := fun s =>
  match m s with
  | (Failed e, s') => h e s'
  | r => r
  end.

(** [try: m  finally: f]: an exception of [f] replaces the outcome of
    [m]. *)
Definition try_finally {A} (m : T A) (f : T unit) : T A := fun s =>
  match m s with
  | (Stuck, s') => (Stuck, s')
  | (r, s') =>
      match f s' with
      | (Done _, s'') => (r, s'')
      | (Failed e, s'') => (Failed e, s'')
      | (Stuck, s'') => (Stuck, s'')
      end
  end.

(** A call into a library that may raise. *)
Definition call {A} (ev : Ev) (op : W -> lib A * W) : T A := fun s =>
  let '(r, w') := op (st_world s) in
  let s' := mkSt w' (ev :: st_trace s) in
  match r with
  | Returns a => (Done a, s')
  | Throws e => (Failed e, s')
  end.

(** A call whose trace entry tells whether it returned. *)
Definition call_noting {A} (ev : bool -> Ev) (op : W -> lib A * W) : T A := fun s =>
  let '(r, w') := op (st_world s) in
  match r with
  | Returns a => (Done a, mkSt w' (ev true :: st_trace s))
  | Throws e => (Failed e, mkSt w' (ev false :: st_trace s))
  end.

(** A library function that touches nothing but may raise. *)
Definition pure {A} (r : lib A) : T A := fun s =>
  match r with
  | Returns a => (Done a, s)
  | Throws e => (Failed e, s)
  end.

(** [for x in l: acc = body acc x]. *)
Fixpoint for_each {A B} (body : B -> A -> T B) (l : list A) (acc : B) : T B :=
  match l with
  | [] => ret acc
  | x :: l' => bind (body acc x) (for_each body l')
  end.

(** [m] returns only values satisfying [Q]. *)
Definition post {A} (m : T A) (Q : A -> Prop) : Prop :=
  forall s a, (m s).1 = Done a -> Q a.

(** [m] never runs out of fuel. *)
Definition ends {A} (m : T A) : Prop :=
  forall s, (m s).1 <> Stuck.

(** [m] extends the trace, with events satisfying [P]. *)
Definition adds {A} (P : Ev -> Prop) (m : T A) : Prop :=
  forall s, exists evs,
    st_trace (m s).2 = evs ++ st_trace s /\ Forall P evs.

End Monad.
Arguments T : clear implicits.

Notation "'let*' x ':=' m 'in' k" := (bind m (fun x => k))
  (at level 10, x name, m at level 100, k at level 200).

(** [x or default] for a [str], and for an [Optional[str]]. *)
Definition str_or (x default : string) : string :=
  if bool_decide (x = "") then default else x.

Definition opt_or (x : option string) (default : string) : string :=
  match x with
  | Some v => str_or v default
  | None => default
  end.

(** [a or b] for two [Optional[str]]. *)
Definition opt_or_opt (a b : option string) : option string :=
  match a with
  | Some v => if bool_decide (v = "") then b else Some v
  | None => b
  end.

(** [s.endswith(suffix)]. *)
Definition endswith (s suffix : string) : bool :=
  let n := String.length s in
  let m := String.length suffix in
  (m <=? n)%nat && bool_decide (substring (n - m) m s = suffix).

(** [s.startswith(p)]. *)
Definition startswith (s p : string) : bool := String.prefix p s.

(** [needle in hay] for two [str]. *)
Fixpoint str_in (needle hay : string) : bool :=
  String.prefix needle hay ||
  match hay with
  | EmptyString => false
  | String _ hay' => str_in needle hay'
  end.

(** [s.rstrip("/")]. *)
Fixpoint rstrip_slash (s : string) : string :=
  match s with
  | EmptyString => EmptyString
  | String a s' =>
      match rstrip_slash s' with
      | EmptyString => if bool_decide (a = "/"%char) then EmptyString
                       else String a EmptyString
      | r => String a r
      end
  end.

End Effects.

(** ** The Drive reader ([core/scraper/gdrive_scraper.py]) *)

Module Drive.
Import Effects.

(** [Doc] (dataclass); [bytes] is [None] for a native document exported
    as text. *)
Record Doc := mkDoc {
  path : string;
  mime : string;
  bytes : option string;
  text : string;
  author : option string
}.

(** A row yielded by [list_folder]; the three entries read from the
    listing are taken to be strings. *)
Record row := mkRow {
  r_id : string;
  r_name : string;
  r_mime : string
}.

(** A tuple yielded by [walk]: [(fid, name, mime, path)]. *)
Definition file : Type := string * string * string * string.

Definition f_id (f : file) : string := f.1.1.1.
Definition f_name (f : file) : string := f.1.1.2.
Definition f_mime (f : file) : string := f.1.2.
Definition f_path (f : file) : string := f.2.

(** What the reader asks of [requests], [re], [html], [json], pdfminer,
    PyPDF2 and python-docx. *)
Record Env (W : Type) := mkEnv {
  (* [requests.get(url)], [browser] telling whether the Mozilla
     user agent is sent: [status_code] and [text] *)
  requests_get : bool -> string -> W -> lib (nat * string) * W;
  (* [sess.get(url, stream=True)] on the session of [fetch_binary]:
     the items of [r.cookies] *)
  session_get : string -> W -> lib (list (string * string)) * W;
  (* [r.iter_content(32_768)] run to its end on the last response *)
  iter_content : W -> lib (list string) * W;
  (* [re.search(...)] for the [_DRIVE_ivd] assignment, [group(1)] *)
  find_blob : string -> option string;
  (* [html.unescape], [decode("unicode_escape")], [json.loads(raw)[0]]
     and the reads [r[0]], [r[2]], [r[5]] row by row: the rows read
     before anything is raised, and what is raised *)
  decode_rows : string -> list row * option error;
  (* [str.lower] *)
  lower : string -> string;
  (* [pdfminer.high_level.extract_text] *)
  pdf_text : string -> lib string;
  (* [PdfReader(...).metadata], if any, with [author] and [creator] *)
  pdf_metadata : string -> lib (option (option string * option string));
  (* [Document(...)]: the text of the paragraphs, and
     [core_properties.author] *)
  docx_read : string -> lib (list string * string)
}.
Arguments mkEnv {W}.
Arguments requests_get {W}. Arguments session_get {W}.
Arguments iter_content {W}. Arguments find_blob {W}.
Arguments decode_rows {W}. Arguments lower {W}. Arguments pdf_text {W}.
Arguments pdf_metadata {W}. Arguments docx_read {W}.

(** Every request sent, newest first. *)
Inductive event :=
| EGet (browser : bool) (url : string)
| ESessionGet (url : string)
| EIterContent.

Definition FOLDER_MIME : string := "application/vnd.google-apps.folder".
Definition PDF_MIME : string := "application/pdf".
Definition GDOC_MIME : string := "application/vnd.google-apps.document".

Section Functions.
Context {W : Type}.
Variable E : Env W.

Definition M : Type -> Type := T W event.

(** [list_folder] is a generator: nothing it does can raise before the
    caller iterates, and what it raises ends the iteration.  It is the
    rows it yields and the exception that follows them, if any. *)
Definition list_folder (folder_url : string) : M (list row * option error) :=
  try_catch
    (let* r := call (EGet true folder_url) (requests_get E true folder_url) in
     match find_blob E r.2 with
     | None => ret ([], Some RuntimeError)
     | Some blob => ret (decode_rows E blob)
     end)
    (fun e => ret ([], Some e)).

Definition download_url (fid : string) : string :=
  ("https://drive.google.com/uc?export=download&id=" ++ fid)%string.

(** [next((v for k, v in r.cookies.items()
          if k.startswith("download_warning")), None)]. *)
Definition warning_token (cookies : list (string * string)) : option string :=
  snd <$> List.find (fun kv => startswith kv.1 "download_warning") cookies.

Definition nonempty (s : string) : bool := negb (bool_decide (s = "")).

Definition fetch_binary (fid : string) : M string :=
  let url := download_url fid in
  let* cookies := call (ESessionGet url) (session_get E url) in
  let* _ :=
    match warning_token cookies with
    | Some token =>
        if nonempty token
        then let* _ := call (ESessionGet (url ++ "&confirm=" ++ token)%string)
                            (session_get E (url ++ "&confirm=" ++ token)%string) in
             ret tt
        else ret tt
    | None => ret tt
    end in
  let* chunks := call EIterContent (iter_content E) in
  ret (String.concat "" (filter (fun c => nonempty c = true) chunks)).

Definition export_url (fid : string) : string :=
  ("https://docs.google.com/document/d/" ++ fid ++ "/export?format=txt")%string.

(** [export_gdoc(fid)], as [extract] calls it: [as_pdf] is [False]. *)
Definition export_gdoc (fid : string) : M string :=
  let* resp := call (EGet false (export_url fid))
                   (requests_get E false (export_url fid)) in
  if bool_decide (resp.1 = 200) then ret resp.2 else raise RuntimeError.

Definition child_url (fid : string) : string :=
  ("https://drive.google.com/drive/folders/" ++ fid)%string.

(** [walk], run to its end as [list(walk(...))] does: the tuples it
    yields.  [fuel] bounds the depth of the folder tree. *)
Fixpoint walk (fuel : nat) (folder_url prefix : string) : M (list file) :=
  match fuel with
  | 0 => stuck
  | S fuel' =>
      let* listing := list_folder folder_url in
      let* files :=
        for_each
          (fun (acc : list file) (r : row) =>
             let path := (prefix ++ r_name r)%string in
             if bool_decide (r_mime r = FOLDER_MIME)
             then let* sub := walk fuel' (child_url (r_id r)) (path ++ "/")%string in
                  ret (acc ++ sub)
             else ret (acc ++ [(r_id r, r_name r, r_mime r, path)]))
          listing.1 [] in
      match listing.2 with
      | Some e => raise e
      | None => ret files
      end
  end.

(** [(meta.author or meta.creator) if meta else None], inside its own
    [try]. *)
Definition pdf_author (data : string) : option string :=
  match pdf_metadata E data with
  | Returns (Some meta) => opt_or_opt meta.1 meta.2
  | Returns None => None
  | Throws _ => None
  end.

(** [docx.core_properties.author or None]. *)
Definition docx_author (a : string) : option string :=
  if bool_decide (a = "") then None else Some a.

Definition is_pdf (name mime : string) : bool :=
  bool_decide (mime = PDF_MIME) || endswith (lower E name) ".pdf".

Definition is_docx (name mime : string) : bool :=
  endswith mime "wordprocessingml.document" || endswith (lower E name) ".docx".

Definition is_gdoc (mime : string) : bool := bool_decide (mime = GDOC_MIME).

(** The body of the [try] of [extract]; it does not read [path]. *)
Definition extract_body (fid name mime : string) : M (option Doc) :=
  if is_pdf name mime then
    let* data := fetch_binary fid in
    let* text := pure (pdf_text E data) in
    ret (Some (mkDoc name mime (Some data) text (pdf_author data)))
  else if is_docx name mime then
    let* data := fetch_binary fid in
    let* docx := pure (docx_read E data) in
    ret (Some (mkDoc name mime (Some data)
                     (String.concat (String "010" EmptyString) docx.1)
                     (docx_author docx.2)))
  else if is_gdoc mime then
    try_catch
      (let* txt := export_gdoc fid in
       ret (Some (mkDoc (name ++ ".txt")%string "text/plain" None txt None)))
      (fun e =>
         match e with
         | RuntimeError =>
             let* data := fetch_binary fid in
             let* txt := pure (pdf_text E data) in
             ret (Some (mkDoc (name ++ ".pdf")%string PDF_MIME (Some data) txt None))
         | _ => raise e
         end)
  else ret None.

Definition extract (fid name path mime : string) : M (option Doc) :=
  try_catch (extract_body fid name mime) (fun _ => ret None).

(** What makes [extract] look at a file at all. *)
Definition supported (name mime : string) : bool :=
  is_pdf name mime || is_docx name mime || is_gdoc mime.

(** The body of the loop of [extract_gdrive_folder]; a [Doc] is always
    truthy. *)
Definition extract_into (docs : list Doc) (f : file) : M (list Doc) :=
  let* doc := extract (f_id f) (f_name f) (f_path f) (f_mime f) in
  match doc with
  | Some d => ret (docs ++ [d])
  | None => ret docs
  end.

Definition extract_gdrive_folder (fuel : nat) (folder_url : string)
  : M (list Doc) :=
  let root := rstrip_slash folder_url in
  let* files := walk fuel root "" in
  for_each extract_into files [].

End Functions.

(** *** Reading the trace *)

(** A request for the listing of a folder. *)
Definition is_listing (e : event) : bool :=
  match e with
  | EGet true _ => true
  | _ => false
  end.

(** [r] is a row of the folder: in some state, [list_folder] yields it. *)
Definition lists {W} (E : Env W) (folder_url : string) (r : row) : Prop :=
  exists s rows err s',
    list_folder E folder_url s = (Done (rows, err), s') /\ r ∈ rows.

(** The folders gone through from [folder_url] down to the row [r]:
    each is a row with the folder MIME type of the folder before it, and
    [r] is a row of the last. *)
Fixpoint reaches {W} (E : Env W) (folder_url : string) (dirs : list row)
    (r : row) : Prop :=
  match dirs with
  | [] => lists E folder_url r
  | d :: dirs' =>
      lists E folder_url d /\ r_mime d = FOLDER_MIME /\
      reaches E (child_url (r_id d)) dirs' r
  end.

(** The names of the folders, each followed by ["/"]. *)
Fixpoint slashed (dirs : list row) : string :=
  match dirs with
  | [] => ""
  | d :: dirs' => (r_name d ++ "/" ++ slashed dirs')%string
  end.

(** A tuple [walk] may yield for [folder_url] and [prefix]. *)
Definition under {W} (E : Env W) (folder_url prefix : string) (f : file)
  : Prop :=
  f_mime f <> FOLDER_MIME /\
  exists dirs,
    reaches E folder_url dirs (mkRow (f_id f) (f_name f) (f_mime f)) /\
    f_path f = (prefix ++ slashed dirs ++ f_name f)%string.

(** [d] is what [extract] builds for the file [f]: its [path] is the
    name of the file, with [.txt] or [.pdf] appended for a native
    document. *)
Definition doc_of_file (d : Doc) (f : file) : Prop :=
  (path d = f_name f /\ mime d = f_mime f /\ is_Some (bytes d)) \/
  (path d = (f_name f ++ ".txt")%string /\ mime d = "text/plain" /\ bytes d = None /\
   author d = None /\ f_mime f = GDOC_MIME) \/
  (path d = (f_name f ++ ".pdf")%string /\ mime d = PDF_MIME /\ is_Some (bytes d) /\
   author d = None /\ f_mime f = GDOC_MIME).

End Drive.

(** ** The queue worker ([core/worker/main.py], [core/worker/database.py]) *)

Module Worker.
Import Effects.

(** [JobPayload] (pydantic model). *)
Record JobPayload := mkJobPayload {
  id : string;
  url : string;
  specialInstructions : string
}.

(** A dictionary of [results_to_save]: string keys, string values. *)
Definition result_row : Type := gmap string string.

(** What the worker asks of the libraries, beside what the scraper and
    the Drive reader ask. *)
Record Env (W : Type) := mkEnv {
  (* the libraries as a scraper created with these instructions drives
     them: the prompts carry the instructions *)
  scraper_env : string -> Scraper.Env W;
  drive_env : Drive.Env W;
  (* langchain's splitter, as in [Chunk] *)
  split_text : Z -> Z -> string -> res (list string);
  (* [AiScraper.__init__] after its check: [OpenAI(...)],
     [sync_playwright().start()], [launch], [new_context], [new_page] *)
  setup : W -> lib unit * W;
  (* [AiScraper.close] *)
  context_close : W -> lib unit * W;
  browser_close : W -> lib unit * W;
  pw_stop : W -> lib unit * W;
  (* [json.loads] and [JobPayload.model_validate] *)
  parse_payload : string -> lib JobPayload;
  (* [str(uuid.uuid4())] *)
  uuid4 : W -> string * W;
  (* the session, [add_all] and [commit] of [save_extraction_results] *)
  insert_results : list result_row -> W -> lib unit * W;
  (* the session and the [UPDATE] of [complete_extraction_request] *)
  mark_completed : string -> W -> lib unit * W
}.
Arguments mkEnv {W}.
Arguments scraper_env {W}. Arguments drive_env {W}. Arguments split_text {W}.
Arguments setup {W}. Arguments context_close {W}. Arguments browser_close {W}.
Arguments pw_stop {W}. Arguments parse_payload {W}. Arguments uuid4 {W}.
Arguments insert_results {W}. Arguments mark_completed {W}.

(** What the worker does for one message, newest first; [ok] tells
    whether the call returned. *)
Inductive event :=
| ESetup (ok : bool)
| EScraper (e : Scraper.event)
| EContextClose (ok : bool)
| EBrowserClose (ok : bool)
| EPwStop (ok : bool)
| EDrive (e : Drive.event)
| EUuid
| EInsert (rows : list result_row) (ok : bool)
| ECompleted (extraction_request_id : string) (ok : bool).

Section Functions.
Context {W : Type}.
Variable E : Env W.
(** Bounds for the two [while] loops of the scraper and for the depth of
    the Drive folder tree. *)
Variables probe_fuel crawl_fuel drive_fuel : nat.

Definition M : Type -> Type := T W event.

(** *** [AiScraper], as the worker uses it *)

(** [AiScraper.__init__]. *)
Definition AiScraper_init (start_url special_instructions : string) : M unit :=
  if bool_decide (start_url = "") || bool_decide (special_instructions = "")
  then raise ValueError
  else call_noting ESetup (setup E).

(** [scraper.run()] on the scraper [__init__] has just built. *)
Definition scraper_run (start_url special_instructions : string)
  : M (list KBItem) := fun s =>
  let '(r, s') := Scraper.run (scraper_env E special_instructions) start_url
                    probe_fuel crawl_fuel (Scraper.init (st_world s)) in
  let s'' := mkSt (Scraper.world s')
                  (map EScraper (Scraper.log s') ++ st_trace s) in
  match r with
  | Ok items => (Done items, s'')
  | Raise e => (Failed (Wrapped e), s'')
  | OutOfFuel => (Stuck, s'')
  end.

(** [AiScraper.close], after [__init__] has returned: the three
    attributes are set. *)
Definition close : M unit :=
  let* _ := call_noting EContextClose (context_close E) in
  let* _ := call_noting EBrowserClose (browser_close E) in
  call_noting EPwStop (pw_stop E).

(** *** [run_scraper_and_get_results] *)

(** [scraper] is bound once [__init__] has returned; what [__init__]
    raises is handled by the same [except] as what [run] raises. *)
Definition run_scraper_and_get_results (url instructions : string)
  : M (list KBItem) :=
  let* scraper :=
    try_catch (let* _ := AiScraper_init url instructions in ret true)
              (fun _ => ret false) in
  if scraper
  then try_finally
         (try_catch (scraper_run url instructions) (fun _ => ret []))
         close
  else ret [].

(** *** [ExtractionWorker] *)

Definition process_message (payload : JobPayload) : M (list KBItem) :=
  run_scraper_and_get_results (url payload) (specialInstructions payload).

(** The Drive reader, run on the world of the worker. *)
Definition extract_gdrive_folder (folder_url : string)
  : M (list Drive.Doc) := fun s =>
  let '(r, s') := Drive.extract_gdrive_folder (drive_env E) drive_fuel
                    folder_url (mkSt (st_world s) []) in
  (r, mkSt (st_world s') (map EDrive (st_trace s') ++ st_trace s)).

Definition kb_item_of_doc (payload : JobPayload) (doc : Drive.Doc) : KBItem :=
  mkKBItem (Drive.path doc) (Drive.text doc)
           (str_or (Drive.mime doc) "book")
           (url payload)
           (Some (opt_or (Drive.author doc) "Unknown")).

Definition of_res {A} (r : res A) : lib A :=
  match r with
  | Val a => Returns a
  | Exc e => Throws (Wrapped e)
  end.

(** [chunk_kb_item(item)], with its default sizes. *)
Definition chunk (item : KBItem) : lib (list KBItem) :=
  of_res (Chunk.chunk_kb_item (split_text E) item
            Chunk.DEFAULT_CHUNK_SIZE Chunk.DEFAULT_CHUNK_OVERLAP).

Definition process_gdrive_message (payload : JobPayload) : M (list KBItem) :=
  let* docs := extract_gdrive_folder (url payload) in
  match docs with
  | [] => ret []
  | _ =>
      let kb_items := map (kb_item_of_doc payload) docs in
      for_each (fun chunked_kb_items item =>
                  let* chunks := pure (chunk item) in
                  ret (chunked_kb_items ++ chunks))
               kb_items []
  end.

(** [DatabaseService.save_extraction_results]. *)
Definition save_extraction_results (results : list result_row) : M unit :=
  match results with
  | [] => ret tt
  | _ => call_noting (EInsert results) (insert_results E results)
  end.

(** [DatabaseService.complete_extraction_request]. *)
Definition complete_extraction_request (extraction_request_id : string)
  : M unit :=
  call_noting (ECompleted extraction_request_id)
              (mark_completed E extraction_request_id).

(** One dictionary of [results_to_save]. *)
Definition result_of (row_id extraction_request_id : string) (item : KBItem)
  : result_row :=
  <["author" := opt_or (author item) ""]>
  (<["sourceUrl" := source_url item]>
  (<["contentType" := content_type item]>
  (<["content" := content item]>
  (<["title" := title item]>
  (<["extractionRequestId" := extraction_request_id]>
  (<["id" := row_id]> ∅)))))).

Definition results_to_save (extraction_request_id : string)
    (kb_items : list KBItem) : M (list result_row) :=
  for_each (fun rows item =>
              let* row_id := call EUuid (fun w => let '(v, w') := uuid4 E w in
                                                  (Returns v, w')) in
              ret (rows ++ [result_of row_id extraction_request_id item]))
           kb_items [].

(** The two branches on ["drive.google.com" in payload.url]. *)
Definition dispatch (payload : JobPayload) : M (list KBItem) :=
  if str_in "drive.google.com" (url payload)
  then process_gdrive_message payload
  else process_message payload.

(** What [_process_message] does with the items of a job, from
    [if not kb_items] on. *)
Definition store (extraction_request_id : string) (kb_items : list KBItem)
  : M unit :=
  match kb_items with
  | [] => complete_extraction_request extraction_request_id
  | _ =>
      let* rows := results_to_save extraction_request_id kb_items in
      let* _ := save_extraction_results rows in
      complete_extraction_request extraction_request_id
  end.

(** The body of [async with message.process()] in [_process_message],
    for a message with this body. *)
Definition _process_message (body : string) : M unit :=
  try_catch
    (let* payload := pure (parse_payload E body) in
     let extraction_request_id := id payload in
     let* kb_items := dispatch payload in
     store extraction_request_id kb_items)
    (fun _ => ret tt).

End Functions.

(** *** Reading the trace *)

(** Lists handed to the database for insertion, newest first. *)
Definition inserted (l : list event) : list (list result_row) :=
  omap (fun e => match e with EInsert rows _ => Some rows | _ => None end) l.

(** Requests the database was asked to mark completed, newest first. *)
Definition completed (l : list event) : list string :=
  omap (fun e => match e with ECompleted i _ => Some i | _ => None end) l.

Definition is_close (e : event) : bool :=
  match e with
  | EContextClose _ | EBrowserClose _ | EPwStop _ => true
  | _ => false
  end.

(** What the guarded call of [run] gives [run_scraper_and_get_results]:
    the items [run] returned, or the empty list when it raised. *)
Definition guarded (r : outcome (list KBItem)) : out (list KBItem) :=
  match r with
  | Ok items => Done items
  | Raise _ => Done []
  | OutOfFuel => Stuck
  end.

(** What a shutdown leaves in the trace, newest first: the calls on the
    context, the browser and Playwright, in that order, each made when
    the one before has returned. *)
Definition shutdown (closing : list event) : Prop :=
  closing = [EContextClose false] \/
  closing = [EBrowserClose false; EContextClose true] \/
  exists ok, closing = [EPwStop ok; EBrowserClose true; EContextClose true].

(** Events of the web scraper: its construction, its run, its end. *)
Definition is_web (e : event) : bool :=
  match e with
  | ESetup _ | EScraper _ | EContextClose _ | EBrowserClose _ | EPwStop _ => true
  | _ => false
  end.

Definition is_drive (e : event) : bool :=
  match e with
  | EDrive _ => true
  | _ => false
  end.

(** Calls into the database. *)
Definition is_db (e : event) : bool :=
  match e with
  | EInsert _ _ | ECompleted _ _ => true
  | _ => false
  end.

(** A call of the shutdown or of the database that raised. *)
Definition broke (e : event) : bool :=
  match e with
  | EContextClose false | EBrowserClose false | EPwStop false
  | EInsert _ false | ECompleted _ false => true
  | _ => false
  end.

(** What [process_gdrive_message] promises of an item. *)
Definition attributed (payload : JobPayload) (item : KBItem) : Prop :=
  source_url item = url payload /\
  content_type item <> "" /\
  exists a, author item = Some a /\ a <> "".

(** [row] is the dictionary built for [item] in a job [i]. *)
Definition row_for (i : string) (row : result_row) (item : KBItem) : Prop :=
  row !! "extractionRequestId" = Some i /\
  row !! "title" = Some (title item) /\
  row !! "content" = Some (content item) /\
  row !! "contentType" = Some (content_type item) /\
  row !! "sourceUrl" = Some (source_url item) /\
  row !! "author" = Some (opt_or (author item) "").


(** What storing the items of the job [i] leaves in the trace: the
    completion alone when there is no item; otherwise the identifiers
    drawn, one insertion of a row per item, and the completion if the
    insertion returned. *)
Definition stored (i : string) (items : list KBItem) (evs : list event) : Prop :=
  (items = [] /\ exists ok, evs = [ECompleted i ok]) \/
  (exists rows drawn,
     rows <> [] /\ Forall2 (row_for i) rows items /\
     Forall (fun e => e = EUuid) drawn /\
     (evs = EInsert rows false :: drawn \/
      exists ok, evs = ECompleted i ok :: EInsert rows true :: drawn)).

End Worker.

(** ** Small concrete jobs

    A Drive folder given by tables and a worker whose libraries always
    answer, to run the functions on. *)

Module Jobs.
Import Effects.

Definition root : string := "https://drive.google.com/drive/folders/root".

(** A folder with a PDF, a subfolder holding a PDF of the same name and
    a picture, and a native document. *)
Definition shelf_rows (blob : string) : list Drive.row * option error :=
  if bool_decide (blob = root) then
    ([Drive.mkRow "f1" "a.pdf" Drive.PDF_MIME;
      Drive.mkRow "d1" "sub" Drive.FOLDER_MIME;
      Drive.mkRow "g1" "Notes" Drive.GDOC_MIME], None)
  else if bool_decide (blob = Drive.child_url "d1") then
    ([Drive.mkRow "f2" "a.pdf" Drive.PDF_MIME;
      Drive.mkRow "x1" "pic.png" "image/png"], None)
  else ([], None).

(** Every page is its own URL; [find_blob] tells which pages carry a
    listing. *)
Definition drive_of (find_blob : string -> option string) : Drive.Env string :=
  Drive.mkEnv (fun _ u w => (Returns (200, u), w))
              (fun _ w => (Returns [], w))
              (fun w => (Returns ["%PDF"; ""; "-1.7"], w))
              find_blob
              shelf_rows
              (fun s => s)
              (fun data => Returns ("text of " ++ data)%string)
              (fun _ => Returns (Some (None, Some "")))
              (fun _ => Throws (Wrapped OtherException)).

Definition shelf : Drive.Env string := drive_of Some.

(** The same folder, with a subfolder that is not shared. *)
Definition locked_shelf : Drive.Env string :=
  drive_of (fun html => if bool_decide (html = root) then Some html else None).

Definition files_of_shelf : list Drive.file :=
  [("f1", "a.pdf", Drive.PDF_MIME, "a.pdf");
   ("f2", "a.pdf", Drive.PDF_MIME, "sub/a.pdf");
   ("x1", "pic.png", "image/png", "sub/pic.png");
   ("g1", "Notes", Drive.GDOC_MIME, "Notes")].

(** A worker whose browser and database always answer; the body of a
    message is the URL of the job. *)
Definition office (web : Sites.site) (drive : Drive.Env string)
  : Worker.Env string :=
  Worker.mkEnv (fun _ => Sites.static_env web) drive
               (fun _ _ s => Val [s])
               (fun _ => (Returns tt, "about:blank"))
               (fun w => (Returns tt, w))
               (fun w => (Returns tt, w))
               (fun w => (Returns tt, w))
               (fun body => Returns (Worker.mkJobPayload "job-1" body "posts on testing"))
               (fun w => ("0000", w))
               (fun _ w => (Returns tt, w))
               (fun _ w => (Returns tt, w)).

Definition idle : st string Worker.event := mkSt "" [].

Definition drive_job : Worker.JobPayload :=
  Worker.mkJobPayload "job-1" (root ++ "/") "posts on testing".

(** The items of the Drive job on [shelf]. *)
Definition shelf_items : list KBItem :=
  [mkKBItem "a.pdf" "text of %PDF-1.7" "application/pdf" (root ++ "/") (Some "Unknown");
   mkKBItem "a.pdf" "text of %PDF-1.7" "application/pdf" (root ++ "/") (Some "Unknown");
   mkKBItem "Notes.txt" (Drive.export_url "g1") "text/plain" (root ++ "/") (Some "Unknown")].

End Jobs.

(** * Properties *)

(* [set_solver] clears hypotheses by name; the warning it triggers when
   one is already gone is noise. *)
#[local] Set Warnings "-clear-no-such-hyp".

(** ** Serialisation and chunking *)

(** C9. Whatever author the extractor resolved, [to_dict] yields a
    dictionary whose ["author"] is the empty string and which also has a
    ["user_id"] equal to the empty string; the output does not depend on
    the item's author, and its keys are the five fields and ["user_id"]. *)
Theorem to_dict_blanks_author (k : KBItem) :
  to_dict k !! "author" = Some (PyStr "") /\
  to_dict k !! "user_id" = Some (PyStr "") /\
  (forall a, to_dict (with_author a k) = to_dict k) /\
  dom (to_dict k) =
    ({["title"; "content"; "content_type"; "source_url"; "author"; "user_id"]}
       : gset string).
Proof.
  unfold to_dict, asdict. split; [|split; [|split]].
  - rewrite lookup_insert_ne by done. apply lookup_insert_eq.
  - apply lookup_insert_eq.
  - intros a. simpl. by rewrite !insert_insert_eq.
  - rewrite !dom_insert_L, dom_empty_L. set_solver.
Qed.

Example to_dict_title :
  to_dict (mkKBItem "T" "body" "blog" "https://x.test/p" (Some "Ada")) !! "title"
  = Some (PyStr "T").
Proof. reflexivity. Qed.

Module ChunkFacts.
Import Chunk.

Example part_title_first : part_title "Guide" 0 = "Guide (Part 1)".
Proof. reflexivity. Qed.

Example part_title_tenth : part_title "Guide" 9 = "Guide (Part 10)".
Proof. reflexivity. Qed.

(** [len] counts characters, not bytes: "ete" with two acute accents. *)
Example len_counts_characters :
  len (bytes [195; 169; 116; 195; 169]) = 3 /\
  String.length (bytes [195; 169; 116; 195; 169]) = 5.
Proof. by vm_compute. Qed.

(** C10. The code breaks what its own docstring promises for content
    longer than the chunk size ("this list will contain multiple
    KBItems"): an item whose content is 2001 blanks, which the splitter
    strips to nothing, gives no item at all. *)
Theorem blank_content_gives_no_item :
  len (content blank_item) = 2001 /\
  chunk_kb_item blank_dropping_splitter blank_item
    DEFAULT_CHUNK_SIZE DEFAULT_CHUNK_OVERLAP = Val [] /\
  ~ returns_multiple blank_dropping_splitter blank_item.
Proof.
  split; [by vm_compute|]. split; [by vm_compute|].
  intros H. destruct H as (items & Heq & Hlen).
  - vm_compute. reflexivity.
  - vm_compute in Heq. inversion Heq; subst. simpl in Hlen. lia.
Qed.

(** X20. Content of at most [chunk_size] characters gives the
    one-element list of the item itself; for longer content, when the
    splitter returns its chunks, there is one item per chunk, in order,
    the i-th (from 1) titled with the original title followed by
    [" (Part i)"], holding that chunk, with the original content type,
    source URL and author. *)
Theorem chunk_kb_item_spec
    (split_text : Z -> Z -> string -> res (list string))
    (k : KBItem) (chunk_size chunk_overlap : Z) :
  ((Z.of_nat (len (content k)) <= chunk_size)%Z ->
     chunk_kb_item split_text k chunk_size chunk_overlap = Val [k]) /\
  ((chunk_size < Z.of_nat (len (content k)))%Z ->
     forall chunks, split_text chunk_size chunk_overlap (content k) = Val chunks ->
     exists items,
       chunk_kb_item split_text k chunk_size chunk_overlap = Val items /\
       length items = length chunks /\
       forall i chunk, chunks !! i = Some chunk ->
         items !! i =
           Some (mkKBItem (title k ++ " (Part " ++ str_of_nat (i + 1) ++ ")")
                          chunk (content_type k) (source_url k) (author k))).
Proof.
  unfold chunk_kb_item. split.
  - intros Hle. apply Z.leb_le in Hle. by rewrite Hle.
  - intros Hlt chunks Hsplit. apply Z.leb_gt in Hlt. rewrite Hlt, Hsplit.
    eexists. split; [reflexivity|]. split.
    + apply length_imap.
    + intros i chunk Hi. rewrite list_lookup_imap, Hi. reflexivity.
Qed.

Lemma chunk_kb_item_spec_witness :
  chunk_kb_item halves (mkKBItem "T" "abc" "blog" "u" None) 5 1
    = Val [mkKBItem "T" "abc" "blog" "u" None] /\
  exists items, chunk_kb_item halves six 5 1 = Val items /\
    length items = 2 /\
    items !! 1 = Some (mkKBItem "T (Part 2)" "def" "blog" "https://x.test/p" None).
Proof.
  split.
  - apply (chunk_kb_item_spec halves (mkKBItem "T" "abc" "blog" "u" None) 5 1).
    simpl. lia.
  - destruct (proj2 (chunk_kb_item_spec halves six 5 1)) with (chunks := ["abc"; "def"])
      as (items & Heq & Hlen & Hith).
    + simpl. lia.
    + reflexivity.
    + exists items. split; [exact Heq|]. split; [exact Hlen|].
      apply (Hith 1 "def"). reflexivity.
Defined.

End ChunkFacts.

(** ** Link discovery, seed failure, extraction *)

Module ScraperFacts.
Import Scraper Sites.

(** *** Rules for [triple] and [neutral] *)

Section Rules.
Context {W : Type}.

Lemma triple_ret {A} (P : state W -> Prop) (a : A) Q X :
  (forall s, P s -> Q a s) -> triple P (ret a) Q X.
Proof. intros H s Hs. simpl. auto. Qed.

Lemma triple_bind {A B} (P : state W -> Prop) (m : M W A) (k : A -> M W B)
    Q R X :
  triple P m Q X -> (forall a, triple (Q a) (k a) R X) ->
  triple P (bind m k) R X.
Proof.
  intros Hm Hk s Hs. specialize (Hm s Hs). unfold bind.
  destruct (m s) as [[a| |] s']; auto. by apply Hk.
Qed.

Lemma triple_conseq {A} (P P' : state W -> Prop) (m : M W A)
    (Q Q' : A -> state W -> Prop) (X X' : state W -> Prop) :
  triple P' m Q' X' ->
  (forall s, P s -> P' s) -> (forall a s, Q' a s -> Q a s) ->
  (forall s, X' s -> X s) ->
  triple P m Q X.
Proof.
  intros Hm HP HQ HX s Hs. specialize (Hm s (HP s Hs)).
  destruct (m s) as [[a| |] s']; auto.
Qed.

Lemma triple_for_each {A B} (J : list A -> B -> state W -> Prop)
    (body : B -> A -> M W B) X :
  (forall x rest acc,
      triple (J (x :: rest) acc) (body acc x) (fun acc' => J rest acc') X) ->
  forall l acc, triple (J l acc) (for_each body l acc) (J []) X.
Proof.
  intros Hbody l. induction l as [|x l IH]; intros acc.
  - by apply triple_ret.
  - simpl. eapply triple_bind; [apply Hbody|]. intros acc'. apply IH.
Qed.

Lemma triple_neutral {A V} (view : state W -> V) (P : state W -> Prop)
    (m : M W A) :
  neutral view m ->
  (forall s s', view s' = view s -> P s -> P s') ->
  triple P m (fun _ => P) P.
Proof.
  intros Hn HP s Hs. specialize (Hn s).
  destruct (m s) as [[a| |] s']; simpl in Hn; eauto.
Qed.

Section Neutral.
Context {V : Type} (view : state W -> V).

Lemma neutral_ret {A} (a : A) : neutral view (ret a).
Proof. by intros s. Qed.

Lemma neutral_raise {A} e : neutral view (@raise W A e).
Proof. by intros s. Qed.

Lemma neutral_out_of_fuel {A} : neutral view (@out_of_fuel W A).
Proof. by intros s. Qed.

Lemma neutral_read {A} (f : W -> A) : neutral view (read f).
Proof. by intros s. Qed.

Lemma neutral_gets {A} (f : state W -> A) : neutral view (gets f).
Proof. by intros s. Qed.

Lemma neutral_bind {A B} (m : M W A) (k : A -> M W B) :
  neutral view m -> (forall a, neutral view (k a)) ->
  neutral view (bind m k).
Proof.
  intros Hm Hk s. specialize (Hm s). unfold bind.
  destruct (m s) as [[a| |] s']; simpl in *; auto.
  by rewrite Hk.
Qed.

Lemma neutral_try_catch {A} (m : M W A) (h : exn -> M W A) :
  neutral view m -> (forall e, neutral view (h e)) ->
  neutral view (try_catch m h).
Proof.
  intros Hm Hh s. specialize (Hm s). unfold try_catch.
  destruct (m s) as [[a|e|] s']; simpl in *; auto.
  by rewrite Hh.
Qed.

Lemma neutral_for_each {A B} (body : B -> A -> M W B) l acc :
  (forall acc x, neutral view (body acc x)) ->
  neutral view (for_each body l acc).
Proof.
  intros Hbody. revert acc. induction l as [|x l IH]; intros acc; simpl.
  - apply neutral_ret.
  - apply neutral_bind; auto.
Qed.

Lemma neutral_call {A} ev (op : W -> res A * W) :
  browser_blind view -> is_browser ev = true -> neutral view (call ev op).
Proof.
  intros Hblind Hev s. unfold call.
  destruct (op (world s)) as [[a|e] w']; simpl;
    apply (Hblind s w' [ev]); by constructor.
Qed.

End Neutral.
End Rules.

Create HintDb neutral.
#[export] Hint Resolve neutral_ret neutral_raise neutral_out_of_fuel
  neutral_read neutral_gets neutral_bind neutral_try_catch neutral_for_each
  neutral_call : neutral.

Section Facts.
Context {W : Type}.
Variable E : Env W.
Variable start_url : string.

(** *** Link discovery only talks to the page *)

Section Discovery.
Context {V : Type} (view : state W -> V).
Hypothesis blind : browser_blind view.

Ltac quiet := repeat (first
  [ progress intros
  | apply neutral_bind | apply neutral_try_catch | apply neutral_ret
  | apply neutral_raise | apply neutral_read | apply neutral_out_of_fuel
  | apply neutral_call; [exact blind | reflexivity]
  | match goal with
    | |- neutral _ (match ?x with _ => _ end) => destruct x
    | |- neutral _ (if ?b then _ else _) => destruct b
    end ]).

Lemma neutral_fetch_page url : neutral view (_fetch_page E url).
Proof. unfold _fetch_page. quiet. Qed.

Lemma neutral_check_element i : neutral view (check_element E i).
Proof. unfold check_element. quiet. Qed.

Lemma neutral_restore_base base_url : neutral view (restore_base E base_url).
Proof. unfold restore_base. quiet. Qed.

Lemma neutral_probe_element i base_url links :
  neutral view (probe_element E start_url i base_url links).
Proof. unfold probe_element, probe_navigation. quiet. Qed.

Lemma neutral_probe_loop fuel i base_url links :
  neutral view (probe_loop E start_url fuel i base_url links).
Proof.
  revert i links. induction fuel as [|fuel IH]; intros i links; simpl.
  - apply neutral_out_of_fuel.
  - apply neutral_bind; [apply neutral_restore_base|]. intros _.
    apply neutral_bind; [apply neutral_check_element|]. intros [].
    + apply neutral_ret.
    + apply IH.
    + apply neutral_bind; [apply neutral_probe_element|]. intros. apply IH.
Qed.

Lemma neutral_extract_links fuel soup base_url :
  neutral view (_extract_links E start_url fuel soup base_url).
Proof.
  unfold _extract_links. case_bool_decide.
  - apply neutral_ret.
  - apply neutral_bind; [apply neutral_probe_loop|]. intros. apply neutral_ret.
Qed.

End Discovery.

(** *** Reading the log *)

Lemma visits_app l1 l2 : visits (l1 ++ l2) = visits l1 ++ visits l2.
Proof. unfold visits. apply omap_app. Qed.

Lemma asked_app l1 l2 : asked (l1 ++ l2) = asked l1 ++ asked l2.
Proof. unfold asked. by rewrite map_app, concat_app. Qed.

Lemma extracted_app l1 l2 : extracted (l1 ++ l2) = extracted l1 ++ extracted l2.
Proof. unfold extracted. apply omap_app. Qed.

Lemma browser_silent evs :
  Forall (fun e => is_browser e = true) evs ->
  visits evs = [] /\ asked evs = [] /\ extracted evs = [].
Proof.
  induction 1 as [|e evs He _ (IH1 & IH2 & IH3)]; [done|].
  destruct e; try discriminate; simpl; auto.
Qed.

Lemma crawl_view_blind : browser_blind (@crawl_view W).
Proof.
  intros s w' evs Hevs. destruct (browser_silent evs Hevs) as (Hv & Ha & _).
  unfold crawl_view. simpl. by rewrite visits_app, asked_app, Hv, Ha.
Qed.

(** *** Slices of a duplicate-free list *)

Lemma elem_of_slice {A} (l : list A) i j x :
  x ∈ slice l i j <-> exists k, i <= k < j /\ l !! k = Some x.
Proof.
  unfold slice. rewrite elem_of_take. split.
  - intros (k & Hk & Hlt). rewrite lookup_drop in Hk.
    exists (i + k). split; [lia|done].
  - intros (k & Hk & Hx). exists (k - i). rewrite lookup_drop.
    replace (i + (k - i)) with k by lia. split; [done|lia].
Qed.

Lemma slice_NoDup {A} (l : list A) i j : NoDup l -> NoDup (slice l i j).
Proof.
  intros Hl. unfold slice.
  eapply sublist_NoDup; [|apply sublist_take].
  eapply sublist_NoDup; [done|apply sublist_drop].
Qed.

Lemma slice_disjoint {A} (l : list A) k k' x :
  NoDup l -> k <> k' ->
  x ∈ slice l (k * 10) (k * 10 + 10) -> x ∈ slice l (k' * 10) (k' * 10 + 10) ->
  False.
Proof.
  intros Hl Hne (j & Hj & Hx)%elem_of_slice (j' & Hj' & Hx')%elem_of_slice.
  assert (j = j') by (eapply NoDup_lookup; eauto). lia.
Qed.

Lemma range_step_multiples n i : i ∈ range_step n 10 -> exists k, i = k * 10.
Proof.
  unfold range_step. intros (k & -> & _)%list_elem_of_fmap. by exists k.
Qed.

Lemma range_step_NoDup n : NoDup (range_step n 10).
Proof.
  unfold range_step. apply NoDup_fmap_2; [|apply NoDup_seq].
  intros a b Hab. lia.
Qed.

(** *** Deduplication: the visited set and the oracle calls *)

Lemma triple_neutral_gen {A V} (view : state W -> V) (P : state W -> Prop)
    (m : M W A) (Q : A -> state W -> Prop) (X : state W -> Prop) :
  neutral view m ->
  (forall a s s', view s' = view s -> P s -> Q a s') ->
  (forall s s', view s' = view s -> P s -> X s') ->
  triple P m Q X.
Proof.
  intros Hn HQ HX s Hs. specialize (Hn s).
  destruct (m s) as [[a| |] s']; simpl in Hn; eauto.
Qed.

Lemma neutral_call_crawl_view {A} ev (op : W -> res A * W) :
  visits [ev] = [] -> asked_by ev = [] -> neutral crawl_view (call ev op).
Proof.
  intros Hv Ha s.
  assert (visits (ev :: log s) = visits (log s)) as Hv'.
  { change (ev :: log s) with ([ev] ++ log s). by rewrite visits_app, Hv. }
  assert (asked (ev :: log s) = asked (log s)) as Ha'.
  { unfold asked. cbn [map concat]. by rewrite Ha. }
  unfold call.
  destruct (op (world s)) as [[a|e] w']; cbn [snd]; unfold crawl_view;
    cbn [log visited_urls]; by rewrite Hv', Ha'.
Qed.

Lemma neutral_record_link u c : neutral crawl_view (@record_link W u c).
Proof. by intros s. Qed.

Lemma neutral_emit_enqueue u : neutral crawl_view (@emit W (EEnqueue u)).
Proof. by intros s. Qed.

Lemma neutral_apply_classification dirs c :
  neutral crawl_view (@apply_classification W dirs c).
Proof.
  unfold apply_classification. destruct c as [c|]; [|auto with neutral].
  destruct (c_link c) as [u|]; [|auto with neutral].
  case_bool_decide; [auto with neutral|].
  apply neutral_bind; [apply neutral_record_link|]. intros _.
  case_bool_decide; [|auto with neutral].
  apply neutral_bind; [apply neutral_emit_enqueue|]. auto with neutral.
Qed.

Lemma neutral_extract_post url : neutral crawl_view (_extract_post E url).
Proof.
  unfold _extract_post. apply neutral_try_catch.
  - apply neutral_bind; [by apply neutral_call_crawl_view|].
    intros. apply neutral_ret.
  - intros []; auto with neutral.
Qed.

Lemma neutral_extract_into items url : neutral crawl_view (extract_into E items url).
Proof.
  unfold extract_into. apply neutral_bind; [apply neutral_extract_post|].
  intros []; apply neutral_ret.
Qed.

Lemma triple_note_link (uncl : gset string) link :
  triple (fun s : state W => visit_ok (crawl_view s) /\ pending (.∈ uncl) (crawl_view s))
         (note_link uncl link)
         (fun uncl' s =>
            visit_ok (crawl_view s) /\ pending (.∈ uncl') (crawl_view s))
         (fun s => visit_ok (crawl_view s)).
Proof.
  intros s [Hok Hpend]. unfold note_link, bind, gets, mark_visited, ret. simpl.
  case_bool_decide as Hseen; simpl; [done|].
  unfold crawl_view, visit_ok, pending in *. simpl in *.
  destruct Hok as (Hv & Ha & Hsub & Hset).
  assert (link ∉ asked (log s)) by (intros ?; apply Hseen; auto).
  split; [split; [|split; [|split]]|].
  - apply NoDup_cons. split; [|done]. by rewrite Hset.
  - done.
  - intros u Hu. apply elem_of_union_r. auto.
  - intros u. rewrite elem_of_cons, elem_of_union, elem_of_singleton, Hset. done.
  - intros u [->%elem_of_singleton|Hu]%elem_of_union.
    + split; [set_solver|done].
    + destruct (Hpend u Hu). split; [set_solver|done].
Qed.

Lemma triple_explore_directory probe_fuel (uncl : gset string) url :
  triple (fun s => visit_ok (crawl_view s) /\ pending (.∈ uncl) (crawl_view s))
         (explore_directory E start_url probe_fuel uncl url)
         (fun uncl' s =>
            visit_ok (crawl_view s) /\ pending (.∈ uncl') (crawl_view s))
         (fun s => visit_ok (crawl_view s)).
Proof.
  unfold explore_directory.
  eapply triple_bind with
    (Q := fun _ s => visit_ok (crawl_view s) /\ pending (.∈ uncl) (crawl_view s)).
  { eapply triple_neutral_gen;
      [apply neutral_fetch_page, crawl_view_blind| |];
      intros; rewrite H; tauto. }
  intros [soup|]; [|by apply triple_ret].
  eapply triple_bind with
    (Q := fun _ s => visit_ok (crawl_view s) /\ pending (.∈ uncl) (crawl_view s)).
  { eapply triple_neutral_gen;
      [apply neutral_extract_links, crawl_view_blind| |];
      intros; rewrite H; tauto. }
  intros links.
  apply (triple_for_each
    (fun _ (acc : gset string) s =>
       visit_ok (crawl_view s) /\ pending (.∈ acc) (crawl_view s))).
  intros x rest acc. apply triple_note_link.
Qed.

Lemma triple_classify_batch ll dirs i rest :
  NoDup ll -> NoDup (i :: rest) ->
  (forall j, j ∈ i :: rest -> exists k, j = k * 10) ->
  triple (fun s => visit_ok (crawl_view s) /\
            forall j, j ∈ i :: rest ->
              pending (.∈ slice ll j (j + 10)) (crawl_view s))
         (classify_batch E ll dirs i)
         (fun _ s => visit_ok (crawl_view s) /\
            forall j, j ∈ rest ->
              pending (.∈ slice ll j (j + 10)) (crawl_view s))
         (fun s => visit_ok (crawl_view s)).
Proof.
  intros Hll Hnd Hmult. unfold classify_batch.
  eapply triple_bind with
    (Q := fun _ s => visit_ok (crawl_view s) /\
            forall j, j ∈ rest ->
              pending (.∈ slice ll j (j + 10)) (crawl_view s)).
  - intros s [Hok Hpend]. unfold _batch_call_openai_classifier.
    destruct (slice ll i (i + 10)) as [|b batch] eqn:Hb.
    { simpl. split; [done|]. intros j Hj. apply Hpend. by right. }
    destruct (openai_batch E (b :: batch) (world s)) as [r w'] eqn:Hr.
    simpl. pose proof (Hpend i (list_elem_of_here _ _)) as Hi.
    rewrite Hb in Hi.
    assert (NoDup (b :: batch)) as Hbnd by (rewrite <- Hb; by apply slice_NoDup).
    unfold crawl_view, visit_ok, pending in *. simpl in *.
    destruct Hok as (Hv & Ha & Hsub & Hset).
    change (b :: batch ++ asked (log s)) with ((b :: batch) ++ asked (log s)).
    split; [split; [|split; [|split]]|].
    + done.
    + apply NoDup_app. split; [done|]. split; [|done].
      intros u Hu. by apply Hi.
    + intros u [Hu|Hu]%elem_of_app; [by apply Hi|by apply Hsub].
    + done.
    + intros j Hj u Hu. destruct (Hpend j (list_elem_of_further _ _ _ Hj) u Hu)
        as [Hseen Hnew]. split; [done|].
      intros [Hin|Hin]%elem_of_app; [|done].
      rewrite <- Hb in Hin.
      destruct (Hmult i (list_elem_of_here _ _)) as [k ->].
      destruct (Hmult j (list_elem_of_further _ _ _ Hj)) as [k' ->].
      apply (slice_disjoint ll k k' u); try done.
      intros ->. apply NoDup_cons in Hnd. tauto.
  - intros [cls|]; [|by apply triple_ret].
    eapply triple_neutral_gen;
      [apply neutral_for_each; intros; apply neutral_apply_classification| |];
      intros; rewrite H; tauto.
Qed.

Lemma triple_crawl_loop probe_fuel fuel dirs :
  triple (fun s => visit_ok (crawl_view s))
         (crawl_loop E start_url probe_fuel fuel dirs)
         (fun _ s => visit_ok (crawl_view s))
         (fun s => visit_ok (crawl_view s)).
Proof.
  revert dirs. induction fuel as [|fuel IH]; intros [|d dirs];
    try (by apply triple_ret); [by intros s Hs|].
  cbn [crawl_loop].
  eapply triple_bind with
    (Q := fun uncl s => visit_ok (crawl_view s) /\ pending (.∈ uncl) (crawl_view s)).
  { eapply triple_conseq;
      [apply (triple_for_each
         (fun _ (acc : gset string) s =>
            visit_ok (crawl_view s) /\ pending (.∈ acc) (crawl_view s)));
       intros; apply triple_explore_directory| | |]; simpl; auto.
    intros s Hs. split; [done|]. unfold pending, crawl_view.
    intros u Hu. by apply not_elem_of_empty in Hu. }
  intros uncl. case_bool_decide as Hempty.
  { eapply triple_conseq; [apply (IH [])| | |]; simpl; tauto. }
  eapply triple_bind; [|intros dirs'; apply IH].
  eapply triple_conseq;
    [apply (triple_for_each
       (fun rest (_ : list string) s =>
          (NoDup rest /\ forall j, j ∈ rest -> exists k, j = k * 10) /\
          visit_ok (crawl_view s) /\
          forall j, j ∈ rest ->
            pending (.∈ slice (elements uncl) j (j + 10)) (crawl_view s)))| | |].
  - intros i rest acc s ((Hnd & Hmult) & HJ).
    pose proof (triple_classify_batch (elements uncl) acc i rest
                  (NoDup_elements uncl) Hnd Hmult s HJ) as Hstep.
    destruct (classify_batch E (elements uncl) acc i s) as [[a| |] s'];
      [|exact Hstep|exact Hstep].
    split; [|exact Hstep]. split.
    + apply NoDup_cons in Hnd. tauto.
    + intros j Hj. apply Hmult. by right.
  - intros s [Hok Hpend]. split; [|split; [done|]].
    + split; [apply range_step_NoDup|apply range_step_multiples].
    + intros j _. unfold pending, crawl_view in *. intros u Hu.
      apply Hpend. apply elem_of_elements.
      apply elem_of_slice in Hu as (k & _ & Hk).
      eapply list_elem_of_lookup_2; eauto.
  - simpl. tauto.
  - simpl. tauto.
Qed.

Lemma run_crawl_dedup probe_fuel fuel w :
  let s' := snd (_run_crawl E start_url probe_fuel fuel (init w)) in
  NoDup (visits (log s')) /\ NoDup (asked (log s')).
Proof.
  unfold _run_crawl, bind, _call_openai_classifier, init. simpl.
  destruct (openai_one E start_url w) as [[c|] w']; simpl;
    [|split; [constructor|apply NoDup_singleton]].
  destruct (dict_truthy c); simpl;
    [|split; [constructor|apply NoDup_singleton]].
  case_bool_decide; simpl; [split; apply NoDup_singleton|].
  match goal with |- context [crawl_loop _ _ _ _ _ ?s] =>
    pose proof (triple_crawl_loop probe_fuel fuel [start_url] s) as Hloop;
    destruct (crawl_loop E start_url probe_fuel fuel [start_url] s)
      as [[a| |] s'] end;
    simpl;
    (assert (visit_ok (crawl_view s')) as (Hv & Ha & _);
     [apply Hloop|done]);
    unfold crawl_view, visit_ok; simpl;
    (split; [apply NoDup_singleton|]);
    (split; [apply NoDup_singleton|]);
    (split; intros u; rewrite ?list_elem_of_singleton; set_solver).
Qed.

Lemma run_keeps_crawl_view probe_fuel fuel w :
  crawl_view (snd (run E start_url probe_fuel fuel (init w)))
  = crawl_view (snd (_run_crawl E start_url probe_fuel fuel (init w))).
Proof.
  unfold run, bind.
  destruct (_run_crawl E start_url probe_fuel fuel (init w)) as [[[]| |] s1];
    cbn [fst snd]; try done.
  unfold gets.
  assert (neutral crawl_view
            (for_each (extract_into E) (post_links (crawled_links s1)) []))
    as Hn by (apply neutral_for_each; intros; apply neutral_extract_into).
  apply Hn.
Qed.

(** C1. In every run, whatever its outcome, no URL is added twice to the
    visited set and no URL is submitted twice to the oracle, counting
    the single call for the seed and every batch. *)
Theorem each_url_visited_and_asked_once (probe_fuel fuel : nat) (w : W) :
  let s' := snd (run E start_url probe_fuel fuel (init w)) in
  NoDup (visits (log s')) /\ NoDup (asked (log s')).
Proof.
  pose proof (run_crawl_dedup probe_fuel fuel w) as Hcrawl.
  pose proof (run_keeps_crawl_view probe_fuel fuel w) as Hview.
  unfold crawl_view in Hview. injection Hview as Hv Ha _.
  cbv zeta in *. by rewrite Hv, Ha.
Qed.

(** *** The records and the extraction phase *)

Lemma dict_set_keys {V} k (v : V) d k' :
  k' ∈ map fst (dict_set k v d) <-> k' = k \/ k' ∈ map fst d.
Proof.
  induction d as [|[k0 v0] d IH]; simpl.
  - rewrite list_elem_of_singleton. split; [auto|]. intros [|Hk]; [done|].
    by apply elem_of_nil in Hk.
  - case_bool_decide as Hk; simpl; rewrite !elem_of_cons.
    + subst. tauto.
    + rewrite IH. tauto.
Qed.

Lemma dict_set_NoDup {V} k (v : V) d :
  NoDup (map fst d) -> NoDup (map fst (dict_set k v d)).
Proof.
  induction d as [|[k0 v0] d IH]; simpl; intros Hd.
  - apply NoDup_singleton.
  - apply NoDup_cons in Hd as [Hk0 Hd].
    case_bool_decide as Hk; simpl; apply NoDup_cons.
    + by subst.
    + split; [|auto]. rewrite dict_set_keys. intros [->|]; done.
Qed.

Lemma dict_set_wf u c d : link c = u -> dict_wf d -> dict_wf (dict_set u c d).
Proof.
  intros Hc [Hnd Hall]. split; [by apply dict_set_NoDup|].
  clear Hnd. induction Hall as [|[k0 v0] d Hk0 Hd IH]; simpl.
  - by repeat constructor.
  - case_bool_decide; constructor; simpl; auto.
Qed.

Lemma dict_get_unique {V} k (v : V) d :
  NoDup (map fst d) -> (k, v) ∈ d -> dict_get k d = Some v.
Proof.
  induction d as [|[k0 v0] d IH]; simpl; intros Hd Hin.
  - by apply elem_of_nil in Hin.
  - apply NoDup_cons in Hd as [Hk0 Hd].
    apply elem_of_cons in Hin as [[= -> ->]|Hin].
    + by rewrite bool_decide_eq_true_2.
    + case_bool_decide as Hk; [|auto]. subst. exfalso. apply Hk0.
      change k with (fst (k, v)). apply list_elem_of_In, in_map.
      by apply list_elem_of_In.
Qed.

Lemma post_links_spec d u :
  dict_wf d -> u ∈ post_links d ->
  exists c, dict_get u d = Some c /\ link_type c = "post" /\
            matches_what_the_user_wants c = true.
Proof.
  intros [Hnd Hall] Hu. unfold post_links, dict_values in Hu.
  apply list_elem_of_In, in_map_iff in Hu as (c & <- & Hc).
  apply list_elem_of_In, list_elem_of_filter in Hc as [Hrel Hc].
  apply list_elem_of_In, in_map_iff in Hc as ([k c'] & Hk & Hin).
  simpl in Hk. subst c'. apply list_elem_of_In in Hin.
  rewrite Forall_forall in Hall. pose proof (Hall _ Hin) as Hlink.
  simpl in Hlink. exists c. rewrite Hlink. split; [by apply dict_get_unique|].
  unfold is_relevant_post in Hrel. apply andb_true_iff in Hrel as [Hp Hm].
  by apply bool_decide_eq_true in Hp.
Qed.

Lemma extract_view_blind : browser_blind (@extract_view W).
Proof.
  intros s w' evs Hevs. destruct (browser_silent evs Hevs) as (_ & _ & Hx).
  unfold extract_view. simpl. by rewrite extracted_app, Hx.
Qed.

Lemma neutral_note_link_extract uncl link :
  neutral extract_view (@note_link W uncl link).
Proof.
  intros s. unfold note_link, bind, gets, mark_visited, ret. simpl.
  by case_bool_decide.
Qed.

Lemma neutral_explore_directory_extract probe_fuel uncl url :
  neutral extract_view (explore_directory E start_url probe_fuel uncl url).
Proof.
  unfold explore_directory.
  apply neutral_bind; [apply neutral_fetch_page, extract_view_blind|].
  intros [soup|]; [|apply neutral_ret].
  apply neutral_bind; [apply neutral_extract_links, extract_view_blind|].
  intros links. apply neutral_for_each. intros. apply neutral_note_link_extract.
Qed.

Lemma neutral_batch_call_extract batch :
  neutral extract_view (_batch_call_openai_classifier E batch).
Proof.
  intros s. unfold _batch_call_openai_classifier.
  destruct batch; [done|]. by destruct (openai_batch E _ _).
Qed.

Lemma triple_apply_classification_extract dirs c :
  triple (fun s : state W => dict_wf (crawled_links s) /\ extracted (log s) = [])
         (apply_classification dirs c)
         (fun _ s => dict_wf (crawled_links s) /\ extracted (log s) = [])
         (fun s => dict_wf (crawled_links s) /\ extracted (log s) = []).
Proof.
  intros s [Hwf Hx]. unfold apply_classification.
  destruct c as [c|]; [|done].
  destruct (c_link c) as [u|]; [|done].
  case_bool_decide; [done|].
  unfold bind, record_link, emit, ret. simpl.
  case_bool_decide; simpl; (split; [by apply dict_set_wf|done]).
Qed.

Lemma triple_classify_batch_extract ll dirs i :
  triple (fun s : state W => dict_wf (crawled_links s) /\ extracted (log s) = [])
         (classify_batch E ll dirs i)
         (fun _ s => dict_wf (crawled_links s) /\ extracted (log s) = [])
         (fun s => dict_wf (crawled_links s) /\ extracted (log s) = []).
Proof.
  unfold classify_batch. eapply triple_bind.
  - apply (triple_neutral extract_view); [apply neutral_batch_call_extract|].
    unfold extract_view. intros s s' [= Hd Hx]. by rewrite Hd, Hx.
  - intros [cls|]; [|by apply triple_ret].
    apply (triple_for_each
      (fun _ _ s => dict_wf (crawled_links s) /\ extracted (log s) = [])).
    intros. apply triple_apply_classification_extract.
Qed.

Lemma triple_crawl_loop_extract probe_fuel fuel dirs :
  triple (fun s : state W => dict_wf (crawled_links s) /\ extracted (log s) = [])
         (crawl_loop E start_url probe_fuel fuel dirs)
         (fun _ s => dict_wf (crawled_links s) /\ extracted (log s) = [])
         (fun s => dict_wf (crawled_links s) /\ extracted (log s) = []).
Proof.
  revert dirs. induction fuel as [|fuel IH]; intros [|d dirs];
    try (by apply triple_ret); [by intros s Hs|].
  cbn [crawl_loop]. eapply triple_bind.
  { apply (triple_neutral extract_view).
    - apply neutral_for_each. intros. apply neutral_explore_directory_extract.
    - unfold extract_view. intros s s' [= Hd Hx]. by rewrite Hd, Hx. }
  intros uncl. case_bool_decide; [apply IH|].
  eapply triple_bind; [|intros dirs'; apply IH].
  apply (triple_for_each
    (fun _ _ s => dict_wf (crawled_links s) /\ extracted (log s) = [])).
  intros. apply triple_classify_batch_extract.
Qed.

Lemma run_crawl_records probe_fuel fuel w :
  let s' := snd (_run_crawl E start_url probe_fuel fuel (init w)) in
  dict_wf (crawled_links s') /\ extracted (log s') = [].
Proof.
  assert (dict_wf []) as Hnil by (split; constructor).
  unfold _run_crawl, bind, _call_openai_classifier, init. simpl.
  destruct (openai_one E start_url w) as [[c|] w']; simpl; [|done].
  destruct (dict_truthy c); simpl; [|done].
  assert (dict_wf [(start_url, crawled_link_of start_url c)]) as Hone.
  { split; [apply NoDup_singleton|by repeat constructor]. }
  case_bool_decide; simpl; [done|].
  match goal with |- context [crawl_loop _ _ _ _ _ ?s] =>
    pose proof (triple_crawl_loop_extract probe_fuel fuel [start_url] s) as Hloop;
    destruct (crawl_loop E start_url probe_fuel fuel [start_url] s)
      as [[a| |] s'] end;
    simpl; by apply Hloop.
Qed.

Lemma extract_post_state url (s : state W) :
  snd (_extract_post E url s)
  = mkState (snd (open_post E url (world s))) (EExtract url :: log s)
            (crawled_links s) (visited_urls s).
Proof.
  unfold _extract_post, try_catch, bind, call, ret, raise.
  destruct (open_post E url (world s)) as [[ps|[]] w']; reflexivity.
Qed.

Lemma extract_post_value url (s : state W) :
  fst (_extract_post E url s)
  = match fst (open_post E url (world s)) with
    | Val ps => Ok (Some (kb_item_of E url ps))
    | Exc PWTimeout | Exc PWError => Ok None
    | Exc OtherException => Raise OtherException
    end.
Proof.
  unfold _extract_post, try_catch, bind, call, ret, raise.
  destruct (open_post E url (world s)) as [[ps|[]] w']; reflexivity.
Qed.

Lemma extract_into_eq items url (s : state W) :
  extract_into E items url s
  = (match fst (open_post E url (world s)) with
     | Val ps => Ok (items ++ [kb_item_of E url ps])
     | Exc PWTimeout | Exc PWError => Ok items
     | Exc OtherException => Raise OtherException
     end,
     mkState (snd (open_post E url (world s))) (EExtract url :: log s)
             (crawled_links s) (visited_urls s)).
Proof.
  unfold extract_into, _extract_post, try_catch, bind, call, ret, raise.
  destruct (open_post E url (world s)) as [[ps|[]] w']; reflexivity.
Qed.

Lemma extract_phase l : forall items (s : state W),
  let r := for_each (extract_into E) l items s in
  crawled_links (snd r) = crawled_links s /\
  (forall u, u ∈ extracted (log (snd r)) -> u ∈ l \/ u ∈ extracted (log s)) /\
  (forall items', fst r = Ok items' ->
     forall item, item ∈ items' ->
       item ∈ items \/
       exists url ps, url ∈ l /\ item = kb_item_of E url ps).
Proof.
  induction l as [|x l IH]; intros items s; cbv zeta.
  - simpl. split; [done|]. split; [auto|]. intros items' [= <-]. auto.
  - cbn [for_each]. unfold bind. rewrite extract_into_eq.
    set (s1 := mkState _ _ _ _).
    assert (forall u, u ∈ extracted (log s1) ->
              u ∈ x :: l \/ u ∈ extracted (log s)) as Hhere.
    { intros u [->|?]%elem_of_cons; [left; by left|by right]. }
    destruct (fst (open_post E x (world s))) as [ps|[]];
      try (split; [done|]; split; [exact Hhere|done]).
    + destruct (IH (items ++ [kb_item_of E x ps]) s1) as (Hd & Hx & Hit).
      split; [done|]. split.
      * intros u Hu. destruct (Hx u Hu) as [?|Hu1]; [left; by right|auto].
      * intros items' Hr item Hin.
        destruct (Hit items' Hr item Hin)
          as [[? | ->%list_elem_of_singleton]%elem_of_app|(url & ps' & ? & ?)].
        -- by left.
        -- right. exists x, ps. split; [by left|done].
        -- right. exists url, ps'. split; [by right|done].
    + destruct (IH items s1) as (Hd & Hx & Hit).
      split; [done|]. split.
      * intros u Hu. destruct (Hx u Hu) as [?|Hu1]; [left; by right|auto].
      * intros items' Hr item Hin.
        destruct (Hit items' Hr item Hin) as [?|(url & ps' & ? & ?)];
          [by left|]. right. exists url, ps'. split; [by right|done].
    + destruct (IH items s1) as (Hd & Hx & Hit).
      split; [done|]. split.
      * intros u Hu. destruct (Hx u Hu) as [?|Hu1]; [left; by right|auto].
      * intros items' Hr item Hin.
        destruct (Hit items' Hr item Hin) as [?|(url & ps' & ? & ?)];
          [by left|]. right. exists url, ps'. split; [by right|done].
Qed.

(** The extraction phase returns what [emitted] describes. *)
Lemma extract_phase_emitted l : forall items0 (s : state W) items s',
  for_each (extract_into E) l items0 s = (Ok items, s') ->
  exists new, items = items0 ++ new /\
              emitted E l (world s) new (world s') /\
              crawled_links s' = crawled_links s.
Proof.
  induction l as [|x l IH]; intros items0 s items s' Hrun.
  - simpl in Hrun. injection Hrun as <- <-. exists []. rewrite app_nil_r.
    split; [done|]. split; [constructor|done].
  - cbn [for_each] in Hrun. unfold bind in Hrun. rewrite extract_into_eq in Hrun.
    destruct (open_post E x (world s)) as [r w1] eqn:Hopen. cbn [fst snd] in Hrun.
    destruct r as [ps|[]]; try discriminate.
    + apply IH in Hrun as (new & -> & Hem & Hd).
      exists (kb_item_of E x ps :: new). rewrite <- app_assoc.
      split; [done|]. split; [|done]. by eapply emitted_doc.
    + apply IH in Hrun as (new & -> & Hem & Hd).
      exists new. split; [done|]. split; [|done]. by eapply emitted_skip.
    + apply IH in Hrun as (new & -> & Hem & Hd).
      exists new. split; [done|]. split; [|done]. by eapply emitted_skip.
Qed.


Lemma run_emitted probe_fuel fuel w items s' :
  run E start_url probe_fuel fuel (init w) = (Ok items, s') ->
  let crawl := snd (_run_crawl E start_url probe_fuel fuel (init w)) in
  crawled_links s' = crawled_links crawl /\
  emitted E (post_links (crawled_links s')) (world crawl) items (world s').
Proof.
  unfold run, bind, gets. intros Hrun. cbv zeta.
  destruct (_run_crawl E start_url probe_fuel fuel (init w)) as [[[]| |] s1];
    try discriminate.
  cbn [fst snd] in *.
  apply extract_phase_emitted in Hrun as (new & -> & Hem & Hd).
  rewrite Hd. by split.
Qed.

Lemma post_links_elem d u :
  dict_wf d ->
  u ∈ post_links d <->
  exists c, dict_get u d = Some c /\ is_relevant_post c = true.
Proof.
  intros Hwf. split.
  - intros Hu. destruct (post_links_spec d u Hwf Hu) as (c & Hc & Hp & Hm).
    exists c. split; [done|]. unfold is_relevant_post.
    by rewrite Hp, Hm, bool_decide_eq_true_2.
  - intros (c & Hc & Hrel). destruct Hwf as [Hnd Hall].
    unfold post_links, dict_values.
    assert ((u, c) ∈ d) as Hin.
    { clear Hnd Hall. induction d as [|[k v] d IH]; [done|]. simpl in Hc.
      case_bool_decide; [simplify_eq; by left|right; auto]. }
    rewrite Forall_forall in Hall. pose proof (Hall _ Hin) as Hlink.
    simpl in Hlink. rewrite <- Hlink.
    apply list_elem_of_fmap. exists c. split; [done|].
    apply list_elem_of_filter. split; [done|].
    apply list_elem_of_fmap. by exists (u, c).
Qed.

Lemma run_records_wf probe_fuel fuel w :
  dict_wf (crawled_links (snd (run E start_url probe_fuel fuel (init w)))).
Proof.
  pose proof (run_crawl_records probe_fuel fuel w) as [Hwf _].
  unfold run, bind in *. simpl in *.
  destruct (_run_crawl E start_url probe_fuel fuel (init w)) as [[[]| |] s1];
    simpl in *; try done.
  destruct (extract_phase (post_links (crawled_links s1)) [] s1) as (Hd & _).
  unfold gets. simpl. by rewrite Hd.
Qed.


(** *** The dictionary holds the last record written *)










(** *** Where records come from *)


















(** *** Termination on a finite site *)

Lemma steady_ret {A} (a : A) : steady (@ret W A a).
Proof. intros s. by exists a, s. Qed.

Lemma steady_bind {A B} (m : M W A) (k : A -> M W B) :
  steady m -> (forall a, steady (k a)) -> steady (bind m k).
Proof.
  intros Hm Hk s. destruct (Hm s) as (a & s1 & Hms & Hv1).
  destruct (Hk a s1) as (b & s2 & Hks & Hv2).
  exists b, s2. unfold bind. rewrite Hms, Hks. split; [done|congruence].
Qed.

Lemma steady_for_each {A B} (body : B -> A -> M W B) l acc :
  (forall acc x, steady (body acc x)) -> steady (for_each body l acc).
Proof.
  intros Hbody. revert acc. induction l as [|x l IH]; intros acc; simpl.
  - apply steady_ret.
  - apply steady_bind; auto.
Qed.

Lemma steady_for_each_in {A B} (body : B -> A -> M W B) l acc :
  (forall acc x, x ∈ l -> steady (body acc x)) -> steady (for_each body l acc).
Proof.
  revert acc. induction l as [|x l IH]; intros acc Hbody; simpl.
  - apply steady_ret.
  - apply steady_bind; [apply Hbody; by left|].
    intros b. apply IH. intros acc' y Hy. apply Hbody. by right.
Qed.

Lemma steady_apply_classification dirs c :
  steady (@apply_classification W dirs (Obj c)).
Proof.
  intros s. unfold apply_classification.
  destruct (c_link c) as [u|]; [|by eexists _, _].
  case_bool_decide; [by eexists _, _|].
  unfold bind, record_link, emit, ret. simpl.
  case_bool_decide; by eexists _, _.
Qed.

Lemma steady_apply_all cls dirs :
  Malformed ∉ cls -> steady (for_each (@apply_classification W) cls dirs).
Proof.
  intros Hobj. apply steady_for_each_in. intros acc [c|] Hin; [|done].
  apply steady_apply_classification.
Qed.

Lemma steady_classify_batch ll dirs i :
  answers_wellformed E -> steady (classify_batch E ll dirs i).
Proof.
  intros Hobj s. unfold classify_batch, bind, _batch_call_openai_classifier.
  destruct (slice ll i (i + 10)) as [|b batch]; [by eexists _, _|].
  destruct (openai_batch E (b :: batch) (world s)) as [[cls|] w'] eqn:Hcall;
    [|by eexists _, _].
  set (s1 := mkState _ _ _ _).
  destruct (steady_apply_all cls dirs (Hobj _ _ _ _ Hcall) s1) as (d & s2 & -> & Hv).
  by exists d, s2.
Qed.










(** *** Applying the answer of a batch *)

Lemma apply_classification_written dirs c (s : state W) :
  exists d s', apply_classification dirs (Obj c) s = (Ok d, s') /\
    written (log s') = records_of [c] ++ written (log s).
Proof.
  unfold apply_classification, records_of. simpl.
  destruct (c_link c) as [u|]; [|by eexists _, _].
  case_bool_decide; [by eexists _, _|].
  unfold bind, record_link, emit, ret. simpl.
  case_bool_decide; by eexists _, _.
Qed.

Lemma apply_all_written cls : forall dirs (s : state W),
  written (log (snd (for_each apply_classification (map Obj cls) dirs s)))
  = reverse (records_of cls) ++ written (log s).
Proof.
  induction cls as [|c cls IH]; intros dirs s; [done|].
  cbn [map for_each]. unfold bind.
  destruct (apply_classification_written dirs c s) as (d & s1 & -> & Hw).
  rewrite IH, Hw.
  change (c :: cls) with ([c] ++ cls). unfold records_of at 3.
  rewrite omap_app. fold (records_of [c]). fold (records_of cls).
  rewrite reverse_app, <- app_assoc. f_equal. f_equal.
  unfold records_of. simpl. destruct (c_link c); [|done]. by case_bool_decide.
Qed.

Lemma records_positional batch : forall cls,
  map c_link cls = map Some batch -> "" ∉ batch ->
  map fst (records_of cls) = batch /\
  forall k u c, batch !! k = Some u -> cls !! k = Some c ->
    records_of cls !! k = Some (u, crawled_link_of u c).
Proof.
  induction batch as [|b batch IH]; intros [|c cls]; simpl; try discriminate.
  - intros _ _. split; [done|]. intros k u c Hk. by rewrite lookup_nil in Hk.
  - intros [= Hc Hrest] [Hb Hn]%not_elem_of_cons.
    destruct (IH cls Hrest Hn) as [Hfst Hlook].
    unfold records_of. simpl. rewrite Hc.
    rewrite bool_decide_eq_false_2 by congruence.
    fold (records_of cls). simpl. split; [by rewrite Hfst|].
    intros [|k] u c'; simpl.
    + by intros [= <-] [= <-].
    + apply Hlook.
Qed.

(** C2, amended. The answer of a batch is applied in the order returned,
    each entry being recorded under the URL of its own [link] field
    (entries without one are skipped): the records written for the batch
    are exactly those entries, oldest first.  Nothing matches them to
    the submitted batch by position.  When the answer does list the
    submitted URLs in their order, the i-th record written is the
    classification of the i-th submitted URL and the recorded URLs are
    those of the batch. *)
Theorem batch_results_applied_by_link ll dirs i (s : state W) cls w' :
  slice ll i (i + 10) <> [] ->
  openai_batch E (slice ll i (i + 10)) (world s) = (Some (map Obj cls), w') ->
  written (log (snd (classify_batch E ll dirs i s)))
    = reverse (records_of cls) ++ written (log s) /\
  (map c_link cls = map Some (slice ll i (i + 10)) ->
   "" ∉ slice ll i (i + 10) ->
   map fst (records_of cls) = slice ll i (i + 10) /\
   forall k u c, slice ll i (i + 10) !! k = Some u -> cls !! k = Some c ->
     records_of cls !! k = Some (u, crawled_link_of u c)).
Proof.
  intros Hne Hcall. split; [|apply records_positional].
  unfold classify_batch, bind, _batch_call_openai_classifier.
  destruct (slice ll i (i + 10)) as [|b batch]; [done|].
  rewrite Hcall. by rewrite apply_all_written.
Qed.

(** A click that fails otherwise than by a timeout is skipped. *)
Lemma click_error_is_skipped i base_url links (s : state W) e w' :
  click_expect_page E i (world s) = (Exc e, w') -> e <> PWTimeout ->
  fst (probe_element E start_url i base_url links s) = Ok links.
Proof.
  intros Hclick He. unfold probe_element, bind, read, try_catch, call, ret.
  simpl. rewrite Hclick. by destruct e.
Qed.

Lemma elem_of_tier1 soup base_url x :
  x ∈ tier1 E start_url soup base_url ->
  exists href, href ∈ soup /\ x = strip_fragment (urljoin E base_url href) /\
               netloc E x = base_domain E start_url.
Proof.
  unfold tier1.
  assert (forall acc, x ∈ foldl (tier1_step E start_url base_url) acc soup ->
            x ∈ acc \/
            exists href, href ∈ soup /\
              x = strip_fragment (urljoin E base_url href) /\
              netloc E x = base_domain E start_url) as Hgen.
  { induction soup as [|h soup IH]; intros acc; simpl; [auto|].
    intros [Hacc|(href & Hin & Hx)]%IH.
    - unfold tier1_step in Hacc.
      destruct (bool_decide _ && _) eqn:Hkeep; [|by left].
      apply elem_of_union in Hacc as [->%elem_of_singleton|]; [|by left].
      right. exists h. split; [by left|]. split; [done|].
      apply andb_true_iff in Hkeep as [Hdom _].
      by apply bool_decide_eq_true in Hdom.
    - right. exists href. split; [by right|done]. }
  intros [Hempty|Hx]%Hgen; [|done]. by apply not_elem_of_empty in Hempty.
Qed.


(** C3, amended. When [run] returns, its result is what the extraction
    phase emits for the URLs recorded as relevant posts, in record
    order, from the world the crawl ended in: one document for every
    such URL whose page could be opened, built from the page opened for
    that very URL, whatever its body, the empty body included, and
    nothing for a URL whose page raised one of Playwright's errors.  The
    body of a document is the stripped markdown of the block elements
    collected on its page, its source the URL. *)
Theorem extracted_documents_are_emitted_as_is probe_fuel fuel w items s' :
  run E start_url probe_fuel fuel (init w) = (Ok items, s') ->
  let crawl := snd (_run_crawl E start_url probe_fuel fuel (init w)) in
  emitted E (post_links (crawled_links s')) (world crawl) items (world s') /\
  crawled_links s' = crawled_links crawl /\
  (forall url, url ∈ post_links (crawled_links s') <->
     exists c, dict_get url (crawled_links s') = Some c /\
               is_relevant_post c = true) /\
  (forall url ps,
     source_url (kb_item_of E url ps) = url /\
     content (kb_item_of E url ps)
     = strip (md_handle E (join_lines (ps_parts ps)))).
Proof.
  intros Hrun crawl.
  destruct (run_emitted _ _ _ _ _ Hrun) as [Hd Hem].
  split; [exact Hem|]. split; [exact Hd|]. split; [|done].
  intros url. apply post_links_elem.
  pose proof (run_records_wf probe_fuel fuel w) as Hwf. by rewrite Hrun in Hwf.
Qed.

(** C8. When the anchor scan finds more than 5 distinct same-domain
    URLs, [_extract_links] returns exactly that set at once: no call is
    made on the page, the state is the one it was called in.  So a call
    that did touch the page had 5 links or fewer from the scan. *)
Theorem tier1_rich_skips_tier2 (fuel : nat) (soup : list string)
    (base_url : string) (s : state W) :
  (5 < size (tier1 E start_url soup base_url) ->
     _extract_links E start_url fuel soup base_url s
     = (Ok (elements (tier1 E start_url soup base_url)), s)) /\
  (snd (_extract_links E start_url fuel soup base_url s) <> s ->
     size (tier1 E start_url soup base_url) <= 5).
Proof.
  unfold _extract_links. split.
  - intros Hrich. rewrite bool_decide_eq_true_2 by done. reflexivity.
  - intros Hmoved. case_bool_decide as Hsz; [|lia].
    exfalso. apply Hmoved. reflexivity.
Qed.

(** C6. When the classification of the seed fails, [run] returns the
    empty list after that single oracle call: nothing is fetched,
    no batch is classified, nothing is extracted or recorded. *)
Theorem seed_failure_is_fatal (probe_fuel fuel : nat) (w w' : W) :
  openai_one E start_url w = (None, w') ->
  run E start_url probe_fuel fuel (init w)
  = (Ok [], mkState w' [EClassifyOne start_url None] [] ∅).
Proof.
  intros Hfail. unfold run, _run_crawl, bind, _call_openai_classifier, init.
  simpl. rewrite Hfail. reflexivity.
Qed.

End Facts.

(** *** The string and list helpers on small inputs *)

Example strip_both_ends : strip ("  a b " ++ String "010"%char "") = "a b".
Proof. reflexivity. Qed.

Example strip_blank : strip "   " = "".
Proof. reflexivity. Qed.

(** A no-break space (U+00A0) and an ideographic space (U+3000) are
    white space for [str.strip]; a byte of theirs inside another
    character is not. *)
Example strip_unicode_space :
  strip (bytes [194; 160; 97; 32; 98; 227; 128; 128; 194; 160]) = "a b" /\
  strip (bytes [195; 160; 32]) = bytes [195; 160].
Proof. by vm_compute. Qed.

Example strip_fragment_anchor :
  strip_fragment "https://x.test/about#team" = "https://x.test/about".
Proof. reflexivity. Qed.

Example host_of_seed : host seed = "x.test".
Proof. reflexivity. Qed.

Example range_step_23 : range_step 23 10 = [0; 10; 20].
Proof. reflexivity. Qed.

Example range_step_20 : range_step 20 10 = [0; 10].
Proof. reflexivity. Qed.

Example slice_last_batch :
  slice [0; 1; 2; 3; 4; 5; 6; 7; 8; 9; 10; 11] 10 20 = [10; 11].
Proof. reflexivity. Qed.

Example dict_set_keeps_position :
  dict_set "a" 3 [("a", 1); ("b", 2)] = [("a", 3); ("b", 2)] /\
  dict_set "c" 3 [("a", 1); ("b", 2)] = [("a", 1); ("b", 2); ("c", 3)].
Proof. split; reflexivity. Qed.

Example tier1_filters_rich_page :
  size (tier1 (static_env scenario_site) seed rich_anchors seed) = 6.
Proof. vm_compute. reflexivity. Qed.

(** *** The scenario of the specification, run *)

Example scenario_documents :
  fst (run (static_env scenario_site) seed 3 5 (init "about:blank"))
  = Ok [kb_item_of (static_env scenario_site) url_A
          (mkPostSoup (Some "Ada") (Some ("Post " ++ url_A)%string) None
                      [("<p>" ++ url_A ++ "</p>")%string]);
        kb_item_of (static_env scenario_site) url_D
          (mkPostSoup (Some "Ada") (Some ("Post " ++ url_D)%string) None
                      [("<p>" ++ url_D ++ "</p>")%string])].
Proof. vm_compute. reflexivity. Qed.

(** C3, as stated, fails: a relevant post whose page has no block
    element is extracted with an empty body, and [run] returns it. *)
Lemma empty_body_is_emitted :
  ~ all_bodies_nonempty
      (fst (run (static_env empty_post_site) seed 1 1 (init "about:blank"))).
Proof.
  vm_compute. intros H. inversion H as [|item items Hbody _]; subst.
  by apply Hbody.
Qed.

Lemma extracted_documents_are_emitted_as_is_witness :
  let E := static_env empty_post_site in
  let r := run E seed 1 1 (init "about:blank") in
  emitted E (post_links (crawled_links (snd r)))
          (world (snd (_run_crawl E seed 1 1 (init "about:blank"))))
          [mkKBItem "Hello" "" "blog" seed None] (world (snd r)) /\
  seed ∈ post_links (crawled_links (snd r)).
Proof.
  intros E r.
  destruct (extracted_documents_are_emitted_as_is E seed 1 1 "about:blank"
              [mkKBItem "Hello" "" "blog" seed None] (snd r))
    as (Hem & _ & Hposts & _).
  - vm_compute. reflexivity.
  - split; [exact Hem|]. apply Hposts. exists (crawled_link_of seed relevant_post).
    split; reflexivity.
Defined.

(** *** Static sites *)



Lemma wellformed_static (st : site) : answers_wellformed (static_env st).
Proof.
  intros us w cls w' Hcall Hin. simpl in Hcall.
  destruct (classify_many st us) as [l|]; [|discriminate].
  injection Hcall as <- _. by apply list_elem_of_fmap in Hin as (c & ? & _).
Qed.


(** C2, as stated, fails: an oracle that answers with a trailing slash
    added to each URL gets its answer recorded under a URL that was not
    in the submitted batch. *)
Lemma answer_recorded_outside_batch :
  ~ records_within_batch (static_env slash_site) [url_A] 0 (init "about:blank").
Proof.
  intros H.
  destruct (H "https://x.test/blog/a/"
              (mkCrawledLink "https://x.test/blog/a/" "post" true)) as [Hin|Hin].
  - vm_compute. apply list_elem_of_here.
  - vm_compute in Hin. by apply elem_of_nil in Hin.
  - vm_compute in Hin. apply list_elem_of_singleton in Hin. discriminate.
Qed.

Lemma batch_results_applied_by_link_witness :
  written (log (snd (classify_batch (static_env scenario_site)
                       [url_C; url_A; url_B] [] 0 (init "about:blank"))))
  = [(url_B, mkCrawledLink url_B "directory" true);
     (url_A, mkCrawledLink url_A "post" true);
     (url_C, mkCrawledLink url_C "post" false)] /\
  map fst (records_of (map (fun u => for_link u (scenario_class u))
                           [url_C; url_A; url_B]))
  = [url_C; url_A; url_B].
Proof.
  destruct (batch_results_applied_by_link (static_env scenario_site)
              [url_C; url_A; url_B] [] 0 (init "about:blank")
              (map (fun u => for_link u (scenario_class u)) [url_C; url_A; url_B])
              "about:blank") as [Hwritten Hpos].
  - vm_compute. discriminate.
  - reflexivity.
  - split; [exact Hwritten|]. apply Hpos.
    + reflexivity.
    + vm_compute. intros Hin.
      repeat (apply elem_of_cons in Hin as [Hin|Hin]; [discriminate|]).
      by apply elem_of_nil in Hin.
Defined.



Lemma seed_failure_is_fatal_witness :
  run (static_env dead_oracle_site) seed 1 1 (init "about:blank")
  = (Ok [], mkState "about:blank" [EClassifyOne seed None] [] ∅).
Proof.
  apply (seed_failure_is_fatal (static_env dead_oracle_site) seed 1 1
           "about:blank" "about:blank").
  reflexivity.
Defined.




Lemma tier1_rich_skips_tier2_witness :
  _extract_links (static_env scenario_site) seed 0 rich_anchors seed (init seed)
  = (Ok (elements (tier1 (static_env scenario_site) seed rich_anchors seed)),
     init seed) /\
  size (tier1 (static_env scenario_site) seed (scenario_anchors seed) seed) <= 5.
Proof.
  split.
  - apply (proj1 (tier1_rich_skips_tier2 (static_env scenario_site) seed 0
                    rich_anchors seed (init seed))).
    vm_compute. lia.
  - apply (proj2 (tier1_rich_skips_tier2 (static_env scenario_site) seed 1
                    (scenario_anchors seed) seed (init seed))).
    vm_compute. intros Heq. discriminate Heq.
Defined.

(** C4 fails on the code. The page has one button; clicking it opens
    no new tab but navigates the page, and the [goto] back to the origin
    raises a Playwright error that is not a timeout.  That [goto] sits in
    the [except PWTimeout] handler, whose inner [try] only catches
    timeouts: the error leaves [_extract_links] and aborts [run]. *)
Theorem probe_navigation_error_escapes :
  fst (_extract_links one_way_env seed 2 [] seed (init seed)) = Raise PWError /\
  fst (run one_way_env seed 2 2 (init "about:blank")) = Raise PWError.
Proof. split; vm_compute; reflexivity. Qed.

End ScraperFacts.

(** ** More on the crawl: what link discovery returns, how links are
    batched, where the page is sent, what the extractor is given *)

Module CrawlFacts.
Import Scraper Sites ScraperFacts.

Section Emits.
Context {W : Type}.

Lemma emits_ret {A} P (a : A) : emits P (@ret W A a).
Proof. intros s. by exists []. Qed.

Lemma emits_raise {A} P e : emits P (@raise W A e).
Proof. intros s. by exists []. Qed.

Lemma emits_out_of_fuel {A} P : emits P (@out_of_fuel W A).
Proof. intros s. by exists []. Qed.

Lemma emits_read {A} P (f : W -> A) : emits P (read f).
Proof. intros s. by exists []. Qed.

Lemma emits_gets {A} P (f : state W -> A) : emits P (gets f).
Proof. intros s. by exists []. Qed.

Lemma emits_call {A} (P : event -> Prop) ev (op : W -> res A * W) :
  P ev -> emits P (call ev op).
Proof.
  intros Hev s. exists [ev]. unfold call.
  destruct (op (world s)) as [[a|e] w']; simpl; by repeat constructor.
Qed.

Lemma emits_bind {A B} P (m : M W A) (k : A -> M W B) :
  emits P m -> (forall a, emits P (k a)) -> emits P (bind m k).
Proof.
  intros Hm Hk s. destruct (Hm s) as (evs & Hlog & Hevs & Hd). unfold bind.
  destruct (m s) as [[a| |] s1]; simpl in *; [|by exists evs|by exists evs].
  destruct (Hk a s1) as (evs' & Hlog' & Hevs' & Hd').
  exists (evs' ++ evs). rewrite Hlog', Hlog, Hd', Hd, app_assoc.
  split; [done|]. split; [by apply Forall_app|done].
Qed.

Lemma emits_try_catch {A} P (m : M W A) (h : exn -> M W A) :
  emits P m -> (forall e, emits P (h e)) -> emits P (try_catch m h).
Proof.
  intros Hm Hh s. destruct (Hm s) as (evs & Hlog & Hevs & Hd). unfold try_catch.
  destruct (m s) as [[a|e|] s1]; simpl in *; [by exists evs| |by exists evs].
  destruct (Hh e s1) as (evs' & Hlog' & Hevs' & Hd').
  exists (evs' ++ evs). rewrite Hlog', Hlog, Hd', Hd, app_assoc.
  split; [done|]. split; [by apply Forall_app|done].
Qed.

Lemma emits_for_each {A B} P (body : B -> A -> M W B) l acc :
  (forall acc x, emits P (body acc x)) -> emits P (for_each body l acc).
Proof.
  intros Hbody. revert acc. induction l as [|x l IH]; intros acc; simpl.
  - apply emits_ret.
  - apply emits_bind; auto.
Qed.

Lemma emits_weaken {A} (P Q : event -> Prop) (m : M W A) :
  (forall e, P e -> Q e) -> emits P m -> emits Q m.
Proof.
  intros HPQ Hm s. destruct (Hm s) as (evs & Hlog & Hevs & Hd).
  exists evs. split; [done|]. split; [|done].
  eapply Forall_impl; eauto.
Qed.

End Emits.

Create HintDb emits.
#[export] Hint Resolve emits_ret emits_raise emits_out_of_fuel emits_read
  emits_gets emits_bind emits_try_catch emits_for_each : emits.

Section Discovery.
Context {W : Type}.
Variable E : Env W.
Variable start_url : string.

Ltac page_call := apply emits_call; split; [reflexivity|];
  first [by intros u [= <-] | by intros u].

Ltac emitting := repeat (first
  [ progress intros
  | apply emits_bind | apply emits_try_catch | apply emits_ret
  | apply emits_raise | apply emits_read | apply emits_out_of_fuel
  | page_call
  | match goal with
    | |- emits _ (match ?x with _ => _ end) => destruct x
    | |- emits _ (if ?b then _ else _) => destruct b
    end ]).

Lemma emits_fetch_page url : emits (page_event url) (_fetch_page E url).
Proof. unfold _fetch_page. emitting. Qed.

Lemma emits_probe_loop fuel base_url : forall i links,
  emits (page_event base_url) (probe_loop E start_url fuel i base_url links).
Proof.
  induction fuel as [|fuel IH]; intros i links; simpl.
  - apply emits_out_of_fuel.
  - apply emits_bind; [unfold restore_base; emitting|]. intros _.
    apply emits_bind; [unfold check_element; emitting|]. intros [].
    + apply emits_ret.
    + apply IH.
    + apply emits_bind; [|intros; apply IH].
      unfold probe_element, probe_navigation. emitting.
Qed.

Lemma emits_extract_links fuel soup base_url :
  emits (page_event base_url) (_extract_links E start_url fuel soup base_url).
Proof.
  unfold _extract_links. case_bool_decide; [apply emits_ret|].
  apply emits_bind; [apply emits_probe_loop|]. intros. apply emits_ret.
Qed.

(** *** What link discovery returns *)

Lemma strip_fragment_no_hash s : contains_char "#" (strip_fragment s) = false.
Proof.
  induction s as [|a s IH]; simpl; [done|].
  case_bool_decide as Ha; simpl; [done|].
  by rewrite IH, bool_decide_eq_false_2.
Qed.

Lemma add_same_domain_clean u (links : gset string) :
  (forall v, v ∈ links ->
     netloc E v = base_domain E start_url /\ contains_char "#" v = false) ->
  forall v, v ∈ add_same_domain E start_url (strip_fragment u) links ->
    netloc E v = base_domain E start_url /\ contains_char "#" v = false.
Proof.
  intros Hlinks v. unfold add_same_domain. case_bool_decide as Hdom; [|auto].
  intros [->%elem_of_singleton|Hv]%elem_of_union; [|auto].
  split; [done|apply strip_fragment_no_hash].
Qed.

Lemma probe_element_clean i base_url (links : gset string) (s : state W) links' s' :
  (forall v, v ∈ links ->
     netloc E v = base_domain E start_url /\ contains_char "#" v = false) ->
  probe_element E start_url i base_url links s = (Ok links', s') ->
  forall v, v ∈ links' ->
    netloc E v = base_domain E start_url /\ contains_char "#" v = false.
Proof.
  intros Hlinks Heq.
  unfold probe_element, probe_navigation, bind, try_catch, call, read, ret,
    raise in Heq.
  simpl in Heq.
  repeat (case_match; simplify_eq/=);
    first [by apply add_same_domain_clean | assumption].
Qed.

Lemma probe_loop_clean fuel base_url : forall i (links : gset string) (s : state W) links' s',
  (forall v, v ∈ links ->
     netloc E v = base_domain E start_url /\ contains_char "#" v = false) ->
  probe_loop E start_url fuel i base_url links s = (Ok links', s') ->
  forall v, v ∈ links' ->
    netloc E v = base_domain E start_url /\ contains_char "#" v = false.
Proof.
  induction fuel as [|fuel IH]; intros i links s links' s' Hlinks Heq;
    [discriminate|].
  cbn [probe_loop] in Heq. unfold bind in Heq.
  destruct (restore_base E base_url s) as [[[]| |] s1]; try discriminate.
  destruct (check_element E i s1) as [[[]| |] s2]; try discriminate.
  - by injection Heq as <- _.
  - by eapply IH.
  - destruct (probe_element E start_url i base_url links s2)
      as [[links2| |] s3] eqn:Hprobe; try discriminate.
    eapply IH; [|exact Heq]. by eapply probe_element_clean.
Qed.

(** X1. Whenever [_extract_links] returns, the list has no duplicates and
    every URL in it is on the base domain and carries no fragment, be it
    found by the anchor scan or by clicking. *)
Theorem discovered_links_are_clean fuel soup base_url (s : state W) links s' :
  _extract_links E start_url fuel soup base_url s = (Ok links, s') ->
  NoDup links /\
  forall u, u ∈ links ->
    netloc E u = base_domain E start_url /\ contains_char "#" u = false.
Proof.
  assert (forall v, v ∈ tier1 E start_url soup base_url ->
            netloc E v = base_domain E start_url /\ contains_char "#" v = false)
    as Htier1.
  { intros v (href & _ & -> & Hdom)%elem_of_tier1.
    split; [done|apply strip_fragment_no_hash]. }
  unfold _extract_links. case_bool_decide.
  - intros [= <- _]. split; [apply NoDup_elements|].
    intros u Hu%elem_of_elements. auto.
  - unfold bind.
    destruct (probe_loop E start_url fuel 0 base_url
                (tier1 E start_url soup base_url) s)
      as [[links2| |] s2] eqn:Hloop; try discriminate.
    intros [= <- _]. split; [apply NoDup_elements|].
    intros u Hu%elem_of_elements. by eapply probe_loop_clean.
Qed.

(** *** How new links are batched *)

Lemma take_take_drop {A} (l : list A) a b :
  take a l ++ take b (drop a l) = take (a + b) l.
Proof.
  revert l. induction a as [|a IH]; intros [|x l]; simpl; try done.
  - by destruct b.
  - by rewrite IH.
Qed.

Lemma concat_slices {A} (l : list A) m :
  concat (map (fun i => slice l i (i + 10)) (map (fun k => k * 10) (seq 0 m)))
  = take (m * 10) l.
Proof.
  induction m as [|m IH]; [done|].
  rewrite seq_S, !map_app, concat_app, IH. simpl. rewrite app_nil_r.
  unfold slice. replace (m * 10 + 10 - m * 10) with 10 by lia.
  rewrite take_take_drop. f_equal. lia.
Qed.

Lemma batches_concat {A} (l : list A) : concat (batches l) = l.
Proof.
  unfold batches, range_step. rewrite concat_slices. apply take_ge.
  pose proof (Nat.div_mod_eq (length l + 10 - 1) 10) as Hdiv.
  pose proof (Nat.mod_upper_bound (length l + 10 - 1) 10) as Hmod. lia.
Qed.

Lemma batches_sizes {A} (l : list A) :
  Forall (fun b => 1 <= length b <= 10) (batches l).
Proof.
  unfold batches, range_step. apply Forall_forall. intros b Hb.
  apply list_elem_of_In, in_map_iff in Hb as (i & <- & Hi).
  apply in_map_iff in Hi as (k & <- & Hk). apply in_seq in Hk.
  pose proof (Nat.div_mod_eq (length l + 10 - 1) 10) as Hdiv.
  pose proof (Nat.mod_upper_bound (length l + 10 - 1) 10) as Hmod.
  unfold slice. rewrite length_take, length_drop. lia.
Qed.

Lemma neutral_apply_classification_calls dirs c :
  neutral (fun s : state W => batch_calls (log s)) (apply_classification dirs c).
Proof.
  intros s. unfold apply_classification. destruct c as [c|]; [|done].
  destruct (c_link c) as [u|]; [|done]. case_bool_decide; [done|].
  unfold bind, record_link, emit, ret. simpl. by case_bool_decide.
Qed.

Lemma classify_batch_calls ll dirs i (s : state W) :
  slice ll i (i + 10) <> [] ->
  batch_calls (log (snd (classify_batch E ll dirs i s)))
  = slice ll i (i + 10) :: batch_calls (log s).
Proof.
  intros Hne. unfold classify_batch, bind, _batch_call_openai_classifier.
  destruct (slice ll i (i + 10)) as [|b batch]; [done|].
  destruct (openai_batch E (b :: batch) (world s)) as [[cls|] w']; [|done].
  set (s1 := mkState _ _ _ _).
  pose proof (neutral_for_each (fun s : state W => batch_calls (log s))
                apply_classification cls dirs
                neutral_apply_classification_calls s1) as Hn.
  destruct (for_each apply_classification cls dirs s1) as [[d| |] s2];
    simpl in *; by rewrite Hn.
Qed.

Lemma round_batch_calls ll idx : forall dirs (s : state W),
  (forall i, i ∈ idx -> slice ll i (i + 10) <> []) ->
  let r := for_each (classify_batch E ll) idx dirs s in
  (exists k, batch_calls (log (snd r))
             = reverse (take k (map (fun i => slice ll i (i + 10)) idx))
               ++ batch_calls (log s)) /\
  (forall d, fst r = Ok d ->
     batch_calls (log (snd r))
     = reverse (map (fun i => slice ll i (i + 10)) idx) ++ batch_calls (log s)).
Proof.
  induction idx as [|i idx IH]; intros dirs s Hne; cbv zeta.
  { split; [by exists 0|done]. }
  cbn [for_each]. unfold bind.
  pose proof (classify_batch_calls ll dirs i s (Hne i (list_elem_of_here _ _)))
    as Hcalls.
  destruct (classify_batch E ll dirs i s) as [[d| |] s1]; cbn [fst snd] in *.
  - destruct (IH d s1) as [[k Hk] Hall]; [intros j Hj; apply Hne; by right|].
    split.
    + exists (S k). rewrite Hk, Hcalls. cbn [map take].
      by rewrite reverse_cons, <- app_assoc.
    + intros d' Hd'. rewrite (Hall d' Hd'), Hcalls. cbn [map].
      by rewrite reverse_cons, <- app_assoc.
  - split; [|done]. exists 1. by rewrite Hcalls.
  - split; [|done]. exists 1. by rewrite Hcalls.
Qed.

(** X2. The links found in a round are cut into batches in order: every
    link is in exactly one batch, no batch is empty or holds more than
    ten URLs.  Whatever happens, the oracle calls of the round are for
    the first batches, one call each, in that order; when the round
    completes, there is one call for every batch.  It completes when the
    answers hold no malformed entry: an entry that is no object raises
    and leaves the remaining batches unsubmitted. *)
Theorem new_links_are_batched_by_ten (ll dirs : list string) (s : state W) :
  let r := for_each (classify_batch E ll) (range_step (length ll) 10) dirs s in
  concat (batches ll) = ll /\
  Forall (fun b => 1 <= length b <= 10) (batches ll) /\
  (exists k, batch_calls (log (snd r))
             = reverse (take k (batches ll)) ++ batch_calls (log s)) /\
  (forall d, fst r = Ok d ->
     batch_calls (log (snd r)) = reverse (batches ll) ++ batch_calls (log s)) /\
  (answers_wellformed E -> exists d, fst r = Ok d).
Proof.
  cbv zeta. split; [apply batches_concat|]. split; [apply batches_sizes|].
  assert (forall i, i ∈ range_step (length ll) 10 -> slice ll i (i + 10) <> [])
    as Hne.
  { intros i Hi Hempty.
    pose proof (batches_sizes ll) as Hsizes. rewrite Forall_forall in Hsizes.
    assert (slice ll i (i + 10) ∈ batches ll) as Hin.
    { unfold batches. apply list_elem_of_In.
      apply (in_map (fun j => slice ll j (j + 10))). by apply list_elem_of_In. }
    apply Hsizes in Hin. rewrite Hempty in Hin. simpl in Hin. lia. }
  destruct (round_batch_calls ll _ dirs s Hne) as [Hk Hall].
  split; [exact Hk|]. split; [exact Hall|].
  intros Hobj.
  destruct (steady_for_each (classify_batch E ll) (range_step (length ll) 10)
              dirs (fun acc i => steady_classify_batch E ll acc i Hobj) s)
    as (d & s' & -> & _).
  by exists d.
Qed.

(** A round stopped by an entry that is no object: the second batch is
    never submitted. *)
Example round_stopped_by_bad_entry :
  let E := static_env crowded_site in
  let bad := mkEnv (urljoin E) (netloc E) (openai_one E)
                   (fun us w => (Some [Malformed], w))
                   (page_url E) (page_goto E) (page_anchors E)
                   (locator_count E) (locator_tag_name E)
                   (locator_is_visible E) (locator_cursor E)
                   (click_expect_page E) (wait_for_url_change E)
                   (open_post E) (md_handle E) in
  let r := for_each (classify_batch bad eleven) (range_step 11 10) []
                    (init "about:blank") in
  fst r = Raise OtherException /\
  batch_calls (log (snd r)) = [take 10 eleven].
Proof. by vm_compute. Qed.

(** *** A seed that is not a directory *)

(** X3. When the oracle answers the seed with an empty JSON object, the
    run stops as it does when the call fails: [run] returns the empty
    list after that single call, with no record and nothing visited. *)
Theorem empty_answer_for_seed_is_fatal probe_fuel fuel (w w' : W) c :
  openai_one E start_url w = (Some c, w') -> dict_truthy c = false ->
  run E start_url probe_fuel fuel (init w)
  = (Ok [], mkState w' [EClassifyOne start_url (Some c)] [] ∅).
Proof.
  intros Hcall Hempty. unfold run, _run_crawl, bind, _call_openai_classifier, init.
  simpl. rewrite Hcall. simpl. rewrite Hempty. reflexivity.
Qed.


(** *** What the extractor is given, and in which order *)

Lemma post_links_sublist d :
  Forall (fun kc : string * CrawledLink => link (snd kc) = fst kc) d ->
  post_links d `sublist_of` map fst d.
Proof.
  unfold post_links, dict_values.
  induction 1 as [|[k c] d Hk _ IH]; simpl; [done|].
  rewrite filter_cons. simpl in Hk.
  destruct (decide (is_relevant_post c = true)); simpl.
  - rewrite Hk. by apply sublist_skip.
  - by apply sublist_cons.
Qed.

Lemma post_links_NoDup d : dict_wf d -> NoDup (post_links d).
Proof.
  intros [Hnd Hall]. eapply sublist_NoDup; [exact Hnd|].
  by apply post_links_sublist.
Qed.

Lemma extract_phase_order l : forall items (s : state W),
  let r := for_each (extract_into E) l items s in
  (exists k, extracted (log (snd r)) = reverse (take k l) ++ extracted (log s)) /\
  (forall items', fst r = Ok items' ->
     exists more, items' = items ++ more /\
       map source_url more `sublist_of` l).
Proof.
  induction l as [|x l IH]; intros items s; cbv zeta.
  - split; [by exists 0|]. intros items' [= <-].
    exists []. by rewrite app_nil_r.
  - cbn [for_each]. unfold bind. rewrite extract_into_eq.
    set (s1 := mkState _ _ _ _).
    assert (extracted (log s1) = x :: extracted (log s)) as Hs1 by done.
    destruct (fst (open_post E x (world s))) as [ps|[]].
    + destruct (IH (items ++ [kb_item_of E x ps]) s1) as [[k Hk] Hitems].
      split.
      * exists (S k). rewrite Hk, Hs1.
        change (take (S k) (x :: l)) with (x :: take k l).
        by rewrite reverse_cons, <- app_assoc.
      * intros items' Hr. destruct (Hitems items' Hr) as (more & -> & Hsub).
        exists (kb_item_of E x ps :: more). rewrite <- app_assoc.
        split; [done|]. simpl. by apply sublist_skip.
    + destruct (IH items s1) as [[k Hk] Hitems]. split.
      * exists (S k). rewrite Hk, Hs1.
        change (take (S k) (x :: l)) with (x :: take k l).
        by rewrite reverse_cons, <- app_assoc.
      * intros items' Hr. destruct (Hitems items' Hr) as (more & -> & Hsub).
        exists more. split; [done|]. by apply sublist_cons.
    + destruct (IH items s1) as [[k Hk] Hitems]. split.
      * exists (S k). rewrite Hk, Hs1.
        change (take (S k) (x :: l)) with (x :: take k l).
        by rewrite reverse_cons, <- app_assoc.
      * intros items' Hr. destruct (Hitems items' Hr) as (more & -> & Hsub).
        exists more. split; [done|]. by apply sublist_cons.
    + split; [|done]. exists 1. cbn [snd]. rewrite Hs1.
      change (take 1 (x :: l)) with (x :: take 0 l). by rewrite take_0.
Qed.

Lemma run_extraction_order probe_fuel fuel w :
  let r := run E start_url probe_fuel fuel (init w) in
  NoDup (post_links (crawled_links (snd r))) /\
  (exists k, extracted (log (snd r))
             = reverse (take k (post_links (crawled_links (snd r))))) /\
  (forall items, fst r = Ok items ->
     map source_url items `sublist_of` post_links (crawled_links (snd r))).
Proof.
  pose proof (run_crawl_records E start_url probe_fuel fuel w) as [Hwf Hx].
  cbv zeta in *. unfold run, bind.
  destruct (_run_crawl E start_url probe_fuel fuel (init w)) as [[[]| |] s1];
    cbn [fst snd] in *.
  - unfold gets.
    destruct (extract_phase E (post_links (crawled_links s1)) [] s1)
      as (Hd & _ & _).
    destruct (extract_phase_order (post_links (crawled_links s1)) [] s1)
      as [[k Hk] Hitems].
    cbv zeta in *. rewrite Hd. split; [by apply post_links_NoDup|]. split.
    + exists k. by rewrite Hk, Hx, app_nil_r.
    + intros items Hr. by destruct (Hitems items Hr) as (more & -> & Hsub).
  - split; [by apply post_links_NoDup|]. split; [|done].
    exists 0. by rewrite Hx.
  - split; [by apply post_links_NoDup|]. split; [|done].
    exists 0. by rewrite Hx.
Qed.

(** X5. The documents [run] returns come in the order of the records:
    their source URLs form a subsequence of the relevant posts of
    [crawled_links], so there is at most one document per recorded URL. *)
Theorem documents_follow_record_order probe_fuel fuel w items :
  fst (run E start_url probe_fuel fuel (init w)) = Ok items ->
  map source_url items `sublist_of`
    post_links (crawled_links (snd (run E start_url probe_fuel fuel (init w)))) /\
  NoDup (map source_url items).
Proof.
  intros Hrun.
  destruct (run_extraction_order probe_fuel fuel w) as (Hnd & _ & Hsub).
  cbv zeta in *. split; [by apply Hsub|].
  eapply sublist_NoDup; [exact Hnd|by apply Hsub].
Qed.

(** X6. In every run, whatever its outcome, the Content Extractor is
    given each URL at most once, and the URLs it was given are the first
    relevant posts of [crawled_links], in that order. *)
Theorem each_post_is_extracted_once probe_fuel fuel w :
  let s' := snd (run E start_url probe_fuel fuel (init w)) in
  NoDup (extracted (log s')) /\
  reverse (extracted (log s')) `prefix_of` post_links (crawled_links s').
Proof.
  destruct (run_extraction_order probe_fuel fuel w) as (Hnd & [k Hk] & _).
  cbv zeta in *. rewrite Hk. split.
  - rewrite reverse_Permutation.
    eapply sublist_NoDup; [exact Hnd|apply sublist_take].
  - rewrite reverse_involutive. apply prefix_take.
Qed.

(** *** Where the traversal page is sent *)

Lemma emits_note_link uncl link :
  emits (fun e => exists l, e = EVisit l) (@note_link W uncl link).
Proof.
  intros s. unfold note_link, bind, gets, mark_visited, ret. simpl.
  case_bool_decide; simpl; [by exists []|].
  exists [EVisit link]. split; [done|]. split; [|done].
  repeat constructor. by exists link.
Qed.

Lemma emits_explore_directory probe_fuel uncl url :
  emits (fun e => page_event url e \/ exists l, e = EVisit l)
        (explore_directory E start_url probe_fuel uncl url).
Proof.
  unfold explore_directory. apply emits_bind.
  { eapply emits_weaken; [|apply emits_fetch_page]. auto. }
  intros [soup|]; [|apply emits_ret]. apply emits_bind.
  { eapply emits_weaken; [|apply emits_extract_links]. auto. }
  intros links. apply emits_for_each. intros acc x.
  eapply emits_weaken; [|apply emits_note_link]. auto.
Qed.

Lemma exploring_events url evs l :
  Forall (fun e => page_event url e \/ exists v, e = EVisit v) evs ->
  enqueued (evs ++ l) = enqueued l /\ written (evs ++ l) = written l /\
  forall u, u ∈ gotos (evs ++ l) -> u = url \/ u ∈ gotos l.
Proof.
  induction 1 as [|e evs He _ (IHe & IHw & IHg)]; [auto|].
  rewrite <- app_comm_cons.
  destruct He as [[Hb Hgoto]|[v ->]]; [|done].
  destruct e; try discriminate; try done.
  split; [done|]. split; [done|].
  intros u [->|Hu]%elem_of_cons; [left; by apply Hgoto|auto].
Qed.

Lemma triple_explore_directory_nav probe_fuel uncl url rest :
  triple (fun s : state W =>
            nav_ok start_url s /\
            forall d, d ∈ url :: rest -> d ∈ enqueued (log s))
         (explore_directory E start_url probe_fuel uncl url)
         (fun _ s => nav_ok start_url s /\
                     forall d, d ∈ rest -> d ∈ enqueued (log s))
         (fun s => nav_ok start_url s).
Proof.
  intros s [[Hgo Henq] Hdirs].
  destruct (emits_explore_directory probe_fuel uncl url s)
    as (evs & Hlog & Hevs & _).
  destruct (exploring_events url evs (log s) Hevs) as (He & Hw & Hg).
  assert (nav_ok start_url (snd (explore_directory E start_url probe_fuel uncl url s)))
    as Hnav.
  { unfold nav_ok. rewrite Hlog, He, Hw. split; [|done].
    intros u [->|Hu]%Hg; [apply Hdirs; by left|auto]. }
  destruct (explore_directory E start_url probe_fuel uncl url s)
    as [[a| |] s']; simpl in *; try done.
  split; [done|]. intros d Hd. rewrite Hlog, He. apply Hdirs. by right.
Qed.

Lemma triple_apply_classification_nav dirs c :
  triple (fun s : state W =>
            nav_ok start_url s /\ forall d, d ∈ dirs -> d ∈ enqueued (log s))
         (apply_classification dirs c)
         (fun dirs' s =>
            nav_ok start_url s /\ forall d, d ∈ dirs' -> d ∈ enqueued (log s))
         (fun s => nav_ok start_url s).
Proof.
  intros s [[Hgo Henq] Hdirs]. unfold apply_classification.
  destruct c as [c|]; [|done].
  destruct (c_link c) as [u|]; [|done]. case_bool_decide; [done|].
  unfold bind, record_link, emit, ret. simpl.
  assert (forall v, v ∈ enqueued (log s) ->
            v = start_url \/
            exists c', (v, c') ∈ (u, crawled_link_of u c) :: written (log s) /\
                       link_type c' = "directory") as Henq'.
  { intros v [->|(c' & Hc' & Hdir)]%Henq; [by left|right].
    exists c'. split; [by right|done]. }
  case_bool_decide as Hdir; simpl.
  - split; [split|].
    + intros v Hv. right. by apply Hgo.
    + intros v [->|Hv]%elem_of_cons; [|by apply Henq'].
      right. exists (crawled_link_of u c). split; [by left|done].
    + intros d [Hd | ->%list_elem_of_singleton]%elem_of_app; [right; auto|by left].
  - split; [split|]; done.
Qed.

Lemma triple_classify_batch_nav ll dirs i :
  triple (fun s : state W =>
            nav_ok start_url s /\ forall d, d ∈ dirs -> d ∈ enqueued (log s))
         (classify_batch E ll dirs i)
         (fun dirs' s =>
            nav_ok start_url s /\ forall d, d ∈ dirs' -> d ∈ enqueued (log s))
         (fun s => nav_ok start_url s).
Proof.
  unfold classify_batch.
  eapply triple_bind with
    (Q := fun _ s => nav_ok start_url s /\
                     forall d, d ∈ dirs -> d ∈ enqueued (log s)).
  - intros s Hs. unfold _batch_call_openai_classifier.
    destruct (slice ll i (i + 10)); [done|].
    by destruct (openai_batch E _ _).
  - intros [cls|]; [|by apply triple_ret].
    apply (triple_for_each
      (fun _ acc s => nav_ok start_url s /\
                      forall d, d ∈ acc -> d ∈ enqueued (log s))).
    intros. apply triple_apply_classification_nav.
Qed.

Lemma triple_crawl_loop_nav probe_fuel fuel : forall dirs,
  triple (fun s : state W =>
            nav_ok start_url s /\ forall d, d ∈ dirs -> d ∈ enqueued (log s))
         (crawl_loop E start_url probe_fuel fuel dirs)
         (fun _ s => nav_ok start_url s)
         (fun s => nav_ok start_url s).
Proof.
  induction fuel as [|fuel IH]; intros [|d dirs];
    try (apply triple_ret; tauto); [by intros s [Hs _]|].
  cbn [crawl_loop].
  eapply triple_bind with (Q := fun _ s => nav_ok start_url s).
  { eapply triple_conseq;
      [apply (triple_for_each
         (fun rest (_ : gset string) s =>
            nav_ok start_url s /\
            forall d, d ∈ rest -> d ∈ enqueued (log s)));
       intros; apply triple_explore_directory_nav| | |]; simpl; tauto. }
  intros uncl. case_bool_decide.
  { eapply triple_conseq; [apply (IH [])| | |]; simpl; try tauto.
    intros s Hs. split; [done|]. intros d' Hd'. by apply elem_of_nil in Hd'. }
  eapply triple_bind; [|intros dirs'; apply IH].
  eapply triple_conseq;
    [apply (triple_for_each
       (fun _ acc s => nav_ok start_url s /\
                       forall d, d ∈ acc -> d ∈ enqueued (log s)));
     intros; apply triple_classify_batch_nav| | |]; simpl; try tauto.
  intros s Hs. split; [done|]. intros d' Hd'. by apply elem_of_nil in Hd'.
Qed.

Lemma neutral_extract_into_nav items url :
  neutral (fun s : state W => (gotos (log s), enqueued (log s), written (log s)))
          (extract_into E items url).
Proof. intros s. by rewrite extract_into_eq. Qed.

(** X7. In every run, whatever its outcome, every [goto] of the
    traversal page targets the seed or a URL that had been recorded as a
    directory: no page classified otherwise is fetched or probed. *)
Theorem only_directories_are_explored probe_fuel fuel (w : W) :
  let s' := snd (run E start_url probe_fuel fuel (init w)) in
  forall u, u ∈ gotos (log s') ->
    u = start_url \/
    exists c, (u, c) ∈ written (log s') /\ link_type c = "directory".
Proof.
  assert (nav_ok start_url (snd (_run_crawl E start_url probe_fuel fuel (init w))))
    as Hcrawl.
  { assert (forall s : state W, gotos (log s) = [] -> enqueued (log s) = [] ->
              nav_ok start_url s) as Hquiet.
    { intros s Hg He. unfold nav_ok. rewrite Hg, He.
      split; intros u Hu; by apply elem_of_nil in Hu. }
    unfold _run_crawl, bind, _call_openai_classifier, init. simpl.
    destruct (openai_one E start_url w) as [[c|] w']; simpl; [|by apply Hquiet].
    destruct (dict_truthy c); simpl; [|by apply Hquiet].
    case_bool_decide; simpl; [by apply Hquiet|].
    match goal with |- context [crawl_loop _ _ _ _ _ ?s] =>
      pose proof (triple_crawl_loop_nav probe_fuel fuel [start_url] s) as Hloop;
      destruct (crawl_loop E start_url probe_fuel fuel [start_url] s)
        as [[a| |] s'] end;
      simpl; apply Hloop; (split; [split|]); simpl;
      try (intros u Hu; by apply elem_of_nil in Hu);
      try (intros u ->%list_elem_of_singleton; by left);
      intros u ->%list_elem_of_singleton; apply list_elem_of_here. }
  assert ((fun s : state W => (gotos (log s), enqueued (log s), written (log s)))
            (snd (run E start_url probe_fuel fuel (init w)))
          = (fun s : state W => (gotos (log s), enqueued (log s), written (log s)))
              (snd (_run_crawl E start_url probe_fuel fuel (init w)))) as Hview.
  { unfold run, bind.
    destruct (_run_crawl E start_url probe_fuel fuel (init w)) as [[[]| |] s1];
      cbn [fst snd]; try done.
    unfold gets.
    apply (neutral_for_each _ (extract_into E) _ [] neutral_extract_into_nav). }
  simpl in Hview. injection Hview as Hg He Hw.
  destruct Hcrawl as [Hgo Henq]. cbv zeta.
  intros u Hu. rewrite Hg in Hu. rewrite Hw. auto.
Qed.

(** *** A seed directory that cannot be fetched *)

(** X8. When the seed is classified as a directory but its page cannot
    be fetched, for a Playwright error, the crawl ends at once without
    an error: the seed is recorded and marked visited, nothing else is
    asked of the classifier, nothing is extracted and [run] returns the
    empty list. *)
Theorem unreachable_seed_directory_gives_nothing probe_fuel fuel
    (w w' w'' : W) c e :
  openai_one E start_url w = (Some c, w') -> dict_truthy c = true ->
  get_default (c_linkType c) "unknown" = "directory" ->
  page_goto E start_url w' = (Exc e, w'') -> e <> OtherException ->
  run E start_url probe_fuel (S fuel) (init w)
  = (Ok [],
     mkState w''
       [EGoto start_url; EEnqueue start_url; EVisit start_url;
        ERecord start_url (crawled_link_of start_url c);
        EClassifyOne start_url (Some c)]
       [(start_url, crawled_link_of start_url c)]
       ({[start_url]} ∪ ∅)).
Proof.
  intros Hcall Htruthy Htype Hgoto He.
  unfold run, _run_crawl, bind, _call_openai_classifier, init.
  simpl. rewrite Hcall. simpl. rewrite Htruthy. simpl.
  rewrite bool_decide_eq_false_2 by (intros H; by apply H).
  simpl. unfold bind, explore_directory, bind, _fetch_page, try_catch, bind, call.
  simpl. rewrite Hgoto.
  assert (Hpost : post_links [(start_url, crawled_link_of start_url c)] = []).
  { unfold post_links, dict_values. simpl. rewrite filter_cons, filter_nil.
    unfold is_relevant_post. simpl. rewrite Htype. done. }
  destruct e; [| |done]; simpl; rewrite bool_decide_eq_true_2 by done;
    destruct fuel; simpl; unfold gets; simpl; by rewrite Hpost.
Qed.

End Discovery.

(** *** The additional properties on concrete sites *)

Lemma discovered_links_are_clean_witness :
  NoDup [url_A; url_D] /\
  forall u, u ∈ [url_A; url_D] ->
    host u = "x.test" /\ contains_char "#" u = false.
Proof.
  apply (discovered_links_are_clean tab_env seed 2
           [(url_A ++ "#intro")%string] seed (init seed) [url_A; url_D]
           (mkState seed [ECount 1; EClick 0; ECursor 0; EIsVisible 0;
                          ETagName 0; ECount 0] [] ∅)).
  vm_compute. reflexivity.
Defined.

Lemma new_links_are_batched_by_ten_witness :
  let E := static_env crowded_site in
  let r := for_each (classify_batch E eleven) (range_step (length eleven) 10) []
                    (init "about:blank") in
  batch_calls (log (snd r)) = [drop 10 eleven; take 10 eleven] /\
  exists d, fst r = Ok d.
Proof.
  intros E r.
  destruct (new_links_are_batched_by_ten E eleven [] (init "about:blank"))
    as (_ & _ & _ & Hall & Hdone).
  destruct (Hdone (wellformed_static crowded_site)) as [d Hd].
  split; [|by exists d].
  etransitivity; [exact (Hall d Hd)|by vm_compute].
Defined.

Lemma empty_answer_for_seed_is_fatal_witness :
  run (static_env mute_site) seed 1 1 (init "about:blank")
  = (Ok [], mkState "about:blank"
              [EClassifyOne seed (Some (mkClassification None None None false))]
              [] ∅).
Proof.
  apply (empty_answer_for_seed_is_fatal (static_env mute_site) seed 1 1
           "about:blank" "about:blank").
  - reflexivity.
  - reflexivity.
Defined.


Lemma documents_follow_record_order_witness :
  [url_A; url_D] `sublist_of` [url_A; url_D] /\ NoDup [url_A; url_D].
Proof.
  apply (documents_follow_record_order (static_env scenario_site) seed 1 5
           "about:blank"
           [kb_item_of (static_env scenario_site) url_A
              (mkPostSoup (Some "Ada") (Some ("Post " ++ url_A)%string) None
                          [("<p>" ++ url_A ++ "</p>")%string]);
            kb_item_of (static_env scenario_site) url_D
              (mkPostSoup (Some "Ada") (Some ("Post " ++ url_D)%string) None
                          [("<p>" ++ url_D ++ "</p>")%string])]).
  vm_compute. reflexivity.
Defined.

Lemma only_directories_are_explored_witness :
  url_B = seed \/
  exists c,
    (url_B, c) ∈ written
      (log (snd (run (static_env scenario_site) seed 1 5 (init "about:blank")))) /\
    link_type c = "directory".
Proof.
  apply (only_directories_are_explored (static_env scenario_site) seed 1 5
           "about:blank" url_B).
  vm_compute. do 30 try (first [apply list_elem_of_here|apply list_elem_of_further]).
Defined.

Lemma unreachable_seed_directory_gives_nothing_witness :
  fst (run offline_env seed 1 1 (init "about:blank")) = Ok [].
Proof.
  rewrite (unreachable_seed_directory_gives_nothing offline_env seed 1 0
             "about:blank" "about:blank" "about:blank" directory PWTimeout).
  - reflexivity.
  - reflexivity.
  - reflexivity.
  - reflexivity.
  - reflexivity.
  - discriminate.
Defined.

End CrawlFacts.

(** ** Rules for the effects of the Drive reader and of the worker *)

Module EffectFacts.
Import Effects.

Section Rules.
Context {W Ev : Type}.
Implicit Types s : st W Ev.

Lemma post_ret {A} (a : A) (Q : A -> Prop) : Q a -> post (W:=W) (Ev:=Ev) (ret a) Q.
Proof. intros H s b Hb. cbn in Hb. by simplify_eq. Qed.

Lemma post_raise {A} e (Q : A -> Prop) : post (W:=W) (Ev:=Ev) (raise e) Q.
Proof. intros s b Hb. cbn in Hb. discriminate. Qed.

Lemma post_stuck {A} (Q : A -> Prop) : post (W:=W) (Ev:=Ev) stuck Q.
Proof. intros s b Hb. cbn in Hb. discriminate. Qed.

Lemma post_bind {A B} (m : T W Ev A) (k : A -> T W Ev B) Q1 (Q2 : B -> Prop) :
  post m Q1 -> (forall a, Q1 a -> post (k a) Q2) -> post (bind m k) Q2.
Proof.
  intros Hm Hk s b. unfold bind. specialize (Hm s).
  destruct (m s) as [[a|e|] s1]; cbn [fst] in *; try discriminate.
  intros Hb. exact (Hk a (Hm a eq_refl) s1 b Hb).
Qed.

Lemma post_true {A} (m : T W Ev A) : post m (fun _ => True).
Proof. by intros s a _. Qed.

Lemma post_try_catch {A} (m : T W Ev A) h (Q : A -> Prop) :
  post m Q -> (forall e, post (h e) Q) -> post (try_catch m h) Q.
Proof.
  intros Hm Hh s b. unfold try_catch. specialize (Hm s).
  destruct (m s) as [[a|e|] s1]; cbn [fst] in *; try discriminate.
  - intros ?. simplify_eq. by apply Hm.
  - apply Hh.
Qed.

Lemma post_for_each {A B} (body : B -> A -> T W Ev B) (I : B -> Prop) l acc :
  (forall b x, I b -> post (body b x) I) ->
  I acc -> post (for_each body l acc) I.
Proof.
  intros Hbody. revert acc. induction l as [|x l IH]; intros acc Hacc.
  - by apply post_ret.
  - cbn [for_each]. eapply post_bind; [by apply Hbody|]. intros b Hb. by apply IH.
Qed.

Lemma post_for_each_elem {A B} (body : B -> A -> T W Ev B) (I : B -> Prop) l acc :
  (forall b x, x ∈ l -> I b -> post (body b x) I) ->
  I acc -> post (for_each body l acc) I.
Proof.
  revert acc. induction l as [|x l IH]; intros acc Hbody Hacc.
  - by apply post_ret.
  - cbn [for_each]. eapply post_bind; [apply Hbody; [set_solver|done]|].
    intros b Hb. apply IH; [|done]. intros b' x' Hx'. apply Hbody. set_solver.
Qed.

Lemma post_pure {A} (r : lib A) (Q : A -> Prop) :
  (forall a, r = Returns a -> Q a) -> post (W:=W) (Ev:=Ev) (pure r) Q.
Proof. intros H s a. unfold pure. destruct r; cbn; [|done]. intros [= <-]. by apply H. Qed.

Lemma ends_ret {A} (a : A) : ends (W:=W) (Ev:=Ev) (ret a).
Proof. by intros s. Qed.

Lemma ends_raise {A} e : ends (W:=W) (Ev:=Ev) (A:=A) (raise e).
Proof. by intros s. Qed.

Lemma ends_call {A} ev (op : W -> lib A * W) : ends (call (Ev:=Ev) ev op).
Proof. intros s. unfold call. by destruct (op (st_world s)) as [[a|e] w]. Qed.

Lemma ends_pure {A} (r : lib A) : ends (W:=W) (Ev:=Ev) (pure r).
Proof. intros s. unfold pure. by destruct r. Qed.

Lemma ends_bind {A B} (m : T W Ev A) (k : A -> T W Ev B) :
  ends m -> (forall a, ends (k a)) -> ends (bind m k).
Proof.
  intros Hm Hk s. unfold bind. specialize (Hm s).
  destruct (m s) as [[a|e|] s1]; cbn [fst] in *; try done. apply Hk.
Qed.

Lemma ends_try_catch {A} (m : T W Ev A) h :
  ends m -> (forall e, ends (h e)) -> ends (try_catch m h).
Proof.
  intros Hm Hh s. unfold try_catch. specialize (Hm s).
  destruct (m s) as [[a|e|] s1]; cbn [fst] in *; try done. apply Hh.
Qed.

Lemma ends_for_each {A B} (body : B -> A -> T W Ev B) l acc :
  (forall b x, ends (body b x)) -> ends (for_each body l acc).
Proof.
  intros Hbody. revert acc. induction l as [|x l IH]; intros acc.
  - apply ends_ret.
  - cbn [for_each]. apply ends_bind; [apply Hbody|]. intros b. apply IH.
Qed.

(** A handler that returns makes the whole [try] return. *)
Lemma try_catch_returns {A} (m : T W Ev A) (a0 : A) s :
  ends m -> exists a, (try_catch m (fun _ => ret a0) s).1 = Done a.
Proof.
  intros Hm. unfold try_catch. specialize (Hm s).
  destruct (m s) as [[a|e|] s1]; cbn [fst] in *; try done; eauto.
Qed.

Lemma adds_ret {A} P (a : A) : adds (W:=W) (Ev:=Ev) P (ret a).
Proof. intros s. exists []. by split. Qed.

Lemma adds_raise {A} P e : adds (W:=W) (Ev:=Ev) (A:=A) P (raise e).
Proof. intros s. exists []. by split. Qed.

Lemma adds_stuck {A} P : adds (W:=W) (Ev:=Ev) (A:=A) P stuck.
Proof. intros s. exists []. by split. Qed.

Lemma adds_pure {A} P (r : lib A) : adds (W:=W) (Ev:=Ev) P (pure r).
Proof. intros s. exists []. unfold pure. by destruct r. Qed.

Lemma adds_call {A} (P : Ev -> Prop) ev (op : W -> lib A * W) :
  P ev -> adds P (call ev op).
Proof.
  intros Hev s. exists [ev]. unfold call.
  destruct (op (st_world s)) as [[a|e] w]; cbn; by split; [|constructor].
Qed.

Lemma adds_bind {A B} P (m : T W Ev A) (k : A -> T W Ev B) :
  adds P m -> (forall a, adds P (k a)) -> adds P (bind m k).
Proof.
  intros Hm Hk s. unfold bind. destruct (Hm s) as (evs & Ht & Hevs).
  destruct (m s) as [[a|e|] s1]; cbn [snd] in *; eauto.
  destruct (Hk a s1) as (evs' & Ht' & Hevs').
  exists (evs' ++ evs). rewrite Ht', Ht, app_assoc. split; [done|].
  by apply Forall_app.
Qed.

Lemma adds_try_catch {A} P (m : T W Ev A) h :
  adds P m -> (forall e, adds P (h e)) -> adds P (try_catch m h).
Proof.
  intros Hm Hh s. unfold try_catch. destruct (Hm s) as (evs & Ht & Hevs).
  destruct (m s) as [[a|e|] s1]; cbn [snd] in *; eauto.
  destruct (Hh e s1) as (evs' & Ht' & Hevs').
  exists (evs' ++ evs). rewrite Ht', Ht, app_assoc. split; [done|].
  by apply Forall_app.
Qed.

Lemma adds_try_finally {A} P (m : T W Ev A) f :
  adds P m -> adds P f -> adds P (try_finally m f).
Proof.
  intros Hm Hf s. unfold try_finally. destruct (Hm s) as (evs & Ht & Hevs).
  destruct (m s) as [[a|e|] s1]; cbn [snd] in *; eauto;
    destruct (Hf s1) as (evs' & Ht' & Hevs');
    (exists (evs' ++ evs); split; [|by apply Forall_app]);
    destruct (f s1) as [[[]|e'|] s2]; cbn [snd] in *;
    by rewrite Ht', Ht, app_assoc.
Qed.

Lemma adds_for_each {A B} P (body : B -> A -> T W Ev B) l acc :
  (forall b x, adds P (body b x)) -> adds P (for_each body l acc).
Proof.
  intros Hbody. revert acc. induction l as [|x l IH]; intros acc.
  - apply adds_ret.
  - cbn [for_each]. apply adds_bind; [apply Hbody|]. intros b. apply IH.
Qed.

Lemma adds_weaken {A} (P Q : Ev -> Prop) (m : T W Ev A) :
  (forall e, P e -> Q e) -> adds P m -> adds Q m.
Proof.
  intros HPQ Hm s. destruct (Hm s) as (evs & Ht & Hevs).
  exists evs. split; [done|]. eapply Forall_impl; eauto.
Qed.

Lemma ends_call_noting {A} ev (op : W -> lib A * W) :
  ends (call_noting (Ev:=Ev) ev op).
Proof. intros s. unfold call_noting. by destruct (op (st_world s)) as [[a|e] w]. Qed.

Lemma adds_call_noting {A} (P : Ev -> Prop) ev (op : W -> lib A * W) :
  (forall ok, P (ev ok)) -> adds P (call_noting ev op).
Proof.
  intros Hev s. unfold call_noting.
  destruct (op (st_world s)) as [[a|e] w]; cbn;
    [exists [ev true]|exists [ev false]]; by split; [|constructor].
Qed.

(** A [try] whose handler returns never raises. *)
Lemma try_catch_never_raises {A} (m : T W Ev A) (a0 : A) s e :
  (try_catch m (fun _ => ret a0) s).1 <> Failed e.
Proof. unfold try_catch. by destruct (m s) as [[a|e'|] s1]. Qed.

End Rules.

End EffectFacts.

(** ** The Drive reader *)

Module DriveFacts.
Import Effects Drive EffectFacts.

Lemma append_assoc (a b c : string) : ((a ++ b) ++ c = a ++ (b ++ c))%string.
Proof. induction a as [|x a IH]; [done|]. change (String x ((a ++ b) ++ c) = String x (a ++ b ++ c))%string. by f_equal. Qed.

Section Facts.
Context {W : Type}.
Variable E : Env W.

(** *** [walk] *)

Lemma lists_elem folder_url :
  post (list_folder E folder_url)
       (fun listing => forall r, r ∈ listing.1 -> lists E folder_url r).
Proof.
  intros s [rows err] Hs r Hr.
  exists s, rows, err, (list_folder E folder_url s).2. split; [|done].
  destruct (list_folder E folder_url s) as [o s']. simpl in Hs. by subst o.
Qed.

Lemma under_deeper folder_url prefix (d : row) f :
  lists E folder_url d -> r_mime d = FOLDER_MIME ->
  under E (child_url (r_id d)) ((prefix ++ r_name d) ++ "/") f ->
  under E folder_url prefix f.
Proof.
  intros Hd Hmime [Hm (dirs & Hreach & Hp)]. split; [done|].
  exists (d :: dirs). split; [by split_and!|].
  rewrite Hp. cbn [slashed]. by rewrite !append_assoc.
Qed.

Lemma post_walk fuel folder_url prefix :
  post (walk E fuel folder_url prefix) (Forall (under E folder_url prefix)).
Proof.
  revert folder_url prefix. induction fuel as [|fuel IH]; intros folder_url prefix.
  - apply post_stuck.
  - cbn [walk]. eapply post_bind; [apply lists_elem|]. intros listing Hlisting.
    eapply post_bind.
    + apply (post_for_each_elem _ (Forall (under E folder_url prefix)));
        [|constructor].
      intros acc r Hr Hacc. apply Hlisting in Hr. case_bool_decide as Hmime.
      * eapply post_bind; [apply IH|]. intros sub Hsub. apply post_ret.
        apply Forall_app. split; [done|].
        eapply Forall_impl; [exact Hsub|]. intros f Hf.
        by apply (under_deeper folder_url prefix r).
      * apply post_ret. apply Forall_app. split; [done|].
        constructor; [|constructor]. split; [done|].
        exists []. split; [by destruct r|done].
    + intros files Hfiles. destruct (listing.2); [apply post_raise|by apply post_ret].
Qed.

(** X9. Whatever [walk] yields is a file, never a folder row: it is a
    row of the folder the walk started in or of a folder reached from it
    through rows of the folder MIME type, and its path is the prefix the
    walk started with, followed by the names of the folders gone
    through, each with a ["/"], and by the name of the file. *)
Theorem walk_yields_files_below_prefix fuel folder_url prefix s files :
  (walk E fuel folder_url prefix s).1 = Done files ->
  Forall (fun f =>
            f_mime f <> FOLDER_MIME /\
            exists dirs,
              reaches E folder_url dirs (mkRow (f_id f) (f_name f) (f_mime f)) /\
              f_path f = (prefix ++ slashed dirs ++ f_name f)%string)
         files.
Proof. intros H. exact (post_walk fuel folder_url prefix s files H). Qed.

(** *** [extract] *)

Lemma ends_fetch_binary fid : ends (fetch_binary E fid).
Proof.
  unfold fetch_binary.
  apply ends_bind; [apply ends_call|]. intros cookies.
  apply ends_bind.
  - destruct (warning_token cookies) as [token|]; [|apply ends_ret].
    destruct (nonempty token); [|apply ends_ret].
    apply ends_bind; [apply ends_call|]. intros _. apply ends_ret.
  - intros _. apply ends_bind; [apply ends_call|]. intros ?. apply ends_ret.
Qed.

Lemma ends_export_gdoc fid : ends (export_gdoc E fid).
Proof.
  unfold export_gdoc. apply ends_bind; [apply ends_call|]. intros resp.
  case_bool_decide; [apply ends_ret|apply ends_raise].
Qed.

Lemma ends_extract_body fid name mime : ends (extract_body E fid name mime).
Proof.
  unfold extract_body.
  destruct (is_pdf E name mime).
  { apply ends_bind; [apply ends_fetch_binary|]. intros data.
    apply ends_bind; [apply ends_pure|]. intros ?. apply ends_ret. }
  destruct (is_docx E name mime).
  { apply ends_bind; [apply ends_fetch_binary|]. intros data.
    apply ends_bind; [apply ends_pure|]. intros ?. apply ends_ret. }
  destruct (is_gdoc mime); [|apply ends_ret].
  apply ends_try_catch.
  - apply ends_bind; [apply ends_export_gdoc|]. intros ?. apply ends_ret.
  - intros [| |e]; try apply ends_raise.
    apply ends_bind; [apply ends_fetch_binary|]. intros data.
    apply ends_bind; [apply ends_pure|]. intros ?. apply ends_ret.
Qed.

Lemma post_extract_body fid name path mime :
  post (extract_body E fid name mime)
       (fun o => forall d, o = Some d -> doc_of_file d (fid, name, mime, path)).
Proof.
  unfold extract_body.
  destruct (is_pdf E name mime).
  { eapply post_bind; [apply post_true|]. intros data _.
    eapply post_bind; [apply post_true|]. intros txt _.
    apply post_ret. intros d [= <-]. left. cbn. eauto. }
  destruct (is_docx E name mime).
  { eapply post_bind; [apply post_true|]. intros data _.
    eapply post_bind; [apply post_true|]. intros txt _.
    apply post_ret. intros d [= <-]. left. cbn. eauto. }
  destruct (is_gdoc mime) eqn:Hg; [|apply post_ret; by intros d].
  apply bool_decide_eq_true in Hg.
  apply post_try_catch.
  - eapply post_bind; [apply post_true|]. intros txt _.
    apply post_ret. intros d [= <-]. right. left. by cbn.
  - intros [| |e]; try apply post_raise.
    eapply post_bind; [apply post_true|]. intros data _.
    eapply post_bind; [apply post_true|]. intros txt _.
    apply post_ret. intros d [= <-]. right. right. cbn. eauto 10.
Qed.

Lemma post_extract fid name path mime :
  post (extract E fid name path mime)
       (fun o => forall d, o = Some d -> doc_of_file d (fid, name, mime, path)).
Proof.
  apply post_try_catch; [apply post_extract_body|].
  intros e. apply post_ret. by intros d.
Qed.

Lemma extract_returns fid name path mime s :
  exists o, (extract E fid name path mime s).1 = Done o.
Proof. apply try_catch_returns, ends_extract_body. Qed.

(** X10. [extract] never raises and never loops: whatever the libraries
    do, it returns a document or [None].  A document it returns is named
    after the file alone ([name], or [name.txt] / [name.pdf] for a native
    document), whatever [path] it was given; and a file that is neither
    a PDF, a DOCX nor a native document gives [None] without any
    request being sent. *)
Theorem extract_never_raises fid name path mime s :
  (exists o, (extract E fid name path mime s).1 = Done o /\
             forall d, o = Some d -> doc_of_file d (fid, name, mime, path)) /\
  (forall path', extract E fid name path' mime s = extract E fid name path mime s) /\
  (supported E name mime = false ->
   extract E fid name path mime s = (Done None, s)).
Proof.
  split; [|split].
  - destruct (extract_returns fid name path mime s) as [o Ho].
    exists o. split; [done|]. by apply (post_extract fid name path mime s).
  - done.
  - unfold supported. intros H.
    apply orb_false_iff in H as [H Hg]. apply orb_false_iff in H as [Hp Hd].
    unfold extract, try_catch, extract_body. by rewrite Hp, Hd, Hg.
Qed.

(** *** [extract_gdrive_folder] *)

Lemma extract_into_spec docs f s :
  exists new kept,
    (extract_into E docs f s).1 = Done (docs ++ new) /\
    kept `sublist_of` [f] /\ Forall2 doc_of_file new kept.
Proof.
  unfold extract_into, bind.
  destruct (extract_returns (f_id f) (f_name f) (f_path f) (f_mime f) s) as [o Ho].
  pose proof (post_extract (f_id f) (f_name f) (f_path f) (f_mime f) s o Ho) as Hd.
  destruct (extract E _ _ _ _ s) as [r s1]. cbn [fst] in Ho. subst r.
  destruct o as [d|]; cbn.
  - exists [d], [f]. split; [done|]. split; [done|].
    constructor; [|constructor]. specialize (Hd d eq_refl).
    by destruct f as [[[? ?] ?] ?].
  - exists [], []. rewrite app_nil_r. split; [done|]. split; [|constructor].
    apply sublist_nil_l.
Qed.

Lemma extract_loop_spec files : forall docs s,
  exists new kept,
    (for_each (extract_into E) files docs s).1 = Done (docs ++ new) /\
    kept `sublist_of` files /\ Forall2 doc_of_file new kept.
Proof.
  induction files as [|f files IH]; intros docs s.
  - exists [], []. cbn. rewrite app_nil_r. split; [done|]. split; constructor.
  - cbn [for_each]. unfold bind at 1.
    destruct (extract_into_spec docs f s) as (new1 & kept1 & H1 & Hs1 & Hd1).
    destruct (extract_into E docs f s) as [r s1]. cbn [fst] in H1. subst r.
    destruct (IH (docs ++ new1) s1) as (new2 & kept2 & H2 & Hs2 & Hd2).
    exists (new1 ++ new2), (kept1 ++ kept2). rewrite app_assoc.
    split; [done|]. split; [|by apply Forall2_app].
    by apply (sublist_app kept1 [f] kept2 files).
Qed.

(** X11. When [extract_gdrive_folder] returns, [walk] on the URL with its
    trailing slashes removed has returned the files of the tree, and the
    documents answer, in order, to some of these files; each document is
    named after its file alone, so the folders it lies in do not show in
    its [path]. *)
Theorem folder_documents_are_named_by_file fuel folder_url s docs :
  (extract_gdrive_folder E fuel folder_url s).1 = Done docs ->
  exists files kept,
    (walk E fuel (rstrip_slash folder_url) "" s).1 = Done files /\
    kept `sublist_of` files /\
    Forall2 doc_of_file docs kept.
Proof.
  unfold extract_gdrive_folder, bind. intros H.
  destruct (walk E fuel (rstrip_slash folder_url) "" s) as [[files|e|] s1];
    cbn [fst] in *; try discriminate.
  destruct (extract_loop_spec files [] s1) as (new & kept & Hn & Hs & Hd).
  rewrite Hn in H. simplify_eq. eauto.
Qed.

Lemma adds_list_folder folder_url :
  adds (fun e => is_listing e = true) (list_folder E folder_url).
Proof.
  unfold list_folder. apply adds_try_catch.
  - apply adds_bind; [by apply adds_call|]. intros r.
    destruct (find_blob E r.2); apply adds_ret.
  - intros e. apply adds_ret.
Qed.

Lemma adds_walk fuel : forall folder_url prefix,
  adds (fun e => is_listing e = true) (walk E fuel folder_url prefix).
Proof.
  induction fuel as [|fuel IH]; intros folder_url prefix.
  - apply adds_stuck.
  - cbn [walk]. apply adds_bind; [apply adds_list_folder|]. intros listing.
    apply adds_bind.
    + apply adds_for_each. intros acc r. case_bool_decide.
      * apply adds_bind; [apply IH|]. intros ?. apply adds_ret.
      * apply adds_ret.
    + intros files. destruct (listing.2); [apply adds_raise|apply adds_ret].
Qed.

Lemma adds_fetch_binary fid :
  adds (fun e => is_listing e = false) (fetch_binary E fid).
Proof.
  unfold fetch_binary.
  apply adds_bind; [by apply adds_call|]. intros cookies.
  apply adds_bind.
  - destruct (warning_token cookies) as [token|]; [|apply adds_ret].
    destruct (nonempty token); [|apply adds_ret].
    apply adds_bind; [by apply adds_call|]. intros _. apply adds_ret.
  - intros _. apply adds_bind; [by apply adds_call|]. intros ?. apply adds_ret.
Qed.

Lemma adds_extract fid name path mime :
  adds (fun e => is_listing e = false) (extract E fid name path mime).
Proof.
  apply adds_try_catch; [|intros; apply adds_ret].
  unfold extract_body.
  destruct (is_pdf E name mime).
  { apply adds_bind; [apply adds_fetch_binary|]. intros data.
    apply adds_bind; [apply adds_pure|]. intros ?. apply adds_ret. }
  destruct (is_docx E name mime).
  { apply adds_bind; [apply adds_fetch_binary|]. intros data.
    apply adds_bind; [apply adds_pure|]. intros ?. apply adds_ret. }
  destruct (is_gdoc mime); [|apply adds_ret].
  apply adds_try_catch.
  - apply adds_bind; [|intros; apply adds_ret].
    unfold export_gdoc. apply adds_bind; [by apply adds_call|]. intros resp.
    case_bool_decide; [apply adds_ret|apply adds_raise].
  - intros [| |e]; try apply adds_raise.
    apply adds_bind; [apply adds_fetch_binary|]. intros data.
    apply adds_bind; [apply adds_pure|]. intros ?. apply adds_ret.
Qed.

(** X12. [extract_gdrive_folder] lists the whole tree before it
    downloads or exports anything: the requests it makes are the
    listings of [walk], then requests that are no listing.  If [walk]
    fails, for a listing that cannot be read anywhere in the tree, the
    function fails with the same exception and makes no further
    request, so no document is read at all. *)
Theorem whole_tree_is_listed_first fuel folder_url s :
  let root := rstrip_slash folder_url in
  exists listings others,
    st_trace (walk E fuel root "" s).2 = listings ++ st_trace s /\
    st_trace (extract_gdrive_folder E fuel folder_url s).2
      = others ++ listings ++ st_trace s /\
    Forall (fun e => is_listing e = true) listings /\
    Forall (fun e => is_listing e = false) others /\
    (forall e, (walk E fuel root "" s).1 = Failed e ->
               (extract_gdrive_folder E fuel folder_url s).1 = Failed e /\
               others = []).
Proof.
  intros root. unfold extract_gdrive_folder, bind. fold root.
  destruct (adds_walk fuel root "" s) as (ls & Hls & Hl).
  destruct (walk E fuel root "" s) as [[files|e|] s1]; cbn [fst snd] in *.
  - destruct (adds_for_each (fun e => is_listing e = false)
                (extract_into E) files []) with (s := s1) as (os & Hos & Ho).
    { intros docs f. unfold extract_into.
      apply adds_bind; [apply adds_extract|]. intros [d|]; apply adds_ret. }
    exists ls, os. rewrite Hos, Hls. naive_solver.
  - exists ls, []. naive_solver.
  - exists ls, []. naive_solver.
Qed.

End Facts.

(** *** On the shelf *)

Lemma walk_yields_files_below_prefix_witness :
  Forall (fun f =>
            f_mime f <> FOLDER_MIME /\
            exists dirs,
              reaches Jobs.shelf Jobs.root dirs
                      (mkRow (f_id f) (f_name f) (f_mime f)) /\
              f_path f = ("" ++ slashed dirs ++ f_name f)%string)
         Jobs.files_of_shelf.
Proof.
  apply (walk_yields_files_below_prefix Jobs.shelf 3 Jobs.root "" (mkSt "" [])).
  vm_compute. reflexivity.
Defined.

(** The PDF of the subfolder: its path goes through [sub/]. *)
Example path_of_nested_file :
  (walk Jobs.shelf 3 Jobs.root "" (mkSt "" [])).1 = Done Jobs.files_of_shelf /\
  Jobs.files_of_shelf !! 1 = Some ("f2", "a.pdf", PDF_MIME, "sub/a.pdf") /\
  slashed [mkRow "d1" "sub" FOLDER_MIME] = "sub/".
Proof. by vm_compute. Qed.

Lemma folder_documents_are_named_by_file_witness :
  exists files kept,
    (walk Jobs.shelf 3 (rstrip_slash (Jobs.root ++ "/")) "" (mkSt "" [])).1
      = Done files /\
    kept `sublist_of` files /\
    Forall2 doc_of_file
      [mkDoc "a.pdf" PDF_MIME (Some "%PDF-1.7") "text of %PDF-1.7" (Some "");
       mkDoc "a.pdf" PDF_MIME (Some "%PDF-1.7") "text of %PDF-1.7" (Some "");
       mkDoc "Notes.txt" "text/plain" None (export_url "g1") None]
      kept.
Proof.
  apply (folder_documents_are_named_by_file Jobs.shelf 3 (Jobs.root ++ "/")
           (mkSt "" [])).
  vm_compute. reflexivity.
Defined.

End DriveFacts.

(** ** The queue worker *)

Module WorkerFacts.
Import Effects Worker EffectFacts.

Section Facts.
Context {W : Type}.
Variable E : Env W.
Variables probe_fuel crawl_fuel drive_fuel : nat.

(** *** The scraper inside the worker *)

Lemma adds_scraper_run (P : event -> Prop) url instructions :
  (forall e, P (EScraper e)) ->
  adds P (scraper_run E probe_fuel crawl_fuel url instructions).
Proof.
  intros HP s. unfold scraper_run.
  destruct (Scraper.run _ _ _ _ _) as [r s1].
  exists (map EScraper (Scraper.log s1)).
  split; [by destruct r|]. apply Forall_forall. intros e He.
  apply list_elem_of_fmap in He as (e' & -> & _). apply HP.
Qed.

Lemma adds_init (P : event -> Prop) url instructions :
  (forall ok, P (ESetup ok)) -> adds P (AiScraper_init E url instructions).
Proof.
  intros HP. unfold AiScraper_init.
  destruct (_ || _); [apply adds_raise|by apply adds_call_noting].
Qed.

Lemma adds_close (P : event -> Prop) :
  (forall e, is_close e = true -> P e) -> adds P (close E).
Proof.
  intros HP. unfold close.
  apply adds_bind; [apply adds_call_noting; intros; by apply HP|]. intros _.
  apply adds_bind; [apply adds_call_noting; intros; by apply HP|]. intros _.
  apply adds_call_noting; intros; by apply HP.
Qed.

Lemma adds_run_scraper (P : event -> Prop) url instructions :
  (forall e, is_web e = true -> P e) ->
  adds P (run_scraper_and_get_results E probe_fuel crawl_fuel url instructions).
Proof.
  intros HP. unfold run_scraper_and_get_results.
  apply adds_bind.
  - apply adds_try_catch; [|intros; apply adds_ret].
    apply adds_bind; [apply adds_init; intros; by apply HP|].
    intros; apply adds_ret.
  - intros [|]; [|apply adds_ret].
    apply adds_try_finally.
    + apply adds_try_catch; [|intros; apply adds_ret].
      apply adds_scraper_run. intros; by apply HP.
    + apply adds_close. intros [] He; try discriminate; by apply HP.
Qed.

(** What the shutdown leaves in the trace: the calls made, the last
    one first, and whether each returned. *)
Lemma close_spec s :
  exists closing,
    st_trace (close E s).2 = closing ++ st_trace s /\
    shutdown closing /\
    match (close E s).1 with
    | Done _ => closing = [EPwStop true; EBrowserClose true; EContextClose true]
    | Failed _ => Exists (fun e => broke e = true) closing
    | Stuck => False
    end.
Proof.
  unfold close, bind, call_noting, shutdown.
  destruct (context_close E (st_world s)) as [[[]|e1] w1]; cbn.
  2:{ exists [EContextClose false]. split_and!; [done|by left|by constructor]. }
  destruct (browser_close E w1) as [[[]|e2] w2]; cbn.
  2:{ exists [EBrowserClose false; EContextClose true].
      split_and!; [done|right; by left|by constructor]. }
  destruct (pw_stop E w2) as [[[]|e3] w3]; cbn.
  - exists [EPwStop true; EBrowserClose true; EContextClose true].
    split_and!; [done|right; right; by eexists|done].
  - exists [EPwStop false; EBrowserClose true; EContextClose true].
    split_and!; [done|right; right; by eexists|by constructor].
Qed.

Lemma shutdown_closes closing :
  shutdown closing -> closing <> [] /\ Forall (fun e => is_close e = true) closing.
Proof.
  intros [->|[->|[ok ->]]]; split; try done; by repeat constructor.
Qed.

Lemma bind_eq {Ev A B} (m : T W Ev A) (k : A -> T W Ev B) s :
  bind m k s = match m s with
               | (Done a, s') => k a s'
               | (Failed e, s') => (Failed e, s')
               | (Stuck, s') => (Stuck, s')
               end.
Proof. reflexivity. Qed.

(** The first half of the [try]: whether [scraper] gets bound. *)
Lemma constructed_spec url instructions s :
  try_catch (let* _ := AiScraper_init E url instructions in ret true)
            (fun _ => ret false) s =
  if bool_decide (url = "") || bool_decide (instructions = "")
  then (Done false, s)
  else match setup E (st_world s) with
       | (Returns _, w) => (Done true, mkSt w (ESetup true :: st_trace s))
       | (Throws _, w) => (Done false, mkSt w (ESetup false :: st_trace s))
       end.
Proof.
  unfold try_catch, bind, AiScraper_init, call_noting.
  destruct (_ || _); [done|].
  by destruct (setup E (st_world s)) as [[[]|e] w].
Qed.

Lemma guarded_run_spec url instructions s :
  exists evs s1,
    try_catch (scraper_run E probe_fuel crawl_fuel url instructions)
              (fun _ => ret []) s
    = (guarded (Scraper.run (scraper_env E instructions) url probe_fuel
                            crawl_fuel (Scraper.init (st_world s))).1, s1) /\
    st_trace s1 = evs ++ st_trace s /\
    Forall (fun e => is_close e = false) evs.
Proof.
  unfold try_catch, scraper_run.
  destruct (Scraper.run _ _ _ _ _) as [[items|e|] s1]; cbn;
    (exists (map EScraper (Scraper.log s1))); eexists; (split; [reflexivity|]);
    (split; [done|]); apply Forall_forall; intros e' He';
    apply list_elem_of_fmap in He' as (e'' & -> & _); done.
Qed.

Lemma run_scraper_spec url instructions s :
  let out := run_scraper_and_get_results E probe_fuel crawl_fuel url instructions s in
  out.1 <> Stuck ->
  exists closing rest,
    st_trace out.2 = closing ++ rest ++ st_trace s /\
    Forall (fun e => is_close e = true) closing /\
    Forall (fun e => is_close e = false) rest /\
    (ESetup true ∈ rest <-> closing <> []) /\
    (closing = [] -> out.1 = Done []) /\
    (forall e, out.1 = Failed e -> Exists (fun e => broke e = true) closing) /\
    (closing = [] \/ shutdown closing) /\
    (forall items, out.1 = Done items -> closing <> [] ->
       closing = [EPwStop true; EBrowserClose true; EContextClose true] /\
       Done items
       = guarded (Scraper.run (scraper_env E instructions) url probe_fuel
                              crawl_fuel
                              (Scraper.init (setup E (st_world s)).2)).1).
Proof.
  intros out. subst out.
  unfold run_scraper_and_get_results. rewrite bind_eq, constructed_spec.
  destruct (_ || _).
  { cbn. intros _. exists [], []. split_and!; try done; [set_solver|by left]. }
  destruct (setup E (st_world s)) as [[[]|e0] w0].
  2:{ cbn. intros _. exists [], [ESetup false]. split_and!; try done.
      - by repeat constructor.
      - set_solver.
      - by left. }
  set (s0 := mkSt w0 (ESetup true :: st_trace s)).
  unfold try_finally. cbn [snd].
  destruct (guarded_run_spec url instructions s0) as (evs & s1 & -> & Hevs & Hq).
  cbn [st_world s0].
  destruct (close_spec s1) as (closing & Hc & Hshut & Hres).
  destruct (shutdown_closes closing Hshut) as [Hne Hcl].
  assert (Htr : forall s2 : st W event, st_trace s2 = closing ++ st_trace s1 ->
            st_trace s2 = closing ++ (evs ++ [ESetup true]) ++ st_trace s).
  { intros s2 ->. rewrite Hevs. by rewrite <- !app_assoc. }
  assert (Hrest : Forall (fun e => is_close e = false) (evs ++ [ESetup true])).
  { apply Forall_app. split; [done|by repeat constructor]. }
  assert (Hin : ESetup true ∈ evs ++ [ESetup true]) by set_solver.
  destruct (guarded _) as [items|e|] eqn:Hg; [| |done].
  2:{ by destruct (Scraper.run _ _ _ _ _) as [[?|?|] ?]. }
  destruct (close E s1) as [[[]|e'|] s2]; cbn [fst snd] in *; [| |done]; intros _;
    (exists closing, (evs ++ [ESetup true])); split_and!; auto; try done.
Qed.

(** X13. [run_scraper_and_get_results] shuts the browser down exactly
    when [AiScraper.__init__] has returned.  The shutdown then comes
    after everything else, whether [run] returned or raised: the context
    is closed, then the browser, then Playwright is stopped, each call
    being made when the one before has returned.  There is no shutdown
    call when the constructor raised (empty URL or instructions, or a
    failed setup), and the result is then the empty list.  The function
    raises only if a shutdown call does; when it returns after a
    shutdown, the three calls have been made and have returned, and the
    result is what [run] returned, or the empty list if [run] raised. *)
Theorem scraper_is_closed_iff_constructed url instructions s :
  let out := run_scraper_and_get_results E probe_fuel crawl_fuel url instructions s in
  out.1 <> Stuck ->
  exists closing rest,
    st_trace out.2 = closing ++ rest ++ st_trace s /\
    Forall (fun e => is_close e = true) closing /\
    Forall (fun e => is_close e = false) rest /\
    (ESetup true ∈ rest <-> closing <> []) /\
    (closing = [] -> out.1 = Done []) /\
    (forall e, out.1 = Failed e -> Exists (fun e => broke e = true) closing) /\
    (closing = [] \/ shutdown closing) /\
    (forall items, out.1 = Done items -> closing <> [] ->
       closing = [EPwStop true; EBrowserClose true; EContextClose true] /\
       Done items
       = guarded (Scraper.run (scraper_env E instructions) url probe_fuel
                              crawl_fuel
                              (Scraper.init (setup E (st_world s)).2)).1).
Proof. exact (run_scraper_spec url instructions s). Qed.

(** *** The Drive branch *)

Lemma adds_extract_gdrive_folder (P : event -> Prop) folder_url :
  (forall e, P (EDrive e)) -> adds P (extract_gdrive_folder E drive_fuel folder_url).
Proof.
  intros HP s. unfold extract_gdrive_folder.
  destruct (Drive.extract_gdrive_folder _ _ _ _) as [r s1].
  exists (map EDrive (st_trace s1)). split; [done|].
  apply Forall_forall. intros e He.
  apply list_elem_of_fmap in He as (e' & -> & _). apply HP.
Qed.

Lemma adds_process_gdrive_message (P : event -> Prop) payload :
  (forall e, P (EDrive e)) -> adds P (process_gdrive_message E drive_fuel payload).
Proof.
  intros HP. unfold process_gdrive_message.
  apply adds_bind; [by apply adds_extract_gdrive_folder|].
  intros [|doc docs]; [apply adds_ret|].
  apply adds_for_each. intros acc item.
  apply adds_bind; [apply adds_pure|]. intros; apply adds_ret.
Qed.

(** [chunk_kb_item] changes titles and contents only. *)
Lemma chunk_keeps_attribution split item cs co items :
  Chunk.chunk_kb_item split item cs co = Val items ->
  Forall (fun i => content_type i = content_type item /\
                   source_url i = source_url item /\
                   author i = author item) items.
Proof.
  unfold Chunk.chunk_kb_item. case_match.
  - intros [= <-]. by repeat constructor.
  - destruct (split cs co (content item)) as [chunks|e]; [|done].
    intros [= <-]. apply Forall_forall. intros i Hi.
    apply list_elem_of_lookup in Hi as [k Hk].
    rewrite list_lookup_imap in Hk.
    destruct (chunks !! k) as [c|]; cbn in Hk; by simplify_eq.
Qed.

Lemma attributed_kb_item_of_doc payload doc :
  attributed payload (kb_item_of_doc payload doc).
Proof.
  unfold attributed, kb_item_of_doc. cbn. split_and!; [done| |].
  - unfold str_or. by case_bool_decide.
  - eexists. split; [done|]. unfold opt_or, str_or.
    destruct (Drive.author doc) as [a|]; [|done]. by case_bool_decide.
Qed.

(** X14. Every item [process_gdrive_message] returns, chunked or not,
    has the URL of the job as its source, a content type that is not
    empty (the MIME type of the document, or ["book"]) and an author
    that is neither [None] nor empty (["Unknown"] when the document has
    none). *)
Theorem drive_items_are_attributed payload s items :
  (process_gdrive_message E drive_fuel payload s).1 = Done items ->
  Forall (attributed payload) items.
Proof.
  revert s items.
  change (post (process_gdrive_message E drive_fuel payload)
               (Forall (attributed payload))).
  unfold process_gdrive_message.
  eapply post_bind; [apply post_true|]. intros docs _.
  destruct docs as [|doc docs]; [by apply post_ret|].
  apply (post_for_each_elem _ (Forall (attributed payload))); [|constructor].
  intros acc item Hitem Hacc.
  apply list_elem_of_fmap in Hitem as (d & -> & _).
  eapply post_bind.
  - apply (post_pure _ (Forall (attributed payload))).
    unfold chunk, of_res. intros chunks Hc.
    destruct (Chunk.chunk_kb_item _ _ _ _) as [l|e] eqn:Hl; [|done].
    simplify_eq. apply chunk_keeps_attribution in Hl.
    eapply Forall_impl; [exact Hl|]. intros i (Hct & Hsu & Hau).
    destruct (attributed_kb_item_of_doc payload d) as (H1 & H2 & H3).
    unfold attributed. by rewrite Hct, Hsu, Hau.
  - intros chunks Hchunks. apply post_ret. by apply Forall_app.
Qed.

(** *** Storing *)

Lemma row_for_result_of row_id i item : row_for i (result_of row_id i item) item.
Proof. unfold row_for, result_of. split_and!; by simplify_map_eq. Qed.

Lemma draw_row_eq i rows item s :
  (let* row_id := call EUuid (fun w => let '(v, w') := uuid4 E w in
                                       (Returns v, w')) in
   ret (rows ++ [result_of row_id i item])) s
  = (Done (rows ++ [result_of (uuid4 E (st_world s)).1 i item]),
     mkSt (uuid4 E (st_world s)).2 (EUuid :: st_trace s)).
Proof. unfold bind, call, ret. by destruct (uuid4 E (st_world s)). Qed.

Lemma results_loop_spec i items : forall acc s,
  exists new drawn s',
    for_each (fun rows item =>
                let* row_id := call EUuid (fun w => let '(v, w') := uuid4 E w in
                                                    (Returns v, w')) in
                ret (rows ++ [result_of row_id i item])) items acc s
    = (Done (acc ++ new), s') /\
    st_trace s' = drawn ++ st_trace s /\
    Forall (fun e => e = EUuid) drawn /\
    Forall2 (row_for i) new items.
Proof.
  induction items as [|item items IH]; intros acc s.
  - exists [], [], s. rewrite app_nil_r. by split_and!.
  - cbn [for_each]. rewrite bind_eq, draw_row_eq.
    set (v := (uuid4 E (st_world s)).1). set (w1 := (uuid4 E (st_world s)).2).
    destruct (IH (acc ++ [result_of v i item])
                 (mkSt w1 (EUuid :: st_trace s))) as (new & drawn & s' & Heq & Ht & Hd & Hr).
    exists (result_of v i item :: new), (drawn ++ [EUuid]), s'.
    split_and!.
    + rewrite Heq. by rewrite <- app_assoc.
    + rewrite Ht. cbn. by rewrite <- app_assoc.
    + apply Forall_app. split; [done|by repeat constructor].
    + constructor; [apply row_for_result_of|done].
Qed.

Lemma ends_store i items : ends (store E i items).
Proof.
  unfold store. destruct items as [|item items]; [apply ends_call_noting|].
  apply ends_bind.
  - apply ends_for_each. intros rows x.
    apply ends_bind; [apply ends_call|]. intros; apply ends_ret.
  - intros rows. apply ends_bind; [|intros; apply ends_call_noting].
    unfold save_extraction_results.
    destruct rows; [apply ends_ret|apply ends_call_noting].
Qed.

Lemma store_spec i items s :
  exists evs,
    st_trace (store E i items s).2 = evs ++ st_trace s /\ stored i items evs.
Proof.
  unfold store. destruct items as [|item items].
  - unfold complete_extraction_request, call_noting.
    destruct (mark_completed E i (st_world s)) as [[[]|e] w1]; cbn;
      [exists [ECompleted i true]|exists [ECompleted i false]];
      (split; [reflexivity|]); left; eauto.
  - set (items' := item :: items). rewrite bind_eq. unfold results_to_save.
    destruct (results_loop_spec i items' [] s) as (rows & drawn & s1 & -> & Ht & Hd & Hr).
    cbn [app]. rewrite bind_eq.
    assert (Hne : rows <> []).
    { intros ->. subst items'. inversion Hr. }
    unfold save_extraction_results.
    destruct rows as [|row rows]; [done|]. set (rows' := row :: rows) in *.
    unfold call_noting at 1.
    destruct (insert_results E rows' (st_world s1)) as [[[]|e] w2].
    + unfold complete_extraction_request, call_noting. cbn [st_world st_trace].
      destruct (mark_completed E i w2) as [[[]|e] w3]; cbn;
        rewrite Ht;
        [exists (ECompleted i true :: EInsert rows' true :: drawn)
        |exists (ECompleted i false :: EInsert rows' true :: drawn)];
        (split; [reflexivity|]);
        right; exists rows', drawn; split_and!; eauto.
    + cbn. rewrite Ht.
      exists (EInsert rows' false :: drawn). split; [reflexivity|].
      right. exists rows', drawn. split_and!; eauto.
Qed.

Lemma adds_dispatch payload :
  adds (fun e => is_db e = false)
       (dispatch E probe_fuel crawl_fuel drive_fuel payload).
Proof.
  unfold dispatch. destruct (str_in _ _).
  - by apply adds_process_gdrive_message.
  - apply adds_run_scraper. by intros [].
Qed.

Lemma process_eq body s :
  _process_message E probe_fuel crawl_fuel drive_fuel body s =
  match parse_payload E body with
  | Throws _ => (Done tt, s)
  | Returns p =>
      match dispatch E probe_fuel crawl_fuel drive_fuel p s with
      | (Done items, s1) =>
          match store E (id p) items s1 with
          | (Failed _, s2) => (Done tt, s2)
          | r => r
          end
      | (Failed _, s1) => (Done tt, s1)
      | (Stuck, s1) => (Stuck, s1)
      end
  end.
Proof.
  unfold _process_message, try_catch, bind, pure.
  destruct (parse_payload E body) as [p|e]; [|done].
  destruct (dispatch _ _ _ _ p s) as [[items|e|] s1]; try done.
  all: by destruct (store E (id p) items s1) as [[[]|e|] s2].
Qed.

(** What one message leaves in the trace. *)
Lemma process_spec body s :
  let out := _process_message E probe_fuel crawl_fuel drive_fuel body s in
  match parse_payload E body with
  | Throws _ => out = (Done tt, s)
  | Returns p =>
      let mid := dispatch E probe_fuel crawl_fuel drive_fuel p s in
      exists before,
        st_trace mid.2 = before ++ st_trace s /\
        Forall (fun e => is_db e = false) before /\
        match mid.1 with
        | Done items =>
            exists evs, st_trace out.2 = evs ++ before ++ st_trace s /\
                        stored (id p) items evs /\ out.1 = Done tt
        | Failed _ => out = (Done tt, mid.2)
        | Stuck => out = (Stuck, mid.2)
        end
  end.
Proof.
  cbn zeta. rewrite !process_eq.
  destruct (parse_payload E body) as [p|e]; [|done].
  destruct (adds_dispatch p s) as (before & Hb & Hq).
  exists before. split; [done|]. split; [done|].
  destruct (dispatch _ _ _ _ p s) as [[items|e|] s1]; cbn [fst snd] in *; try done.
  destruct (store_spec (id p) items s1) as (evs & Ht & Hs).
  pose proof (ends_store (id p) items s1) as Hst.
  exists evs. rewrite <- Hb.
  by destruct (store E (id p) items s1) as [[[]|e|] s2].
Qed.

Lemma quiet_no_db l :
  Forall (fun e => is_db e = false) l ->
  completed l = [] /\ inserted l = [] /\
  (forall i ok, ECompleted i ok ∉ l) /\ (forall rows ok, EInsert rows ok ∉ l).
Proof.
  intros Hq. split_and!.
  - induction Hq as [|[] l Hx Hl IH]; try done.
  - induction Hq as [|[] l Hx Hl IH]; try done.
  - intros i ok Hin. by apply (proj1 (Forall_forall _ _) Hq) in Hin.
  - intros rows ok Hin. by apply (proj1 (Forall_forall _ _) Hq) in Hin.
Qed.

Lemma drawn_quiet l :
  Forall (fun e => e = EUuid) l -> Forall (fun e => is_db e = false) l.
Proof. intros H. eapply Forall_impl; [exact H|]. by intros e ->. Qed.

(** What a stored job, after a dispatch that touched no table, shows of
    the database. *)
Lemma stored_facts i items evs before :
  stored i items evs ->
  Forall (fun e => is_db e = false) before ->
  length (completed (evs ++ before)) <= 1 /\
  length (inserted (evs ++ before)) <= 1 /\
  (forall j ok, ECompleted j ok ∈ evs ++ before ->
     j = i /\ exists rest, evs ++ before = ECompleted i ok :: rest /\
                           completed rest = [] /\
                           forall rows ok', EInsert rows ok' ∈ rest -> ok' = true) /\
  (forall rows ok, EInsert rows ok ∈ evs ++ before ->
     rows <> [] /\ Forall2 (row_for i) rows items).
Proof.
  intros Hs Hb.
  destruct Hs as [[-> [ok0 ->]]|(rows0 & drawn & Hne & Hrows & Hd & Hevs)].
  - destruct (quiet_no_db before Hb) as (Hc & Hi & Hnc & Hni).
    unfold completed, inserted in *. cbn. rewrite Hc, Hi.
    split_and!; [done|cbn; lia| |].
    + intros j ok [[= -> ->]|Hin]%elem_of_cons; [|by destruct (Hnc j ok)].
      split; [done|]. exists before. split_and!; [done..|].
      intros rows ok' Hin. by destruct (Hni rows ok').
    + intros rows ok [?|Hin]%elem_of_cons; [done|by destruct (Hni rows ok)].
  - assert (Hq : Forall (fun e => is_db e = false) (drawn ++ before)).
    { apply Forall_app. split; [by apply drawn_quiet|done]. }
    destruct (quiet_no_db _ Hq) as (Hc & Hi & Hnc & Hni).
    unfold completed, inserted in *.
    destruct Hevs as [->|[ok0 ->]]; cbn; rewrite Hc, Hi; cbn.
    + split_and!; [lia|done| |].
      * intros j ok [?|Hin]%elem_of_cons; [done|by destruct (Hnc j ok)].
      * intros rows ok [[= -> _]|Hin]%elem_of_cons; [done|by destruct (Hni rows ok)].
    + split_and!; [done|done| |].
      * intros j ok [[= -> ->]|[?|Hin]%elem_of_cons]%elem_of_cons;
          [|done|by destruct (Hnc j ok)].
        split; [done|]. eexists. split; [reflexivity|]. cbn. split; [done|].
        intros rows ok' [[= _ <-]|Hin]%elem_of_cons; [done|by destruct (Hni rows ok')].
      * intros rows ok [?|[[= -> _]|Hin]%elem_of_cons]%elem_of_cons;
          [done|done|by destruct (Hni rows ok)].
Qed.

(** X15. The body of [_process_message] never raises, whatever the
    message and the libraries.  It asks for at most one insertion and at
    most one completion; a completion is the last thing it does, is for
    the [id] of the parsed payload, and comes only after an insertion
    that returned, if there was one: a job whose rows could not be
    saved is not marked completed. *)
Theorem request_is_completed_last body s :
  let out := _process_message E probe_fuel crawl_fuel drive_fuel body s in
  (forall e, out.1 <> Failed e) /\
  exists evs,
    st_trace out.2 = evs ++ st_trace s /\
    length (completed evs) <= 1 /\
    length (inserted evs) <= 1 /\
    forall i ok, ECompleted i ok ∈ evs ->
      exists p rest,
        parse_payload E body = Returns p /\ i = id p /\
        evs = ECompleted i ok :: rest /\ completed rest = [] /\
        forall rows ok', EInsert rows ok' ∈ rest -> ok' = true.
Proof.
  intros out. split; [intros e; apply try_catch_never_raises|].
  pose proof (process_spec body s) as H. cbn zeta in H. fold out in H.
  destruct (parse_payload E body) as [p|e].
  2:{ rewrite H. exists []. cbn. split_and!; [done|lia|lia|set_solver]. }
  destruct H as (before & Hb & Hq & H).
  destruct (quiet_no_db before Hq) as (Hc & Hi & Hnc & Hni).
  destruct (dispatch _ _ _ _ p s) as [[items|e|] s1]; cbn [fst snd] in *.
  - destruct H as (evs & Ht & Hs & _).
    exists (evs ++ before). rewrite <- app_assoc. split; [done|].
    destruct (stored_facts _ _ _ _ Hs Hq) as (H1 & H2 & H3 & _).
    split_and!; [done..|].
    intros i ok Hin. destruct (H3 i ok Hin) as (-> & rest & ? & ? & ?).
    exists p, rest. by split_and!.
  - rewrite H. exists before. cbn [snd]. rewrite Hc, Hi.
    split_and!; [done|cbn; lia|cbn; lia|]. intros i ok Hin. by destruct (Hnc i ok).
  - rewrite H. exists before. cbn [snd]. rewrite Hc, Hi.
    split_and!; [done|cbn; lia|cbn; lia|]. intros i ok Hin. by destruct (Hnc i ok).
Qed.

(** X16. What is handed to the database for insertion is never empty
    and mirrors the items of the job: one row per item, in order, each
    with the [id] of the payload as [extractionRequestId], the title,
    content, content type and source URL of its item, and the author of
    the item or the empty string. *)
Theorem saved_rows_mirror_items body s evs rows ok :
  let out := _process_message E probe_fuel crawl_fuel drive_fuel body s in
  st_trace out.2 = evs ++ st_trace s ->
  EInsert rows ok ∈ evs ->
  exists p items s1,
    parse_payload E body = Returns p /\
    dispatch E probe_fuel crawl_fuel drive_fuel p s = (Done items, s1) /\
    rows <> [] /\ Forall2 (row_for (id p)) rows items.
Proof.
  intros out Hevs Hin.
  pose proof (process_spec body s) as H. cbn zeta in H. fold out in H.
  destruct (parse_payload E body) as [p|e].
  2:{ rewrite H in Hevs. cbn in Hevs.
      assert (evs = []) as -> by (by apply (app_inv_tail (st_trace s) [] evs) in Hevs).
      set_solver. }
  destruct H as (before & Hb & Hq & H).
  destruct (quiet_no_db before Hq) as (Hc & Hi & Hnc & Hni).
  destruct (dispatch _ _ _ _ p s) as [[items|e|] s1] eqn:Hd; cbn [fst snd] in *.
  - destruct H as (evs' & Ht & Hs & _).
    rewrite Ht, app_assoc in Hevs. apply app_inv_tail in Hevs. subst evs.
    destruct (stored_facts _ _ _ _ Hs Hq) as (_ & _ & _ & H4).
    destruct (H4 rows ok Hin) as [? ?]. by exists p, items, s1.
  - rewrite H in Hevs. cbn [snd] in Hevs. rewrite Hb in Hevs.
    apply app_inv_tail in Hevs. subst evs. by destruct (Hni rows ok).
  - rewrite H in Hevs. cbn [snd] in Hevs. rewrite Hb in Hevs.
    apply app_inv_tail in Hevs. subst evs. by destruct (Hni rows ok).
Qed.

(** X17. A web job is marked completed whatever the scraper did: if
    the payload parses, its URL is no Drive URL, and neither the
    shutdown of the browser nor the database raises, the last thing the
    body does is a completion of the request that returned, also when
    the scraper could not be constructed, found nothing or raised. *)
Theorem web_job_is_always_completed body p s evs :
  let out := _process_message E probe_fuel crawl_fuel drive_fuel body s in
  parse_payload E body = Returns p ->
  str_in "drive.google.com" (url p) = false ->
  out.1 <> Stuck ->
  st_trace out.2 = evs ++ st_trace s ->
  Forall (fun e => broke e = false) evs ->
  exists rest, evs = ECompleted (id p) true :: rest.
Proof.
  intros out Hp Hweb Hst Hevs Hok.
  pose proof (process_spec body s) as H. cbn zeta in H. fold out in H.
  rewrite Hp in H. destruct H as (before & Hb & Hq & H).
  unfold dispatch in *. rewrite Hweb in *. unfold process_message in *.
  pose proof (run_scraper_spec (url p) (specialInstructions p) s) as Hrun.
  cbn zeta in Hrun.
  destruct (run_scraper_and_get_results _ _ _ _ _ s) as [[items|e|] s1];
    cbn [fst snd] in *.
  - destruct H as (evs' & Ht & Hs & _).
    rewrite Ht, app_assoc in Hevs. apply app_inv_tail in Hevs. subst evs.
    apply Forall_app in Hok as [Hok _].
    destruct Hs as [[-> [ok ->]]|(rows & drawn & _ & _ & _ & [->|[ok ->]])].
    + apply Forall_cons in Hok as [Hok _]. destruct ok; [|done]. by eexists.
    + by apply Forall_cons in Hok as [Hok _].
    + apply Forall_cons in Hok as [Hok _]. destruct ok; [|done]. by eexists.
  - rewrite H in Hevs. cbn [snd] in Hevs. rewrite Hb in Hevs.
    apply app_inv_tail in Hevs. subst evs.
    destruct Hrun as (closing & rest & Ht & _ & _ & _ & _ & Hbr & _); [done|].
    rewrite Hb, app_assoc in Ht. apply app_inv_tail in Ht. subst before.
    apply Forall_app in Hok as [Hok _].
    specialize (Hbr e eq_refl). apply Exists_exists in Hbr as (x & Hx & Hbx).
    apply (proj1 (Forall_forall _ _) Hok) in Hx. congruence.
  - rewrite H in Hst. done.
Qed.

(** X18. A job whose processing raises is dropped: the body returns,
    nothing is inserted and the request is not marked completed.  For a
    Drive job this is any failure of a listing or of the splitter; for
    a web job, whose scraper errors are turned into an empty result,
    only a failed shutdown of the browser. *)
Theorem failed_job_is_dropped body p s e :
  let out := _process_message E probe_fuel crawl_fuel drive_fuel body s in
  let mid := dispatch E probe_fuel crawl_fuel drive_fuel p s in
  parse_payload E body = Returns p ->
  mid.1 = Failed e ->
  out = (Done tt, mid.2) /\
  exists evs, st_trace out.2 = evs ++ st_trace s /\
              completed evs = [] /\ inserted evs = [].
Proof.
  intros out mid Hp Hmid. subst out mid.
  pose proof (process_spec body s) as H. cbn zeta in H.
  rewrite Hp in H. destruct H as (before & Hb & Hq & H).
  destruct (dispatch _ _ _ _ p s) as [r s1]. cbn [fst snd] in *. subst r.
  split; [done|].
  exists before. rewrite H. cbn [snd].
  destruct (quiet_no_db before Hq) as (Hc & Hi & _). by split_and!.
Qed.

(** X19. A job is served by one reader only: when the URL contains
    [drive.google.com] everything done before storing is a request of
    the Drive reader, no browser is set up and no classifier is asked;
    otherwise everything is the construction, the run or the shutdown
    of the scraper, and no Drive request is sent. *)
Theorem job_is_served_by_one_reader p s :
  let mid := dispatch E probe_fuel crawl_fuel drive_fuel p s in
  exists evs,
    st_trace mid.2 = evs ++ st_trace s /\
    if str_in "drive.google.com" (url p)
    then Forall (fun e => is_drive e = true) evs
    else Forall (fun e => is_web e = true) evs.
Proof.
  cbn zeta. unfold dispatch. destruct (str_in _ _).
  - by apply (adds_process_gdrive_message (fun e => is_drive e = true)).
  - by apply (adds_run_scraper (fun e => is_web e = true)).
Qed.

End Facts.

(** *** In the office *)

Lemma forallb_Forall_false {A} (f : A -> bool) l :
  forallb (fun x => negb (f x)) l = true -> Forall (fun x => f x = false) l.
Proof.
  induction l as [|x l IH]; cbn; [constructor|].
  intros [Hx Hl]%andb_true_iff. constructor; [by destruct (f x)|by apply IH].
Qed.

Lemma scraper_is_closed_iff_constructed_witness :
  let out := run_scraper_and_get_results
               (Jobs.office Sites.scenario_site Jobs.shelf) 1 5
               Sites.seed "posts on testing" Jobs.idle in
  exists rest,
    st_trace out.2
    = [EPwStop true; EBrowserClose true; EContextClose true]
      ++ rest ++ st_trace Jobs.idle /\
    ESetup true ∈ rest.
Proof.
  intros out.
  destruct (scraper_is_closed_iff_constructed
              (Jobs.office Sites.scenario_site Jobs.shelf) 1 5
              Sites.seed "posts on testing" Jobs.idle)
    as (closing & rest & Ht & _ & _ & Hiff & Hnil & _ & _ & Hdone).
  - vm_compute. discriminate.
  - assert (closing <> []) as Hne.
    { intros Hc. apply Hnil in Hc. vm_compute in Hc. discriminate. }
    assert (exists items, out.1 = Done items) as [items Hi].
    { vm_compute. eauto. }
    destruct (Hdone items Hi Hne) as [-> _].
    exists rest. split; [exact Ht|]. by apply Hiff.
Defined.

Lemma drive_items_are_attributed_witness :
  Forall (attributed Jobs.drive_job) Jobs.shelf_items.
Proof.
  apply (drive_items_are_attributed
           (Jobs.office Sites.scenario_site Jobs.shelf) 3 Jobs.drive_job Jobs.idle).
  vm_compute. reflexivity.
Defined.

Lemma saved_rows_mirror_items_witness :
  let E := Jobs.office Sites.scenario_site Jobs.shelf in
  exists p items s1,
    parse_payload E (url Jobs.drive_job) = Returns p /\
    dispatch E 1 5 3 p Jobs.idle = (Done items, s1) /\
    map (result_of "0000" "job-1") Jobs.shelf_items <> [] /\
    Forall2 (row_for (id p)) (map (result_of "0000" "job-1") Jobs.shelf_items) items.
Proof.
  intros E.
  apply (saved_rows_mirror_items E 1 5 3 (url Jobs.drive_job) Jobs.idle
           (st_trace (_process_message E 1 5 3 (url Jobs.drive_job) Jobs.idle).2)
           (map (result_of "0000" "job-1") Jobs.shelf_items) true).
  - symmetry. apply app_nil_r.
  - vm_compute. apply list_elem_of_further, list_elem_of_here.
Defined.

Lemma web_job_is_always_completed_witness :
  let E := Jobs.office Sites.dead_oracle_site Jobs.shelf in
  exists rest,
    st_trace (_process_message E 1 5 3 Sites.seed Jobs.idle).2
    = ECompleted "job-1" true :: rest.
Proof.
  intros E.
  apply (web_job_is_always_completed E 1 5 3 Sites.seed
           (mkJobPayload "job-1" Sites.seed "posts on testing") Jobs.idle).
  - reflexivity.
  - vm_compute. reflexivity.
  - vm_compute. discriminate.
  - symmetry. apply app_nil_r.
  - apply forallb_Forall_false. vm_compute. reflexivity.
Defined.

Lemma failed_job_is_dropped_witness :
  let E := Jobs.office Sites.scenario_site Jobs.locked_shelf in
  let out := _process_message E 1 5 3 (url Jobs.drive_job) Jobs.idle in
  out = (Done tt, (dispatch E 1 5 3 Jobs.drive_job Jobs.idle).2) /\
  exists evs, st_trace out.2 = evs ++ st_trace Jobs.idle /\
              completed evs = [] /\ inserted evs = [].
Proof.
  intros E.
  apply (failed_job_is_dropped E 1 5 3 (url Jobs.drive_job) Jobs.drive_job
           Jobs.idle RuntimeError).
  - reflexivity.
  - vm_compute. reflexivity.
Defined.

End WorkerFacts.
